(** * Explanation-and-scoring driver: persistence hooks and bounded executor

    A shallow embedding of
    [experiments/caching_gemma/generate_explanations_and_scores.py].

    The script builds three stage wrappers (an explainer and two scorers
    that form a fan-out group), creates the result directories, stores the
    experiment configuration and hands everything to a pipeline that is run
    with at most 50 items in flight.

    Layout of the development:
    - a fragment of the Python runtime the script relies on: objects with
      attributes on a heap, exceptions, a file system with directories and
      files, and an event log;
    - the hooks and the set-up code of [main], transcribed from the script;
    - the stage wrapper, the fan-out group and the bounded executor, which
      the script imports from [delphi.pipeline];
    - invariants of the executor and the properties of a whole run;
    - the hooks and the set-up in detail: what they write, how they fail,
      what they leave alone, and how they compose. *)

From Stdlib Require Import Ascii.
From stdpp Require Import gmap strings list fin_maps.

(** ** Python values, objects and exceptions *)

Definition loc := positive.

(** Values that travel through the pipeline.  A feature record is a mutable
    object and is always handled through a reference [VRef]; a stage result
    is an immutable pair of the record it belongs to and one named output
    field ([explanation] or [score]). *)
#[warnings="-register-all"]
Inductive value : Type :=
| VNone
| VInt (n : Z)
| VStr (s : string)
| VRef (l : loc)
| VList (vs : list value)
| VResult (record : value) (field : string) (output : value).

Inductive exn : Type :=
| AttributeError (name : string)
| UnboundLocalError (name : string)
| JSONEncodeError
| BackendError
| FileNotFoundError (path : string)
| FileExistsError (path : string)
| IsADirectoryError (path : string)
| NotADirectoryError (path : string).

(** Errors of the persistence layer; every other exception is tied to the
    item being processed. *)
Definition is_os_error (e : exn) : bool :=
  match e with
  | FileNotFoundError _ | FileExistsError _
  | IsADirectoryError _ | NotADirectoryError _ => true
  | _ => false
  end.

(** The instance dictionary of an object. *)
Abbreviation object := (gmap string value).
Abbreviation heap := (gmap loc object).

(** ** File system *)

Record filesystem : Type := Fs {
  dirs : gset string;
  files : gmap string string
}.

Definition empty_fs : filesystem := Fs ∅ ∅.

Definition slash : ascii := "/"%char.

Definition is_slash (c : ascii) : bool := bool_decide (c = slash).

Fixpoint last_is_slash (p : string) : bool :=
  match p with
  | EmptyString => false
  | String c EmptyString => is_slash c
  | String _ p' => last_is_slash p'
  end.

(** [ancestors_from acc p]: the directories one has to walk through to reach
    [acc +:+ p], given that [acc] has been read already.  A prefix counts
    when it is followed by a separator, is not empty and does not itself
    end in a separator. *)
Fixpoint ancestors_from (acc p : string) : list string :=
  match p with
  | EmptyString => []
  | String c p' =>
      (if is_slash c && negb (last_is_slash acc) &&
          negb (bool_decide (acc = EmptyString))
       then [acc] else [])
      ++ ancestors_from (acc +:+ String c EmptyString) p'
  end.

Definition ancestors (p : string) : list string := ancestors_from "" p.

(** [os.path.dirname]: the innermost ancestor, or the working directory
    (the empty path) when there is none. *)
Definition dirname (p : string) : string := List.last (ancestors p) "".

Definition isdir (fs : filesystem) (p : string) : bool :=
  bool_decide (p = "") || bool_decide (p ∈ dirs fs).

Definition isfile (fs : filesystem) (p : string) : bool :=
  bool_decide (is_Some (files fs !! p)).

(** ** Effects *)

(** The file-system effects a computation performs, in chronological
    order. *)
Inductive fs_event : Type :=
| Mkdir (d : string)
| Open (p : string)
| Write (p : string) (data : string).

Record world : Type := World {
  w_heap : heap;
  w_fs : filesystem
}.

Inductive result (A : Type) : Type :=
| Ok (a : A)
| Raise (e : exn).
Arguments Ok {A} a.
Arguments Raise {A} e.

(** A computation reads and updates the world and reports the file-system
    effects it performed; when it raises, the effects performed so far stay
    in place. *)
Definition M (A : Type) : Type := world → result A * world * list fs_event.

Definition ret {A} (a : A) : M A := λ w, (Ok a, w, []).
Definition raise {A} (e : exn) : M A := λ w, (Raise e, w, []).
Definition bind {A B} (m : M A) (k : A → M B) : M B :=
  λ w, match m w with
       | (Ok a, w1, t1) =>
           match k a w1 with
           | (r, w2, t2) => (r, w2, t1 ++ t2)
           end
       | (Raise e, w1, t1) => (Raise e, w1, t1)
       end.

Declare Scope py_scope.
Delimit Scope py_scope with py.
Notation "'let*' x ':=' m 'in' k" := (bind m (λ x, k))
  (at level 10, x name, m at level 100, k at level 200) : py_scope.
Notation "m ';;;' k" := (bind m (λ _, k))
  (at level 100, k at level 200, right associativity) : py_scope.
Local Open Scope py_scope.

Definition emit (e : fs_event) : M unit := λ w, (Ok tt, w, [e]).

Definition get_heap : M heap := λ w, (Ok (w_heap w), w, []).
Definition get_fs : M filesystem := λ w, (Ok (w_fs w), w, []).
Definition put_fs (fs : filesystem) : M unit :=
  λ w, (Ok tt, World (w_heap w) fs, []).
Definition put_heap (h : heap) : M unit :=
  λ w, (Ok tt, World h (w_fs w), []).

Definition outcome {A} (r : result A * world * list fs_event) : result A :=
  r.1.1.
Definition after {A} (r : result A * world * list fs_event) : world := r.1.2.
Definition effects {A} (r : result A * world * list fs_event)
    : list fs_event := r.2.

(** Attribute access [v.name]. *)
Definition getattr (v : value) (name : string) : M value :=
  match v with
  | VRef l =>
      let* h := get_heap in
      match h !! l ≫= (.!! name) with
      | Some x => ret x
      | None => raise (AttributeError name)
      end
  | VResult r f o =>
      if bool_decide (name = "record") then ret r
      else if bool_decide (name = f) then ret o
      else raise (AttributeError name)
  | _ => raise (AttributeError name)
  end.

(** Attribute assignment [v.name = x]: only objects on the heap accept it. *)
Definition setattr (v : value) (name : string) (x : value) : M unit :=
  match v with
  | VRef l =>
      let* h := get_heap in
      match h !! l with
      | Some o => put_heap (<[l := <[name := x]> o]> h)
      | None => raise (AttributeError name)
      end
  | _ => raise (AttributeError name)
  end.

(** [os.mkdir]. *)
Definition mkdir (d : string) : M unit :=
  let* fs := get_fs in
  if isdir fs d || isfile fs d then raise (FileExistsError d)
  else if isfile fs (dirname d) then raise (NotADirectoryError d)
  else if negb (isdir fs (dirname d)) then raise (FileNotFoundError d)
  else put_fs (Fs ({[d]} ∪ dirs fs) (files fs));;; emit (Mkdir d).

(** Creation of the missing directories of a chain, outermost first. *)
Fixpoint mkdir_missing (ds : list string) : M unit :=
  match ds with
  | [] => ret tt
  | d :: ds' =>
      let* fs := get_fs in
      (if isdir fs d then ret tt else mkdir d);;;
      mkdir_missing ds'
  end.

(** [os.makedirs(name, exist_ok=...)]: the leaf directory and every missing
    intermediate one; an existing leaf is tolerated only with [exist_ok]. *)
Definition makedirs (name : string) (exist_ok : bool) : M unit :=
  mkdir_missing (ancestors name);;;
  let* fs := get_fs in
  if isdir fs name then
    if exist_ok then ret tt else raise (FileExistsError name)
  else mkdir name.

(** [open(path, "w")] and [open(path, "wb")]: the file is created or
    truncated. *)
Definition open_w (p : string) : M unit :=
  let* fs := get_fs in
  if isdir fs p then raise (IsADirectoryError p)
  else if isfile fs (dirname p) then raise (NotADirectoryError p)
  else if negb (isdir fs (dirname p)) then raise (FileNotFoundError p)
  else put_fs (Fs (dirs fs) (<[p := ""]> (files fs)));;; emit (Open p).

(** [f.write(data)] on a file that has just been opened by [open_w]. *)
Definition write (p data : string) : M unit :=
  let* fs := get_fs in
  put_fs (Fs (dirs fs) (<[p := data]> (files fs)));;; emit (Write p data).

(** ** Collaborators outside the script *)

(** The script receives these from the libraries it imports and from the
    command line; the development is parametric in them. *)
Class Collaborators : Type := {
  (** [str(v)], as an f-string interpolates a value *)
  py_str : value → string;
  (** [orjson.dumps], [None] when the value cannot be serialised *)
  orjson_dumps : heap → value → option string;
  (** [json.dumps(experiment_cfg.to_dict())] *)
  config_json : string;
  (** the answer of the inference backend to the request an explainer or a
      scorer builds from its input; [None] when the backend fails for good *)
  explain : heap → value → option value;
  detect : heap → value → option value;
  fuzz : heap → value → option value
}.

(** The command-line arguments the persistence paths and the client depend
    on ([--model], [--experiment_name], [--quantization]). *)
Record Args : Type := {
  model : string;
  experiment_name : string;
  quantization : string
}.

(** ** Stage wrappers and pipeline positions *)

(** Modelled from the spec: the stage descriptor built by
    [delphi.pipeline.process_wrapper], which is imported by the script and
    not part of it: a core function with an optional preprocess and an
    optional postprocess hook. *)
Record stage : Type := Stage {
  st_core : value → M value;
  st_pre : option (value → M value);
  st_post : option (value → M value)
}.

Definition process_wrapper (function : value → M value)
    (preprocess postprocess : option (value → M value)) : stage :=
  Stage function preprocess postprocess.

(** Modelled from the spec: a hook that is omitted defaults to the
    identity. *)
Definition hook (h : option (value → M value)) : value → M value :=
  match h with
  | Some f => f
  | None => ret
  end.

(** Modelled from the spec: the three-phase shape of a wrapped stage,
    preprocess, then core, then postprocess. *)
Definition run_stage (s : stage) (input : value) : M value :=
  let* x := hook (st_pre s) input in
  let* out := st_core s x in
  hook (st_post s) out.

(** Modelled from the spec: a pipeline position is a single stage or a
    fan-out group ([delphi.pipeline.Pipe]) of sibling stages applied to the
    same input. *)
Inductive position : Type :=
| Single (s : stage)
| Pipe (ss : list stage).

Definition members (p : position) : list stage :=
  match p with
  | Single s => [s]
  | Pipe ss => ss
  end.

(** Modelled from the spec: the value a position hands to the next one: the
    output of a single stage, or the outputs of all siblings of a group. *)
Definition position_output (p : position) (outs : list value) : value :=
  match p with
  | Single _ => default VNone (head outs)
  | Pipe _ => VList outs
  end.

(** ** The script *)

Section script.
Context `{!Collaborators} (args : Args).

Definition sae_model : string := model args.

(** The f-strings of lines 62 and 67. *)
Definition explanations_dir : string :=
  "results/explanations/" +:+ sae_model +:+ "/" +:+ experiment_name args.

Definition explanation_path (feature : string) : string :=
  "results/explanations/" +:+ sae_model +:+ "/" +:+ experiment_name args
    +:+ "/" +:+ feature +:+ ".txt".

(** The f-strings of lines 96, 100 and 101. *)
Definition scores_dir (score_dir : string) : string :=
  "results/scores/" +:+ sae_model +:+ "/" +:+ experiment_name args
    +:+ "/" +:+ score_dir.

Definition score_path (score_dir feature : string) : string :=
  "results/scores/" +:+ sae_model +:+ "/" +:+ experiment_name args
    +:+ "/" +:+ score_dir +:+ "/" +:+ feature +:+ ".txt".

(** Lines 60-65. *)
Definition explainer_postprocess (result : value) : M value :=
  let* record := getattr result "record" in
  let* feature := getattr record "feature" in
  let path := explanation_path (py_str feature) in
  open_w path;;;
  let* explanation := getattr result "explanation" in
  let* h := get_heap in
  match orjson_dumps h explanation with
  | None => raise JSONEncodeError
  | Some data => write path data;;; ret result
  end.

(** Lines 87-92. *)
Definition scorer_preprocess (result : value) : M value :=
  let* record := getattr result "record" in
  let* explanation := getattr result "explanation" in
  setattr record "explanation" explanation;;;
  let* random_examples := getattr record "random_examples" in
  setattr record "extra_examples" random_examples;;;
  ret record.

(** Lines 94-97; the function has no [return] statement. *)
Definition scorer_postprocess (score_dir : string) (result : value)
    : M value :=
  let* record := getattr result "record" in
  let* feature := getattr record "feature" in
  let path := score_path score_dir (py_str feature) in
  open_w path;;;
  let* score := getattr result "score" in
  let* h := get_heap in
  match orjson_dumps h score with
  | None => raise JSONEncodeError
  | Some data => write path data;;; ret VNone
  end.

(** Lines 54-57: the client is bound only for the two known
    quantisations. *)
Inductive client : Type :=
| Offline (name : string) (num_gpus : option nat).

Definition load_client : option client :=
  if bool_decide (quantization args = "awq") then
    Some (Offline "hugging-quants/Meta-Llama-3.1-70B-Instruct-AWQ-INT4" None)
  else if bool_decide (quantization args = "none") then
    Some (Offline "meta-llama/Meta-Llama-3.1-70B-Instruct" (Some 2))
  else None.

(** Use of the local variable [client]. *)
Definition use_client : M client :=
  match load_client with
  | Some c => ret c
  | None => raise (UnboundLocalError "client")
  end.

(** Modelled from the spec: a core stage function sends its input to the
    inference backend and wraps the answer in a stage result that refers
    back to the record; a permanent backend failure is raised. *)
Definition core (backend : heap → value → option value) (field : string)
    (input : value) : M value :=
  let* h := get_heap in
  match backend h input with
  | Some out => ret (VResult input field out)
  | None => raise BackendError
  end.

Definition DefaultExplainer (_ : client) := core explain "explanation".
Definition DetectionScorer (_ : client) := core detect "score".
Definition FuzzingScorer (_ : client) := core fuzz "score".

(** Lines 69-78. *)
Definition explainer_pipe (c : client) : stage :=
  process_wrapper (DefaultExplainer c) None (Some explainer_postprocess).

(** Lines 111-121. *)
Definition scorer_pipe (c : client) : position :=
  Pipe [ process_wrapper (DetectionScorer c) (Some scorer_preprocess)
           (Some (scorer_postprocess "detection"));
         process_wrapper (FuzzingScorer c) (Some scorer_preprocess)
           (Some (scorer_postprocess "fuzz")) ].

(** Lines 125-129, without the loader. *)
Definition pipeline (c : client) : list position :=
  [Single (explainer_pipe c); scorer_pipe c].

(** Lines 81-83, 104-105 and 107-108: one copy of the configuration. *)
Definition write_config (dir : string) : M unit :=
  let path := dir +:+ "/experiment_config.json" in
  open_w path;;; write path config_json.

(** Everything [main] does to the file system before the pipeline is
    run, in the order of the script: line 67, the use of [client] in line
    71, lines 81-83, 100, 101, 104-105 and 107-108. *)
Definition setup : M client :=
  makedirs explanations_dir true;;;
  let* c := use_client in
  write_config explanations_dir;;;
  makedirs (scores_dir "detection") true;;;
  makedirs (scores_dir "fuzz") true;;;
  write_config (scores_dir "detection");;;
  write_config (scores_dir "fuzz");;;
  ret c.

End script.

(** ** The bounded executor *)

(** What a run leaves behind for an observer, in chronological order:
    file-system effects and the events of the executor.  [i] is the position
    of an item in the sequence the loader produces, [k] a pipeline position
    and [j] a member of the stage group at that position. *)
Inductive event : Type :=
| Sys (e : fs_event)
| EvAdmit (i : nat)
| EvStart (i k j : nat)
| EvEnd (i k j : nat)
| EvFail (i k j : nat) (e : exn)
| EvComplete (i : nat)
| EvDrop (i : nat)
| EvAbort (e : exn).

(** Progress of one member of the stage group an item is currently at. *)
Inductive sibling : Type :=
| Pending
| Running (x : value)
| Done (out : value)
| Failed (e : exn).

(** An item driver: the item is at pipeline position [d_pos], which
    received [d_input]. *)
Record driver : Type := Driver {
  d_pos : nat;
  d_input : value;
  d_sibs : list sibling
}.

(** The pool maps the position of an item in the source to its driver. *)
Record exec_state : Type := ExecState {
  st_world : world;
  st_log : list event;
  st_admitted : nat;
  st_pool : gmap nat driver;
  st_completed : list nat;
  st_failed : list nat;
  st_fatal : option exn
}.

(** What the scheduler may do next. *)
Inductive action : Type :=
| Admit
| Begin (i j : nat)
| Finish (i j : nat)
| Advance (i : nat).

Definition is_running (sb : sibling) : bool :=
  match sb with Running _ => true | _ => false end.
Definition is_pending (sb : sibling) : bool :=
  match sb with Pending => true | _ => false end.
Definition is_failed (sb : sibling) : bool :=
  match sb with Failed _ => true | _ => false end.

Definition has_failed (d : driver) : bool := existsb is_failed (d_sibs d).

Definition outputs (d : driver) : list value :=
  omap (λ sb, match sb with Done out => Some out | _ => None end) (d_sibs d).

Definition set_sibling (d : driver) (j : nat) (sb : sibling) : driver :=
  Driver (d_pos d) (d_input d) (<[j := sb]> (d_sibs d)).

(** Modelled from the spec: the executor behind [delphi.pipeline.Pipeline]
    and its [run] method, which the script calls and does not define.  At
    most [N] item drivers are in flight; a free slot admits the next item of
    the source; an item visits the pipeline positions in order and the
    members of a fan-out group independently of each other; a failure of an
    item is caught and reported with its identity, the item is dropped and
    the others go on; an error of the persistence layer ends the run.

    The spec leaves open whether the members of a group that have not begun
    when a sibling fails are still run: [siblings_proceed] decides. *)
Section executor.
Context (N : nat) (pipeline : list position) (items : list value)
  (siblings_proceed : bool).

Definition width (k : nat) : nat :=
  from_option (λ p, length (members p)) 0 (pipeline !! k).

Definition stage_at (k j : nat) : option stage :=
  pipeline !! k ≫= λ p, members p !! j.

Definition fresh_driver (k : nat) (input : value) : driver :=
  Driver k input (replicate (width k) Pending).

Definition init_state (w : world) (log : list event) : exec_state :=
  ExecState w log 0 ∅ [] [] None.

Definition may_begin (d : driver) : bool :=
  siblings_proceed || negb (has_failed d).

(** Nothing is running for the item and nothing remains to be begun. *)
Definition settled (d : driver) : bool :=
  forallb (λ sb, negb (is_running sb)) (d_sibs d) &&
  (forallb (λ sb, negb (is_pending sb)) (d_sibs d) ||
   (has_failed d && negb siblings_proceed)).

(** What becomes of member [j] of the driver [d] of item [i] when a phase
    of its stage has been run with result [r]: the member moves on, or it
    has failed and the failure is reported for the item; an error of the
    persistence layer moreover aborts the run. *)
Definition settle (s : exec_state) (i : nat) (d : driver) (j : nat)
    (pre : list event) (r : result value * world * list fs_event)
    (ok : value → sibling) (post : list event) : exec_state :=
  match r with
  | (Ok x, w, t) =>
      ExecState w (st_log s ++ pre ++ (Sys <$> t) ++ post) (st_admitted s)
        (<[i := set_sibling d j (ok x)]> (st_pool s))
        (st_completed s) (st_failed s) (st_fatal s)
  | (Raise e, w, t) =>
      ExecState w
        (st_log s ++ pre ++ (Sys <$> t) ++ EvFail i (d_pos d) j e ::
           (if is_os_error e then [EvAbort e] else []))
        (st_admitted s)
        (<[i := set_sibling d j (Failed e)]> (st_pool s))
        (st_completed s) (st_failed s)
        (if is_os_error e then Some e else st_fatal s)
  end.

(** The part of a stage before the backend is called, and the part from
    the answer of the backend on. *)
Definition begin_stage (stg : stage) (input : value) : M value :=
  hook (st_pre stg) input.

Definition finish_stage (stg : stage) (x : value) : M value :=
  let* out := st_core stg x in
  hook (st_post stg) out.

Definition step (a : action) (s : exec_state) : option exec_state :=
  if st_fatal s is Some _ then None else
  match a with
  | Admit =>
      if decide (size (st_pool s) < N) then
        item ← items !! st_admitted s;
        Some (ExecState (st_world s)
                (st_log s ++ [EvAdmit (st_admitted s)])
                (S (st_admitted s))
                (<[st_admitted s := fresh_driver 0 item]> (st_pool s))
                (st_completed s) (st_failed s) (st_fatal s))
      else None
  | Begin i j =>
      d ← st_pool s !! i;
      sb ← d_sibs d !! j;
      stg ← stage_at (d_pos d) j;
      if is_pending sb && may_begin d then
        Some (settle s i d j [EvStart i (d_pos d) j]
                (begin_stage stg (d_input d) (st_world s)) Running [])
      else None
  | Finish i j =>
      d ← st_pool s !! i;
      sb ← d_sibs d !! j;
      stg ← stage_at (d_pos d) j;
      match sb with
      | Running x =>
          Some (settle s i d j [] (finish_stage stg x (st_world s)) Done
                  [EvEnd i (d_pos d) j])
      | _ => None
      end
  | Advance i =>
      d ← st_pool s !! i;
      if settled d then
        if has_failed d then
          Some (ExecState (st_world s) (st_log s ++ [EvDrop i])
                  (st_admitted s) (delete i (st_pool s))
                  (st_completed s) (st_failed s ++ [i]) (st_fatal s))
        else if decide (S (d_pos d) < length pipeline) then
          Some (ExecState (st_world s) (st_log s) (st_admitted s)
                  (<[i := fresh_driver (S (d_pos d))
                            (from_option
                               (λ p, position_output p (outputs d))
                               (d_input d) (pipeline !! d_pos d))]>
                     (st_pool s))
                  (st_completed s) (st_failed s) (st_fatal s))
        else
          Some (ExecState (st_world s) (st_log s ++ [EvComplete i])
                  (st_admitted s) (delete i (st_pool s))
                  (st_completed s ++ [i]) (st_failed s) (st_fatal s))
      else None
  end.

(** A run of the executor under a schedule; [None] when the schedule asks
    for an action that is not enabled. *)
Fixpoint exec (sched : list action) (s : exec_state) : option exec_state :=
  match sched with
  | [] => Some s
  | a :: sched' => step a s ≫= exec sched'
  end.

(** The source is exhausted and every admitted item has left the pool. *)
Definition run_finished (s : exec_state) : Prop :=
  st_fatal s = None ∧ st_pool s = ∅ ∧ length items ≤ st_admitted s.

Definition items_processed (s : exec_state) : nat :=
  length (st_completed s) + length (st_failed s).

Definition in_flight (s : exec_state) : nat := size (st_pool s).

End executor.

(** ** A whole run of the script *)

Inductive run_outcome : Type :=
| Crashed (e : exn) (w : world) (log : list event)
| Ran (s : exec_state).

Definition run_world (o : run_outcome) : world :=
  match o with
  | Crashed _ w _ => w
  | Ran s => st_world s
  end.

Definition run_log (o : run_outcome) : list event :=
  match o with
  | Crashed _ _ log => log
  | Ran s => st_log s
  end.

Section main.
Context `{!Collaborators} (args : Args) (items : list value)
  (siblings_proceed : bool).

(** Line 131: [pipeline.run(50)]. *)
Definition max_concurrent : nat := 50.

(** [main], from the creation of the directories on: the set-up, then the
    executor over the items of the loader under a schedule.  A set-up that
    raises ends the run before the executor is entered. *)
Definition main (sched : list action) (w : world) : option run_outcome :=
  match setup args w with
  | (Raise e, w', t) => Some (Crashed e w' (Sys <$> t))
  | (Ok c, w', t) =>
      Ran <$> exec max_concurrent (pipeline args c) items siblings_proceed
                sched (init_state w' (Sys <$> t))
  end.

End main.

(** ** A small concrete setting *)

(** Collaborators that always answer: features and payloads are strings. *)
Definition steady : Collaborators := {|
  py_str := λ v, match v with VStr s => s | _ => "feature" end;
  orjson_dumps := λ _ v, match v with VStr s => Some s | _ => None end;
  config_json := "{}";
  explain := λ _ _, Some (VStr "vowels");
  detect := λ _ _, Some (VStr "0.9");
  fuzz := λ _ _, Some (VStr "0.8")
|}.

(** Collaborators whose explainer fails for the record at location 2. *)
Definition flaky : Collaborators := {|
  py_str := λ v, match v with VStr s => s | _ => "feature" end;
  orjson_dumps := λ _ v, match v with VStr s => Some s | _ => None end;
  config_json := "{}";
  explain := λ _ v,
    match v with VRef 2%positive => None | _ => Some (VStr "vowels") end;
  detect := λ _ _, Some (VStr "0.9");
  fuzz := λ _ _, Some (VStr "0.8")
|}.

(** The defaults of the command line. *)
Definition default_args : Args :=
  {| model := "128k"; experiment_name := "default"; quantization := "awq" |}.

Definition sample_record (feature : string) : object :=
  {[ "feature" := VStr feature; "random_examples" := VList [VStr "text"] ]}.

Definition sample_heap : heap :=
  {[ 1%positive := sample_record "f0"; 2%positive := sample_record "f1";
     3%positive := sample_record "f2" ]}.

Definition sample_world : world := World sample_heap empty_fs.

Definition sample_items : list value :=
  [VRef 1%positive; VRef 2%positive; VRef 3%positive].

(** The steps of one item through the pipeline of the script. *)
Definition item_schedule (i : nat) : list action :=
  [Begin i 0; Finish i 0; Advance i;
   Begin i 0; Begin i 1; Finish i 1; Finish i 0; Advance i].

(** Three items, the second admitted while the first is in flight. *)
Definition sample_schedule : list action :=
  [Admit; Begin 0 0; Admit; Finish 0 0; Begin 1 0; Advance 0;
   Begin 0 1; Begin 0 0; Finish 1 0; Finish 0 1; Advance 1; Finish 0 0;
   Begin 1 0; Advance 0; Admit; Begin 1 1; Finish 1 1; Finish 1 0;
   Advance 1] ++ item_schedule 2.

(** The same run when the explainer fails for the second item. *)
Definition flaky_schedule : list action :=
  [Admit; Begin 0 0; Admit; Finish 0 0; Begin 1 0; Advance 0;
   Begin 0 1; Begin 0 0; Finish 1 0; Finish 0 1; Advance 1; Finish 0 0;
   Advance 0; Admit] ++ item_schedule 2.

(** The client that the default arguments select. *)
Definition sample_client : client :=
  Offline "hugging-quants/Meta-Llama-3.1-70B-Instruct-AWQ-INT4" None.

(** The state in which the executor starts after the set-up. *)
Definition sample_start `{!Collaborators} : exec_state :=
  init_state (after (setup default_args sample_world))
    (Sys <$> effects (setup default_args sample_world)).

(** * Properties *)

(** ** Invariants of the executor *)

Definition is_sys (e : event) : bool :=
  match e with Sys _ => true | _ => false end.

(** The items admitted, in the order of their admission. *)
Definition admissions (log : list event) : list nat :=
  omap (λ e, match e with EvAdmit i => Some i | _ => None end) log.

(** The items that left the executor, in the order of their leaving. *)
Definition completions (log : list event) : list nat :=
  omap (λ e, match e with EvComplete i => Some i | _ => None end) log.
Definition drops (log : list event) : list nat :=
  omap (λ e, match e with EvDrop i => Some i | _ => None end) log.

(** The events of the executor itself. *)
Definition exec_events (log : list event) : list event :=
  filter (λ e, is_sys e = false) log.

(** ** The steps of the executor as a relation *)

Section transitions.
Context (N : nat) (pipeline : list position) (items : list value)
  (siblings_proceed : bool).


Inductive transition (s : exec_state) : action → exec_state → Prop :=
| T_admit item :
    st_fatal s = None →
    size (st_pool s) < N →
    items !! st_admitted s = Some item →
    transition s Admit
      (ExecState (st_world s) (st_log s ++ [EvAdmit (st_admitted s)])
         (S (st_admitted s))
         (<[st_admitted s := fresh_driver pipeline 0 item]> (st_pool s))
         (st_completed s) (st_failed s) (st_fatal s))
| T_begin i j d stg :
    st_fatal s = None →
    st_pool s !! i = Some d →
    d_sibs d !! j = Some Pending →
    stage_at pipeline (d_pos d) j = Some stg →
    may_begin siblings_proceed d = true →
    transition s (Begin i j)
      (settle s i d j [EvStart i (d_pos d) j]
         (begin_stage stg (d_input d) (st_world s)) Running [])
| T_finish i j d stg x :
    st_fatal s = None →
    st_pool s !! i = Some d →
    d_sibs d !! j = Some (Running x) →
    stage_at pipeline (d_pos d) j = Some stg →
    transition s (Finish i j)
      (settle s i d j [] (finish_stage stg x (st_world s)) Done
         [EvEnd i (d_pos d) j])
| T_drop i d :
    st_fatal s = None →
    st_pool s !! i = Some d →
    settled siblings_proceed d = true →
    has_failed d = true →
    transition s (Advance i)
      (ExecState (st_world s) (st_log s ++ [EvDrop i]) (st_admitted s)
         (delete i (st_pool s)) (st_completed s) (st_failed s ++ [i])
         (st_fatal s))
| T_next i d :
    st_fatal s = None →
    st_pool s !! i = Some d →
    settled siblings_proceed d = true →
    has_failed d = false →
    S (d_pos d) < length pipeline →
    transition s (Advance i)
      (ExecState (st_world s) (st_log s) (st_admitted s)
         (<[i := fresh_driver pipeline (S (d_pos d))
                   (from_option (λ p, position_output p (outputs d))
                      (d_input d) (pipeline !! d_pos d))]> (st_pool s))
         (st_completed s) (st_failed s) (st_fatal s))
| T_complete i d :
    st_fatal s = None →
    st_pool s !! i = Some d →
    settled siblings_proceed d = true →
    has_failed d = false →
    length pipeline ≤ S (d_pos d) →
    transition s (Advance i)
      (ExecState (st_world s) (st_log s ++ [EvComplete i]) (st_admitted s)
         (delete i (st_pool s)) (st_completed s ++ [i]) (st_failed s)
         (st_fatal s)).

Lemma step_transition a s s' :
  step N pipeline items siblings_proceed a s = Some s' ↔ transition s a s'.
Proof.
  split.
  - unfold step. destruct (st_fatal s) eqn:Hf; [done|].
    destruct a as [|i j|i j|i]; intros Hs.
    + case_decide; [|done].
      destruct (items !! st_admitted s) eqn:Hi; simplify_eq/=.
      rewrite <- Hf. by constructor.
    + destruct (st_pool s !! i) as [d|] eqn:Hd; simplify_eq/=.
      destruct (d_sibs d !! j) as [sb|] eqn:Hsb; simplify_eq/=.
      destruct (stage_at pipeline (d_pos d) j) as [stg|] eqn:Hst;
        simplify_eq/=.
      destruct sb; simplify_eq/=.
      destruct (may_begin siblings_proceed d) eqn:Hm;
        simplify_eq/=.
      by econstructor.
    + destruct (st_pool s !! i) as [d|] eqn:Hd; simplify_eq/=.
      destruct (d_sibs d !! j) as [sb|] eqn:Hsb; simplify_eq/=.
      destruct (stage_at pipeline (d_pos d) j) as [stg|] eqn:Hst;
        simplify_eq/=.
      destruct sb; simplify_eq/=.
      by econstructor.
    + destruct (st_pool s !! i) as [d|] eqn:Hd; simplify_eq/=.
      destruct (settled siblings_proceed d) eqn:Hse;
        simplify_eq/=.
      destruct (has_failed d) eqn:Hh; simplify_eq/=.
      * rewrite <- Hf. by econstructor.
      * case_decide; simplify_eq/=.
        -- rewrite <- Hf. by econstructor.
        -- rewrite <- Hf. econstructor; eauto with lia.
  - intros Ht. unfold step.
    destruct Ht as [item Hf ? Hi|i j d stg Hf Hd Hsb Hst Hm
                   |i j d stg x Hf Hd Hsb Hst|i d Hf Hd Hse Hh
                   |i d Hf Hd Hse Hh ?|i d Hf Hd Hse Hh ?];
      rewrite Hf; simpl.
    + rewrite decide_True by done. by rewrite Hi.
    + rewrite Hd; simpl. rewrite Hsb; simpl. rewrite Hst; simpl.
      by rewrite Hm.
    + rewrite Hd; simpl. rewrite Hsb; simpl. by rewrite Hst.
    + rewrite Hd; simpl. by rewrite Hse, Hh.
    + rewrite Hd; simpl. rewrite Hse, Hh. by rewrite decide_True.
    + rewrite Hd; simpl. rewrite Hse, Hh. by rewrite decide_False by lia.
Qed.

End transitions.

(** ** Reading the log *)

Lemma admissions_app l1 l2 :
  admissions (l1 ++ l2) = admissions l1 ++ admissions l2.
Proof. apply omap_app. Qed.
Lemma completions_app l1 l2 :
  completions (l1 ++ l2) = completions l1 ++ completions l2.
Proof. apply omap_app. Qed.
Lemma drops_app l1 l2 : drops (l1 ++ l2) = drops l1 ++ drops l2.
Proof. apply omap_app. Qed.
Lemma exec_events_app l1 l2 :
  exec_events (l1 ++ l2) = exec_events l1 ++ exec_events l2.
Proof. apply filter_app. Qed.

Lemma admissions_sys (t : list fs_event) : admissions (Sys <$> t) = [].
Proof. by induction t. Qed.
Lemma completions_sys (t : list fs_event) : completions (Sys <$> t) = [].
Proof. by induction t. Qed.
Lemma drops_sys (t : list fs_event) : drops (Sys <$> t) = [].
Proof. by induction t. Qed.
Lemma exec_events_sys (t : list fs_event) : exec_events (Sys <$> t) = [].
Proof. by induction t. Qed.

Lemma elem_of_sys e (t : list fs_event) : e ∈ Sys <$> t → is_sys e = true.
Proof. intros (x & -> & _)%list_elem_of_fmap. done. Qed.

Lemma elem_of_admissions i log : i ∈ admissions log ↔ EvAdmit i ∈ log.
Proof.
  unfold admissions. rewrite list_elem_of_omap. split.
  - intros (e & He & Hi). destruct e; simplify_eq. done.
  - intros He. by exists (EvAdmit i).
Qed.
Lemma elem_of_completions i log : i ∈ completions log ↔ EvComplete i ∈ log.
Proof.
  unfold completions. rewrite list_elem_of_omap. split.
  - intros (e & He & Hi). destruct e; simplify_eq. done.
  - intros He. by exists (EvComplete i).
Qed.
Lemma elem_of_drops i log : i ∈ drops log ↔ EvDrop i ∈ log.
Proof.
  unfold drops. rewrite list_elem_of_omap. split.
  - intros (e & He & Hi). destruct e; simplify_eq. done.
  - intros He. by exists (EvDrop i).
Qed.

Lemma elem_of_exec_events e log :
  e ∈ exec_events log ↔ e ∈ log ∧ is_sys e = false.
Proof. unfold exec_events. rewrite list_elem_of_filter. tauto. Qed.

(** Membership of an executor event in a log that has grown. *)
Ltac in_log :=
  repeat match goal with
  | H : _ ∈ _ ++ _ |- _ => apply elem_of_app in H as [H|H]
  | H : _ ∈ _ :: _ |- _ => apply elem_of_cons in H as [H|H]
  | H : _ ∈ [] |- _ => by apply elem_of_nil in H
  | H : _ ∈ Sys <$> _ |- _ =>
      apply elem_of_sys in H; simpl in H; try congruence
  | H : _ ∈ (if ?b then _ else _) |- _ => destruct b
  end; simplify_eq.

Lemma exec_events_cons e log :
  exec_events (e :: log) =
    if is_sys e then exec_events log else e :: exec_events log.
Proof. unfold exec_events. rewrite filter_cons. by destruct e. Qed.

Lemma exec_events_nil : exec_events [] = [].
Proof. done. Qed.

Lemma nodup_grow log new :
  NoDup (exec_events log) →
  NoDup (exec_events new) →
  (∀ e, e ∈ new → is_sys e = false → e ∉ log) →
  NoDup (exec_events (log ++ new)).
Proof.
  intros Hl Hn Hd. rewrite exec_events_app. apply NoDup_app.
  split; [done|]. split; [|done].
  intros e [He _]%elem_of_exec_events [Hin Hs]%elem_of_exec_events.
  by eapply Hd.
Qed.

(** ** Shape of the executor state *)

Ltac settle_cases r :=
  unfold settle; destruct r as [[[?x|?e] ?w] ?t]; simpl.

Section executor_invariants.
Context (N : nat) (pipeline : list position) (items : list value)
  (siblings_proceed : bool).

Local Abbreviation xstep := (step N pipeline items siblings_proceed).
Local Abbreviation xexec := (exec N pipeline items siblings_proceed).
Local Abbreviation trans :=
  (transition N pipeline items siblings_proceed).
Local Abbreviation wd := (width pipeline).

(** The bound on the pool and the partition of the admitted items into
    those in flight and those that left. *)
Record wf (s : exec_state) : Prop := {
  wf_bound : size (st_pool s) ≤ N;
  wf_admitted : st_admitted s ≤ length items;
  wf_pool : ∀ i, is_Some (st_pool s !! i) →
    i < st_admitted s ∧ i ∉ st_completed s ++ st_failed s;
  wf_left : NoDup (st_completed s ++ st_failed s);
  wf_cover : ∀ i, i < st_admitted s →
    is_Some (st_pool s !! i) ∨ i ∈ st_completed s ++ st_failed s;
  wf_left_lt : ∀ i, i ∈ st_completed s ++ st_failed s → i < st_admitted s;
  wf_sibs : ∀ i d, st_pool s !! i = Some d →
    length (d_sibs d) = wd (d_pos d)
}.

Lemma wf_init w log : wf (init_state w log).
Proof.
  split; simpl; try (intros; lia).
  - rewrite map_size_empty. lia.
  - intros i [d Hd]. by rewrite lookup_empty in Hd.
  - constructor.
  - intros i Hi. by apply elem_of_nil in Hi.
  - intros i d Hd. by rewrite lookup_empty in Hd.
Qed.

Lemma settle_shape s i d j pre r ok post :
  let s' := settle s i d j pre r ok post in
  st_admitted s' = st_admitted s ∧
  st_completed s' = st_completed s ∧
  st_failed s' = st_failed s ∧
  ∃ sb, st_pool s' = <[i := set_sibling d j sb]> (st_pool s).
Proof. settle_cases r; eauto 10. Qed.

Lemma fresh_driver_length k x :
  length (d_sibs (fresh_driver pipeline k x)) = wd k.
Proof. simpl. by rewrite length_replicate. Qed.

Lemma wf_update s s' i d d' :
  wf s →
  st_pool s !! i = Some d →
  st_pool s' = <[i := d']> (st_pool s) →
  length (d_sibs d') = wd (d_pos d') →
  st_admitted s' = st_admitted s →
  st_completed s' = st_completed s →
  st_failed s' = st_failed s →
  wf s'.
Proof.
  intros [] Hd Hp Hlen Ha Hc Hf.
  split; rewrite ?Hp, ?Ha, ?Hc, ?Hf; try done.
  - by rewrite map_size_insert_Some.
  - intros i' Hi'. apply wf_pool0.
    destruct (decide (i = i')) as [<-|]; [by eauto|].
    by rewrite lookup_insert_ne in Hi'.
  - intros i' Hi'. destruct (wf_cover0 i' Hi') as [?|?]; [|by right].
    left. destruct (decide (i = i')) as [<-|].
    + rewrite lookup_insert_eq. eauto.
    + by rewrite lookup_insert_ne.
  - intros i' d0. destruct (decide (i = i')) as [<-|].
    + rewrite lookup_insert_eq. by intros [= <-].
    + rewrite lookup_insert_ne by done. apply wf_sibs0.
Qed.

Lemma wf_leave s s' i d :
  wf s →
  st_pool s !! i = Some d →
  st_pool s' = delete i (st_pool s) →
  st_admitted s' = st_admitted s →
  st_completed s' ++ st_failed s' ≡ₚ i :: st_completed s ++ st_failed s →
  wf s'.
Proof.
  intros [] Hd Hp Ha Hperm.
  assert (i ∉ st_completed s ++ st_failed s) as Hni
    by (apply wf_pool0; eauto).
  split; rewrite ?Hp, ?Ha; try done.
  - rewrite map_size_delete_Some by eauto. lia.
  - intros i' [d' Hi']. apply lookup_delete_Some in Hi' as [Hne Hi'].
    destruct (wf_pool0 i') as [? ?]; [by eauto|].
    split; [done|]. rewrite Hperm, not_elem_of_cons. done.
  - rewrite Hperm. by constructor.
  - intros i' Hi'. rewrite Hperm. destruct (decide (i = i')) as [<-|].
    + right. by left.
    + destruct (wf_cover0 i' Hi') as [[d' ?]|?].
      * left. exists d'. by rewrite lookup_delete_ne.
      * right. by right.
  - intros i'. rewrite Hperm. intros [->|?]%elem_of_cons; [|by eauto].
    apply wf_pool0. eauto.
  - intros i' d' Hi'. apply lookup_delete_Some in Hi' as [_ Hi'].
    by eapply wf_sibs0.
Qed.

Lemma transition_wf s a s' : wf s → trans s a s' → wf s'.
Proof.
  intros Hwf Ht.
  destruct Ht as [item Hf Hsz Hi|i j d stg Hf Hd Hsb Hst Hm
                 |i j d stg x Hf Hd Hsb Hst|i d Hf Hd Hse Hh
                 |i d Hf Hd Hse Hh Hlt|i d Hf Hd Hse Hh Hge].
  - destruct Hwf.
    assert (st_pool s !! st_admitted s = None) as Hnone.
    { destruct (st_pool s !! st_admitted s) eqn:E; [|done].
      destruct (wf_pool0 (st_admitted s)); [by eauto|lia]. }
    split; simpl.
    + rewrite map_size_insert_None by done. lia.
    + apply lookup_lt_Some in Hi. lia.
    + intros i [d Hd]. destruct (decide (st_admitted s = i)) as [<-|].
      * split; [lia|]. intros Hin. apply wf_left_lt0 in Hin. lia.
      * rewrite lookup_insert_ne in Hd by done.
        destruct (wf_pool0 i); [by eauto|]. split; [lia|done].
    + done.
    + intros i Hi'. destruct (decide (st_admitted s = i)) as [<-|].
      * left. rewrite lookup_insert_eq. eauto.
      * rewrite lookup_insert_ne by done. apply wf_cover0. lia.
    + intros i Hi'. apply wf_left_lt0 in Hi'. lia.
    + intros i d. destruct (decide (st_admitted s = i)) as [<-|].
      * rewrite lookup_insert_eq. intros [= <-].
        apply fresh_driver_length.
      * rewrite lookup_insert_ne by done. apply wf_sibs0.
  - destruct (settle_shape s i d j [EvStart i (d_pos d) j]
      (begin_stage stg (d_input d) (st_world s)) Running [])
      as (Ha & Hc & Hfl & [sb' Hp]).
    eapply wf_update; eauto. simpl. rewrite length_insert.
    by eapply wf_sibs.
  - destruct (settle_shape s i d j []
      (finish_stage stg x (st_world s)) Done [EvEnd i (d_pos d) j])
      as (Ha & Hc & Hfl & [sb' Hp]).
    eapply wf_update; eauto. simpl. rewrite length_insert.
    by eapply wf_sibs.
  - eapply wf_leave; eauto; simpl.
    rewrite app_assoc. by rewrite <- Permutation_cons_append.
  - eapply wf_update; eauto. apply fresh_driver_length.
  - eapply wf_leave; eauto; simpl.
    rewrite <- app_assoc. simpl. by rewrite <- Permutation_middle.
Qed.

(** *** The log against the drivers *)

(** What must have happened before an event of the executor. *)
Definition requires (past : list event) (e : event) : Prop :=
  match e with
  | EvStart i k j =>
      EvAdmit i ∈ past ∧
      (EvComplete i ∉ past) ∧ (EvDrop i ∉ past) ∧
      (∀ k' j', k' < k → j' < wd k' → EvEnd i k' j' ∈ past) ∧
      (∀ k' j' e', EvFail i k' j' e' ∈ past →
         k' = k ∧ siblings_proceed = true)
  | EvEnd i k j => EvStart i k j ∈ past
  | EvFail i k j _ => EvStart i k j ∈ past
  | EvComplete i =>
      ∀ k j, k < length pipeline → j < wd k → EvEnd i k j ∈ past
  | EvDrop i => ∃ k j e, EvFail i k j e ∈ past
  | _ => True
  end.

Fixpoint ordered_from (past future : list event) : Prop :=
  match future with
  | [] => True
  | e :: future' => requires past e ∧ ordered_from (past ++ [e]) future'
  end.

(** Every event of the log has its requirements in the log before it. *)
Definition ordered (log : list event) : Prop := ordered_from [] log.

Lemma ordered_from_app past l1 l2 :
  ordered_from past (l1 ++ l2) ↔
  ordered_from past l1 ∧ ordered_from (past ++ l1) l2.
Proof.
  revert past. induction l1 as [|e l1 IH]; intros past; simpl.
  - rewrite app_nil_r. tauto.
  - rewrite IH, <- app_assoc. simpl. tauto.
Qed.

Lemma ordered_from_sys past (t : list fs_event) :
  ordered_from past (Sys <$> t).
Proof. revert past. induction t as [|e t IH]; intros past; simpl; auto. Qed.

Lemma ordered_split log t1 e t2 :
  ordered log → log = t1 ++ e :: t2 → requires t1 e.
Proof.
  unfold ordered. intros Ho ->.
  apply ordered_from_app in Ho as [_ Ho]. simpl in Ho. tauto.
Qed.

Lemma ordered_grow log new :
  ordered log → ordered_from log new → ordered (log ++ new).
Proof. intros. by apply ordered_from_app. Qed.

(** What the log says about item [i], against the driver [od] the pool
    holds for it: an event that is in the log bounds the progress of the
    driver from below, and the progress of the driver is in the log. *)
Record item_inv (log : list event) (admitted i : nat) (od : option driver)
    : Prop := {
  ii_start : ∀ k j, EvStart i k j ∈ log →
    i < admitted ∧
    ∀ d, od = Some d →
      k < d_pos d ∨
      (k = d_pos d ∧ ∃ sb, d_sibs d !! j = Some sb ∧ is_pending sb = false);
  ii_end : ∀ k j, EvEnd i k j ∈ log →
    i < admitted ∧
    ∀ d, od = Some d →
      k < d_pos d ∨ (k = d_pos d ∧ ∃ out, d_sibs d !! j = Some (Done out));
  ii_fail : ∀ k j e, EvFail i k j e ∈ log →
    i < admitted ∧
    ∀ d, od = Some d → k = d_pos d ∧ d_sibs d !! j = Some (Failed e);
  ii_running : ∀ d j x, od = Some d →
    d_sibs d !! j = Some (Running x) → EvStart i (d_pos d) j ∈ log;
  ii_done : ∀ d j out, od = Some d →
    d_sibs d !! j = Some (Done out) → EvEnd i (d_pos d) j ∈ log;
  ii_failed : ∀ d j e, od = Some d →
    d_sibs d !! j = Some (Failed e) → EvFail i (d_pos d) j e ∈ log;
  ii_past : ∀ d k j, od = Some d →
    k < d_pos d → j < wd k → EvEnd i k j ∈ log
}.

Record log_inv (s : exec_state) : Prop := {
  li_admissions : admissions (st_log s) = seq 0 (st_admitted s);
  li_completions : completions (st_log s) = st_completed s;
  li_drops : drops (st_log s) = st_failed s;
  li_item : ∀ i,
    item_inv (st_log s) (st_admitted s) i (st_pool s !! i);
  li_abort : ∀ e, EvAbort e ∈ st_log s → st_fatal s = Some e;
  li_nodup : NoDup (exec_events (st_log s));
  li_ordered : ordered (st_log s)
}.

Lemma log_inv_init w (t : list fs_event) :
  log_inv (init_state w (Sys <$> t)).
Proof.
  split; cbn [st_log st_admitted st_pool st_completed st_failed init_state].
  - apply admissions_sys.
  - apply completions_sys.
  - apply drops_sys.
  - intros i. rewrite lookup_empty.
    split; try done; intros; by in_log.
  - intros e H. by in_log.
  - rewrite exec_events_sys. constructor.
  - apply ordered_from_sys.
Qed.

(** The item an event of the executor is about. *)
Definition about (i : nat) (e : event) : Prop :=
  match e with
  | Sys _ | EvAbort _ => True
  | EvAdmit i' | EvStart i' _ _ | EvEnd i' _ _ | EvFail i' _ _ _
  | EvComplete i' | EvDrop i' => i' = i
  end.

(** Events about an item leave the invariant of the other items alone. *)
Lemma item_inv_frame log new admitted admitted' i i' od :
  item_inv log admitted i' od →
  Forall (about i) new →
  i ≠ i' →
  admitted ≤ admitted' →
  item_inv (log ++ new) admitted' i' od.
Proof.
  intros [] Hnew Hne Hle. rewrite Forall_forall in Hnew.
  assert (∀ e, e ∈ log ++ new → about i' e → is_sys e = false →
               (∀ x, e ≠ EvAbort x) → e ∈ log) as Hold.
  { intros e [?|Hin]%elem_of_app Hab Hsys Hx; [done|].
    apply Hnew in Hin. destruct e; simpl in *; congruence. }
  split.
  - intros k j H. apply Hold in H; [|done..].
    destruct (ii_start0 k j H). split; [lia|done].
  - intros k j H. apply Hold in H; [|done..].
    destruct (ii_end0 k j H). split; [lia|done].
  - intros k j e H. apply Hold in H; [|done..].
    destruct (ii_fail0 k j e H). split; [lia|done].
  - intros. apply elem_of_app. left. eauto.
  - intros. apply elem_of_app. left. eauto.
  - intros. apply elem_of_app. left. eauto.
  - intros. apply elem_of_app. left. eauto.
Qed.

Lemma lookup_set_sibling d j sb sb0 j' :
  d_sibs d !! j = Some sb0 →
  d_sibs (set_sibling d j sb) !! j' =
    if decide (j = j') then Some sb else d_sibs d !! j'.
Proof.
  intros Hj. simpl. case_decide as Hd.
  - subst. apply list_lookup_insert_eq. by eapply lookup_lt_Some.
  - by apply list_lookup_insert_ne.
Qed.

Lemma settled_all_done d j :
  settled siblings_proceed d = true →
  has_failed d = false →
  j < length (d_sibs d) →
  ∃ out, d_sibs d !! j = Some (Done out).
Proof.
  unfold settled, has_failed. intros Hs Hf Hj.
  rewrite Hf in Hs. simpl in Hs. rewrite orb_false_r in Hs.
  apply andb_true_iff in Hs as [Hr Hp].
  rewrite forallb_forall in Hr, Hp.
  destruct (lookup_lt_is_Some_2 _ _ Hj) as [sb Hsb].
  assert (In sb (d_sibs d)) as Hin
    by (apply list_elem_of_In; by eapply list_elem_of_lookup_2).
  specialize (Hr _ Hin). specialize (Hp _ Hin).
  destruct sb as [|x|out|e]; simpl in *; try done.
  - eauto.
  - assert (existsb is_failed (d_sibs d) = true); [|congruence].
    apply existsb_exists. by exists (Failed e).
Qed.

Lemma has_failed_lookup d :
  has_failed d = true → ∃ j e, d_sibs d !! j = Some (Failed e).
Proof.
  unfold has_failed. intros (sb & Hin & Hsb)%existsb_exists.
  apply list_elem_of_In, list_elem_of_lookup in Hin as [j Hj].
  destruct sb; try done. eauto.
Qed.

Lemma lookup_failed_has_failed d j e :
  d_sibs d !! j = Some (Failed e) → has_failed d = true.
Proof.
  intros Hj. apply existsb_exists. exists (Failed e). split; [|done].
  apply list_elem_of_In. by eapply list_elem_of_lookup_2.
Qed.

Lemma item_inv_admit log admitted item :
  item_inv log admitted admitted None →
  item_inv (log ++ [EvAdmit admitted]) (S admitted) admitted
    (Some (fresh_driver pipeline 0 item)).
Proof.
  intros [].
  split; try (intros; in_log;
    match goal with
    | H : _ ∈ log |- _ =>
        first [apply ii_start0 in H|apply ii_end0 in H|apply ii_fail0 in H];
        lia
    end); intros; simplify_eq/=;
    try match goal with
    | H : replicate _ _ !! _ = Some _ |- _ =>
        by apply lookup_replicate in H as [? _]
    end.
  lia.
Qed.

(** A member of the group the item is at makes progress. *)
Lemma item_inv_member log new admitted i d j sb0 sb1 :
  item_inv log admitted i (Some d) →
  i < admitted →
  d_sibs d !! j = Some sb0 →
  (sb0 = Pending ∨ ∃ x, sb0 = Running x) →
  is_pending sb1 = false →
  (∀ x, sb1 = Running x → sb0 = Pending) →
  (∀ k' j', EvStart i k' j' ∈ new → k' = d_pos d ∧ j' = j) →
  (∀ k' j', EvEnd i k' j' ∈ new →
     k' = d_pos d ∧ j' = j ∧ ∃ out, sb1 = Done out) →
  (∀ k' j' e, EvFail i k' j' e ∈ new →
     k' = d_pos d ∧ j' = j ∧ sb1 = Failed e) →
  (sb0 = Pending → EvStart i (d_pos d) j ∈ new) →
  (∀ out, sb1 = Done out → EvEnd i (d_pos d) j ∈ new) →
  (∀ e, sb1 = Failed e → EvFail i (d_pos d) j e ∈ new) →
  item_inv (log ++ new) admitted i (Some (set_sibling d j sb1)).
Proof.
  intros [] Hi Hj Hact Hnp Hrun Hns Hne Hnf Hs Hd Hf.
  split.
  - intros k j' [H|H]%elem_of_app.
    + destruct (ii_start0 k j' H) as [? Hold]. split; [done|].
      intros d' [= <-]. cbn [d_pos set_sibling].
      destruct (Hold d eq_refl) as [?|(-> & sb & Hsb & ?)]; [by left|].
      right. split; [done|]. erewrite lookup_set_sibling by done.
      case_decide; subst; eauto.
    + destruct (Hns _ _ H) as [-> ->]. split; [done|].
      intros d' [= <-]. right. split; [done|].
      erewrite lookup_set_sibling by done.
      rewrite decide_True by done. eauto.
  - intros k j' [H|H]%elem_of_app.
    + destruct (ii_end0 k j' H) as [? Hold]. split; [done|].
      intros d' [= <-]. cbn [d_pos set_sibling].
      destruct (Hold d eq_refl) as [?|(-> & out & Hout)]; [by left|].
      right. split; [done|]. erewrite lookup_set_sibling by done.
      case_decide; subst; [|by eauto].
      destruct Hact as [->|[? ->]]; congruence.
    + destruct (Hne _ _ H) as (-> & -> & out & ->). split; [done|].
      intros d' [= <-]. right. split; [done|].
      erewrite lookup_set_sibling by done.
      rewrite decide_True by done. eauto.
  - intros k j' e [H|H]%elem_of_app.
    + destruct (ii_fail0 k j' e H) as [? Hold]. split; [done|].
      intros d' [= <-]. cbn [d_pos set_sibling].
      destruct (Hold d eq_refl) as (-> & Hfl).
      split; [done|]. erewrite lookup_set_sibling by done.
      case_decide; subst; [|done].
      destruct Hact as [->|[? ->]]; congruence.
    + destruct (Hnf _ _ _ H) as (-> & -> & ->). split; [done|].
      intros d' [= <-]. split; [done|].
      erewrite lookup_set_sibling by done.
      by rewrite decide_True.
  - intros d' j' x [= <-]. erewrite lookup_set_sibling by done.
    cbn [d_pos set_sibling].
    case_decide; subst; intros Hx; apply elem_of_app;
      [injection Hx as ->; right; eauto|left; eauto].
  - intros d' j' out [= <-]. erewrite lookup_set_sibling by done.
    cbn [d_pos set_sibling].
    case_decide; subst; intros Hx; apply elem_of_app;
      [injection Hx as ->; right; eauto|left; eauto].
  - intros d' j' e [= <-]. erewrite lookup_set_sibling by done.
    cbn [d_pos set_sibling].
    case_decide; subst; intros Hx; apply elem_of_app;
      [injection Hx as ->; right; eauto|left; eauto].
  - intros d' k j' [= <-]. cbn [d_pos set_sibling]. intros.
    apply elem_of_app. left. eauto.
Qed.

Lemma item_inv_leave log admitted i d e :
  item_inv log admitted i (Some d) →
  e = EvDrop i ∨ e = EvComplete i →
  item_inv (log ++ [e]) admitted i None.
Proof.
  intros [] He.
  assert (∀ e', e' ∈ log ++ [e] → e' ≠ EvDrop i → e' ≠ EvComplete i →
                e' ∈ log) as Hold.
  { intros e' [?|Hin]%elem_of_app Hn1 Hn2; [done|].
    apply list_elem_of_singleton in Hin. by destruct He; subst. }
  split; try done.
  - intros k j H%Hold; [|done..].
    destruct (ii_start0 _ _ H) as [? _]. done.
  - intros k j H%Hold; [|done..].
    destruct (ii_end0 _ _ H) as [? _]. done.
  - intros k j e' H%Hold; [|done..].
    destruct (ii_fail0 _ _ _ H) as [? _]. done.
Qed.

Lemma item_inv_next log admitted i d input :
  item_inv log admitted i (Some d) →
  settled siblings_proceed d = true →
  has_failed d = false →
  length (d_sibs d) = wd (d_pos d) →
  item_inv log admitted i
    (Some (fresh_driver pipeline (S (d_pos d)) input)).
Proof.
  intros [] Hse Hh Hlen.
  split; intros; simplify_eq/=;
    try match goal with
    | H : replicate _ _ !! _ = Some _ |- _ =>
        by apply lookup_replicate in H as [? _]
    end.
  - destruct (ii_start0 _ _ H) as [? Hold]. split; [done|].
    intros ? [= <-]. simpl. left.
    destruct (Hold d eq_refl) as [?|[-> _]]; lia.
  - destruct (ii_end0 _ _ H) as [? Hold]. split; [done|].
    intros ? [= <-]. simpl. left.
    destruct (Hold d eq_refl) as [?|[-> _]]; lia.
  - destruct (ii_fail0 _ _ _ H) as [? Hold]. split; [done|].
    intros ? [= <-]. destruct (Hold d eq_refl) as [-> Hfl].
    apply lookup_failed_has_failed in Hfl. congruence.
  - destruct (decide (k = d_pos d)) as [->|]; [|apply (ii_past0 d); [done|lia|done]].
    destruct (settled_all_done d j) as [out Hout]; [done|done|lia|].
    by eapply ii_done0.
Qed.

Lemma admitted_in_log s i :
  log_inv s → i < st_admitted s → EvAdmit i ∈ st_log s.
Proof.
  intros Hli Hi. apply elem_of_admissions.
  rewrite (li_admissions s Hli). apply elem_of_seq. lia.
Qed.

Lemma in_pool_not_left s i d :
  wf s → log_inv s → st_pool s !! i = Some d →
  i < st_admitted s ∧ (EvComplete i ∉ st_log s) ∧ (EvDrop i ∉ st_log s).
Proof.
  intros Hwf Hli Hd.
  destruct (wf_pool s Hwf i) as [Hlt Hni]; [by eauto|].
  rewrite not_elem_of_app in Hni. destruct Hni as [Hc Hf].
  split; [done|]. split.
  - intros H%elem_of_completions. by rewrite (li_completions s Hli) in H.
  - intros H%elem_of_drops. by rewrite (li_drops s Hli) in H.
Qed.

(** A phase of a stage has been run for member [j] of item [i]. *)
Lemma settle_log_inv s i d j sb0 pre r ok post :
  wf s → log_inv s →
  st_fatal s = None →
  st_pool s !! i = Some d →
  d_sibs d !! j = Some sb0 →
  (sb0 = Pending ∧ pre = [EvStart i (d_pos d) j] ∧ post = [] ∧
   ok = Running ∧ may_begin siblings_proceed d = true) ∨
  (∃ x, sb0 = Running x ∧ pre = [] ∧ post = [EvEnd i (d_pos d) j] ∧
        ok = Done) →
  log_inv (settle s i d j pre r ok post).
Proof.
  intros Hwf Hli Hfat Hd Hj Hkind.
  destruct (in_pool_not_left s i d Hwf Hli Hd) as (Hlt & Hnc & Hnd).
  pose proof (li_item s Hli i) as Hii. rewrite Hd in Hii.
  assert (EvStart i (d_pos d) j ∈ st_log s → sb0 ≠ Pending) as Hstart.
  { intros H ->. destruct (ii_start _ _ _ _ Hii _ _ H) as [_ Hold].
    destruct (Hold d eq_refl) as [?|(_ & sb & Hsb & Hp)]; [lia|].
    rewrite Hj in Hsb. by simplify_eq. }
  assert (EvEnd i (d_pos d) j ∈ st_log s → ∃ out, sb0 = Done out) as Hend.
  { intros H. destruct (ii_end _ _ _ _ Hii _ _ H) as [_ Hold].
    destruct (Hold d eq_refl) as [?|(_ & out & Hout)]; [lia|].
    rewrite Hj in Hout. simplify_eq. eauto. }
  assert (∀ e, EvFail i (d_pos d) j e ∈ st_log s → sb0 = Failed e) as Hfail.
  { intros e H. destruct (ii_fail _ _ _ _ Hii _ _ _ H) as [_ Hold].
    destruct (Hold d eq_refl) as [_ Hfl]. rewrite Hj in Hfl.
    by simplify_eq. }
  assert (∀ e, EvAbort e ∉ st_log s) as Habort.
  { intros e H%(li_abort s Hli). congruence. }
  assert (requires (st_log s) (EvStart i (d_pos d) j) ∨ sb0 ≠ Pending)
    as Hreq.
  { destruct Hkind as [(-> & _ & _ & _ & Hm)|[x (-> & _)]]; [left|by right].
    split; [by apply admitted_in_log|]. split; [done|]. split; [done|].
    split.
    - intros k' j' ? ?. by eapply (ii_past _ _ _ _ Hii).
    - intros k' j' e' H. destruct (ii_fail _ _ _ _ Hii _ _ _ H) as [_ Hold].
      destruct (Hold d eq_refl) as [-> Hfl]. split; [done|].
      apply lookup_failed_has_failed in Hfl.
      unfold may_begin in Hm. rewrite Hfl in Hm. simpl in Hm.
      by rewrite orb_false_r in Hm. }
  assert (∀ x, sb0 = Running x → EvStart i (d_pos d) j ∈ st_log s) as Hrun.
  { intros x ->. by eapply (ii_running _ _ _ _ Hii). }
  destruct r as [[[x|e] w] t]; cbn [settle].
  - (* the phase returns *)
    split; cbn [st_log st_admitted st_pool st_completed st_failed st_fatal].
    + rewrite !admissions_app, admissions_sys, (li_admissions s Hli).
      destruct Hkind as [(_ & -> & -> & _)|[? (_ & -> & -> & _)]];
        simpl; by rewrite ?app_nil_r.
    + rewrite !completions_app, completions_sys, (li_completions s Hli).
      destruct Hkind as [(_ & -> & -> & _)|[? (_ & -> & -> & _)]];
        simpl; by rewrite ?app_nil_r.
    + rewrite !drops_app, drops_sys, (li_drops s Hli).
      destruct Hkind as [(_ & -> & -> & _)|[? (_ & -> & -> & _)]];
        simpl; by rewrite ?app_nil_r.
    + intros i'. destruct (decide (i = i')) as [<-|Hne].
      * rewrite lookup_insert_eq.
        eapply item_inv_member; eauto;
          destruct Hkind as [(-> & -> & -> & -> & _)|[? (-> & -> & -> & ->)]];
          try done; eauto; intros; in_log; eauto;
          rewrite ?elem_of_app, ?elem_of_cons; eauto.
      * rewrite lookup_insert_ne by done.
        eapply item_inv_frame; [apply (li_item s Hli)| |done|done].
        apply Forall_forall. intros e' He'.
        destruct Hkind as [(-> & -> & -> & -> & _)|[? (-> & -> & -> & ->)]];
          in_log; try done.
        all: by destruct e'.
    + intros e H. exfalso. eapply Habort.
      destruct Hkind as [(-> & -> & -> & -> & _)|[? (-> & -> & -> & ->)]];
        in_log; eauto.
    + rewrite !exec_events_app, exec_events_sys.
      destruct Hkind as [(-> & -> & -> & -> & _)|[? (-> & -> & -> & ->)]];
        simpl; rewrite ?app_nil_r.
      * apply NoDup_app. split; [apply (li_nodup s Hli)|]. split.
        -- intros e' [He' _]%elem_of_exec_events
             ->%list_elem_of_singleton. by apply Hstart in He'.
        -- apply NoDup_singleton.
      * apply NoDup_app. split; [apply (li_nodup s Hli)|]. split.
        -- intros e' [He' _]%elem_of_exec_events
             ->%list_elem_of_singleton.
           apply Hend in He' as [? ?]. done.
        -- apply NoDup_singleton.
    + apply ordered_grow; [apply (li_ordered s Hli)|].
      destruct Hkind as [(-> & -> & -> & -> & _)|[? (-> & -> & -> & ->)]].
      * simpl. split; [by destruct Hreq|]. rewrite app_nil_r.
        apply ordered_from_sys.
      * simpl. rewrite ordered_from_app. split; [apply ordered_from_sys|].
        simpl. split; [|done]. apply elem_of_app. left. eauto.
  - (* the phase raises *)
    split; cbn [st_log st_admitted st_pool st_completed st_failed st_fatal].
    + rewrite !admissions_app, admissions_sys, (li_admissions s Hli).
      destruct Hkind as [(_ & -> & -> & _)|[? (_ & -> & -> & _)]];
        destruct (is_os_error e); simpl; by rewrite ?app_nil_r.
    + rewrite !completions_app, completions_sys, (li_completions s Hli).
      destruct Hkind as [(_ & -> & -> & _)|[? (_ & -> & -> & _)]];
        destruct (is_os_error e); simpl; by rewrite ?app_nil_r.
    + rewrite !drops_app, drops_sys, (li_drops s Hli).
      destruct Hkind as [(_ & -> & -> & _)|[? (_ & -> & -> & _)]];
        destruct (is_os_error e); simpl; by rewrite ?app_nil_r.
    + intros i'. destruct (decide (i = i')) as [<-|Hne].
      * rewrite lookup_insert_eq.
        eapply item_inv_member; eauto;
          destruct Hkind as [(-> & -> & -> & -> & _)|[? (-> & -> & -> & ->)]];
          try done; eauto; intros; in_log; eauto;
          rewrite ?elem_of_app, ?elem_of_cons; eauto.
      * rewrite lookup_insert_ne by done.
        eapply item_inv_frame; [apply (li_item s Hli)| |done|done].
        apply Forall_forall. intros e' He'.
        destruct Hkind as [(-> & -> & -> & -> & _)|[? (-> & -> & -> & ->)]];
          in_log; try done.
        all: by destruct e'.
    + intros e' H.
      assert (e' = e ∧ is_os_error e = true) as [-> ->]; [|done].
      destruct Hkind as [(-> & -> & -> & -> & _)|[? (-> & -> & -> & ->)]];
        in_log; try done; by apply Habort in H.
    + apply nodup_grow; [apply (li_nodup s Hli)| |].
      * rewrite !exec_events_app, exec_events_sys.
        destruct Hkind as [(-> & -> & -> & -> & _)|[? (-> & -> & -> & ->)]];
          destruct (is_os_error e);
          rewrite ?exec_events_cons, ?exec_events_nil; simpl;
          repeat (apply NoDup_cons; split; [intros Hx; by in_log|]);
          apply NoDup_nil_2.
      * intros e' He' Hsys Hin.
        destruct Hkind as [(-> & -> & -> & -> & _)|[? (-> & -> & -> & ->)]];
          in_log; try done;
          try (by apply Habort in Hin); try (by apply Hfail in Hin);
          by apply Hstart in Hin.
    + apply ordered_grow; [apply (li_ordered s Hli)|].
      destruct Hkind as [(-> & -> & -> & -> & _)|[? (-> & -> & -> & ->)]].
      * simpl. split; [by destruct Hreq|].
        rewrite ordered_from_app. split; [apply ordered_from_sys|].
        simpl. split; [|by destruct (is_os_error e)].
        rewrite !elem_of_app, list_elem_of_singleton. auto.
      * simpl. rewrite ordered_from_app. split; [apply ordered_from_sys|].
        simpl. split; [|by destruct (is_os_error e)].
        apply elem_of_app. left. eauto.
Qed.

Lemma item_inv_frame1 log e admitted admitted' i i' od :
  item_inv log admitted i' od →
  about i e →
  i ≠ i' →
  admitted ≤ admitted' →
  item_inv (log ++ [e]) admitted' i' od.
Proof. intros. eapply item_inv_frame; eauto. Qed.

Lemma transition_log_inv s a s' :
  wf s → log_inv s → trans s a s' → log_inv s'.
Proof.
  intros Hwf Hli Ht.
  destruct Ht as [item Hf Hsz Hi|i j d stg Hf Hd Hsb Hst Hm
                 |i j d stg x Hf Hd Hsb Hst|i d Hf Hd Hse Hh
                 |i d Hf Hd Hse Hh Hlt|i d Hf Hd Hse Hh Hge].
  - (* admission *)
    assert (st_pool s !! st_admitted s = None) as Hnone.
    { destruct (st_pool s !! st_admitted s) eqn:E; [|done].
      destruct (wf_pool s Hwf (st_admitted s)); [by eauto|lia]. }
    split; cbn [st_log st_admitted st_pool st_completed st_failed st_fatal].
    + rewrite admissions_app, (li_admissions s Hli), seq_S. done.
    + rewrite completions_app, (li_completions s Hli). apply app_nil_r.
    + rewrite drops_app, (li_drops s Hli). apply app_nil_r.
    + intros i. destruct (decide (st_admitted s = i)) as [<-|Hne].
      * rewrite lookup_insert_eq. apply item_inv_admit.
        rewrite <- Hnone. apply (li_item s Hli).
      * rewrite lookup_insert_ne by done.
        eapply item_inv_frame1; [apply (li_item s Hli)| |done|lia]. done.
    + intros e H. in_log. by apply (li_abort s Hli).
    + apply nodup_grow; [apply (li_nodup s Hli)| |].
      * rewrite exec_events_cons. simpl. apply NoDup_singleton.
      * intros e He _ Hin. in_log.
        apply elem_of_admissions in Hin.
        rewrite (li_admissions s Hli), elem_of_seq in Hin. lia.
    + apply ordered_grow; [apply (li_ordered s Hli)|]. done.
  - (* a stage begins for an item *)
    eapply settle_log_inv; eauto 10.
  - (* a stage finishes for an item *)
    eapply settle_log_inv; eauto 10.
  - (* a failed item is dropped *)
    destruct (in_pool_not_left s i d Hwf Hli Hd) as (Hlt & Hnc & Hnd).
    pose proof (li_item s Hli i) as Hii. rewrite Hd in Hii.
    split; cbn [st_log st_admitted st_pool st_completed st_failed st_fatal].
    + rewrite admissions_app, (li_admissions s Hli). apply app_nil_r.
    + rewrite completions_app, (li_completions s Hli). apply app_nil_r.
    + by rewrite drops_app, (li_drops s Hli).
    + intros i'. destruct (decide (i = i')) as [<-|Hne].
      * rewrite lookup_delete_eq. eapply item_inv_leave; eauto.
      * rewrite lookup_delete_ne by done.
        eapply item_inv_frame1; [apply (li_item s Hli)| |done|lia]. done.
    + intros e H. in_log. by apply (li_abort s Hli).
    + apply nodup_grow; [apply (li_nodup s Hli)| |].
      * rewrite exec_events_cons. simpl. apply NoDup_singleton.
      * intros e He _ Hin. by in_log.
    + apply ordered_grow; [apply (li_ordered s Hli)|].
      split; [|done]. destruct (has_failed_lookup d Hh) as (j & e & Hj).
      exists (d_pos d), j, e. by eapply (ii_failed _ _ _ _ Hii).
  - (* an item moves to the next position *)
    split; cbn [st_log st_admitted st_pool st_completed st_failed st_fatal];
      try apply Hli.
    intros i'. destruct (decide (i = i')) as [<-|Hne].
    + rewrite lookup_insert_eq. apply item_inv_next; try done.
      * pose proof (li_item s Hli i) as Hii. by rewrite Hd in Hii.
      * by eapply wf_sibs.
    + rewrite lookup_insert_ne by done. apply (li_item s Hli).
  - (* an item completes *)
    destruct (in_pool_not_left s i d Hwf Hli Hd) as (Hlt & Hnc & Hnd).
    pose proof (li_item s Hli i) as Hii. rewrite Hd in Hii.
    split; cbn [st_log st_admitted st_pool st_completed st_failed st_fatal].
    + rewrite admissions_app, (li_admissions s Hli). apply app_nil_r.
    + by rewrite completions_app, (li_completions s Hli).
    + rewrite drops_app, (li_drops s Hli). apply app_nil_r.
    + intros i'. destruct (decide (i = i')) as [<-|Hne].
      * rewrite lookup_delete_eq. eapply item_inv_leave; eauto.
      * rewrite lookup_delete_ne by done.
        eapply item_inv_frame1; [apply (li_item s Hli)| |done|lia]. done.
    + intros e H. in_log. by apply (li_abort s Hli).
    + apply nodup_grow; [apply (li_nodup s Hli)| |].
      * rewrite exec_events_cons. simpl. apply NoDup_singleton.
      * intros e He _ Hin. by in_log.
    + apply ordered_grow; [apply (li_ordered s Hli)|].
      split; [|done]. intros k j Hk Hj.
      destruct (decide (k = d_pos d)) as [->|].
      * destruct (settled_all_done d j) as [out Hout]; [done|done| |].
        { rewrite (wf_sibs s Hwf i d Hd). done. }
        by eapply (ii_done _ _ _ _ Hii).
      * eapply (ii_past _ _ _ _ Hii); [done|lia|done].
Qed.

(** *** Both invariants along a run *)

Definition inv (s : exec_state) : Prop := wf s ∧ log_inv s.

Lemma inv_init w (t : list fs_event) : inv (init_state w (Sys <$> t)).
Proof. split; [apply wf_init|apply log_inv_init]. Qed.

Lemma step_inv a s s' : inv s → xstep a s = Some s' → inv s'.
Proof.
  intros [Hwf Hli] Hs%step_transition. split.
  - by eapply transition_wf.
  - by eapply transition_log_inv.
Qed.

Lemma exec_inv sched s s' : inv s → xexec sched s = Some s' → inv s'.
Proof.
  revert s. induction sched as [|a sched IH]; intros s Hinv; simpl.
  - by intros [= <-].
  - destruct (xstep a s) as [s1|] eqn:Hs; [|done]. simpl.
    apply IH. by eapply step_inv.
Qed.

Lemma exec_app sched1 sched2 s :
  xexec (sched1 ++ sched2) s = xexec sched1 s ≫= xexec sched2.
Proof.
  revert s. induction sched1 as [|a sched1 IH]; intros s; simpl; [done|].
  destruct (xstep a s); simpl; [apply IH|done].
Qed.

(** *** Termination *)

Definition sib_cost (sb : sibling) : nat :=
  match sb with
  | Pending => 2
  | Running _ => 1
  | _ => 0
  end.

(** The steps the positions from [k] on take for one item. *)
Definition rest_cost (k : nat) : nat :=
  sum_list ((λ p, 2 * length (members p) + 1) <$> drop k pipeline).

Definition driver_cost (d : driver) : nat :=
  1 + sum_list (sib_cost <$> d_sibs d) + rest_cost (S (d_pos d)).

Definition item_cost : nat := 2 + 2 * wd 0 + rest_cost 1.

Definition pool_cost (pool : gmap nat driver) : nat :=
  map_fold (λ _ d n, driver_cost d + n) 0 pool.

(** A bound on the number of steps that remain. *)
Definition measure (s : exec_state) : nat :=
  match st_fatal s with
  | Some _ => 0
  | None =>
      1 + (length items - st_admitted s) * item_cost + pool_cost (st_pool s)
  end.

Lemma pool_cost_insert pool i d :
  pool !! i = None →
  pool_cost (<[i := d]> pool) = driver_cost d + pool_cost pool.
Proof.
  intros Hi. unfold pool_cost.
  rewrite map_fold_insert_L; [done| |done]. intros. lia.
Qed.

Lemma pool_cost_delete pool i d :
  pool !! i = Some d →
  pool_cost pool = driver_cost d + pool_cost (delete i pool).
Proof.
  intros Hi. unfold pool_cost.
  erewrite map_fold_delete_L; [done| |done]. intros. lia.
Qed.

Lemma pool_cost_update pool i d d' :
  pool !! i = Some d →
  pool_cost (<[i := d']> pool) + driver_cost d =
  driver_cost d' + pool_cost pool.
Proof.
  intros Hi. rewrite <- insert_delete_eq.
  rewrite pool_cost_insert by apply lookup_delete_eq.
  rewrite (pool_cost_delete pool i d Hi). lia.
Qed.

Lemma rest_cost_lt k :
  k < length pipeline → rest_cost k = 2 * wd k + 1 + rest_cost (S k).
Proof.
  intros Hk. unfold rest_cost, width.
  destruct (lookup_lt_is_Some_2 pipeline k Hk) as [p Hp].
  rewrite (drop_S _ _ _ Hp), Hp. done.
Qed.

Lemma sib_cost_insert sibs j sb0 sb1 :
  sibs !! j = Some sb0 →
  sum_list (sib_cost <$> <[j := sb1]> sibs) + sib_cost sb0 =
  sum_list (sib_cost <$> sibs) + sib_cost sb1.
Proof.
  revert j. induction sibs as [|sb sibs IH]; intros [|j] Hj;
    simplify_eq/=; [lia|].
  specialize (IH j Hj). lia.
Qed.

Lemma settle_measure s i d j sb0 pre r ok post :
  st_fatal s = None →
  st_pool s !! i = Some d →
  d_sibs d !! j = Some sb0 →
  (∀ x, sib_cost (ok x) < sib_cost sb0) →
  0 < sib_cost sb0 →
  measure (settle s i d j pre r ok post) < measure s.
Proof.
  intros Hf Hd Hj Hok Hpos. unfold measure. rewrite Hf.
  assert (∀ sb1, sib_cost sb1 < sib_cost sb0 →
            pool_cost (<[i := set_sibling d j sb1]> (st_pool s))
            < pool_cost (st_pool s)) as Hlt.
  { intros sb1 Hsb1.
    pose proof (pool_cost_update (st_pool s) i d (set_sibling d j sb1) Hd)
      as Hu.
    pose proof (sib_cost_insert (d_sibs d) j sb0 sb1 Hj) as Hs.
    unfold driver_cost in Hu. cbn [d_sibs d_pos set_sibling] in Hu. lia. }
  destruct r as [[[x|e] w] t]; cbn [settle st_fatal st_admitted st_pool].
  - rewrite Hf. specialize (Hlt (ok x) (Hok x)). lia.
  - destruct (is_os_error e); [apply Nat.lt_0_succ|]. rewrite Hf.
    specialize (Hlt (Failed e) Hpos). lia.
Qed.

Lemma transition_measure s a s' :
  wf s → trans s a s' → measure s' < measure s.
Proof.
  intros Hwf Ht.
  destruct Ht as [item Hf Hsz Hi|i j d stg Hf Hd Hsb Hst Hm
                 |i j d stg x Hf Hd Hsb Hst|i d Hf Hd Hse Hh
                 |i d Hf Hd Hse Hh Hlt|i d Hf Hd Hse Hh Hge].
  - unfold measure. cbn [st_fatal st_admitted st_pool]. rewrite Hf.
    assert (st_pool s !! st_admitted s = None) as Hnone.
    { destruct (st_pool s !! st_admitted s) eqn:E; [|done].
      destruct (wf_pool s Hwf (st_admitted s)); [by eauto|lia]. }
    rewrite pool_cost_insert by done.
    apply lookup_lt_Some in Hi.
    replace (length items - st_admitted s)
      with (S (length items - S (st_admitted s))) by lia.
    unfold driver_cost, item_cost. cbn [fresh_driver d_sibs d_pos].
    rewrite fmap_replicate, sum_list_replicate.
    change (sib_cost Pending) with 2. lia.
  - eapply settle_measure; eauto; simpl; lia.
  - eapply settle_measure; eauto; simpl; lia.
  - unfold measure. cbn [st_fatal st_admitted st_pool]. rewrite Hf.
    rewrite (pool_cost_delete _ _ _ Hd). unfold driver_cost. lia.
  - unfold measure. cbn [st_fatal st_admitted st_pool]. rewrite Hf.
    pose proof (pool_cost_update (st_pool s) i d
      (fresh_driver pipeline (S (d_pos d))
         (from_option (λ p, position_output p (outputs d)) (d_input d)
            (pipeline !! d_pos d))) Hd) as Hu.
    unfold driver_cost in Hu. cbn [fresh_driver d_sibs d_pos] in Hu.
    rewrite fmap_replicate, sum_list_replicate in Hu.
    change (sib_cost Pending) with 2 in Hu.
    rewrite (rest_cost_lt (S (d_pos d))) in Hu by done. lia.
  - unfold measure. cbn [st_fatal st_admitted st_pool]. rewrite Hf.
    rewrite (pool_cost_delete _ _ _ Hd). unfold driver_cost. lia.
Qed.

(** No schedule is longer than the measure of the state it starts in. *)
Lemma exec_bounded sched s s' :
  inv s → xexec sched s = Some s' → length sched + measure s' ≤ measure s.
Proof.
  revert s. induction sched as [|a sched IH]; intros s Hinv; simpl.
  - intros [= <-]. lia.
  - destruct (xstep a s) as [s1|] eqn:Hs; [|done]. simpl. intros He.
    pose proof (step_inv _ _ _ Hinv Hs) as Hinv1.
    specialize (IH s1 Hinv1 He).
    apply step_transition in Hs.
    pose proof (transition_measure s a s1 (proj1 Hinv) Hs). lia.
Qed.

(** *** Progress *)

Lemma forallb_false_lookup {A} (f : A → bool) (l : list A) :
  forallb f l = false → ∃ j x, l !! j = Some x ∧ f x = false.
Proof.
  induction l as [|y l IH]; simpl; [done|].
  destruct (f y) eqn:Hy; simpl.
  - intros (j & x & Hj & Hx)%IH. by exists (S j), x.
  - intros _. by exists 0, y.
Qed.

Lemma stage_at_is_Some k j :
  j < wd k → is_Some (stage_at pipeline k j).
Proof.
  unfold width, stage_at. destruct (pipeline !! k) as [p|]; simpl; [|lia].
  apply lookup_lt_is_Some_2.
Qed.

Lemma classic_finished s : run_finished items s ∨ ¬ run_finished items s.
Proof.
  unfold run_finished.
  destruct (st_fatal s); [right; by intros (? & ? & ?)|].
  destruct (decide (st_pool s = ∅)); [|right; by intros (? & ? & ?)].
  destruct (decide (length items ≤ st_admitted s));
    [by left|right; by intros (? & ? & ?)].
Qed.

(** Some action is enabled as long as the run is neither finished nor
    aborted. *)
Lemma progress s :
  wf s → 0 < N → st_fatal s = None → ¬ run_finished items s →
  ∃ a s', xstep a s = Some s'.
Proof.
  intros Hwf HN Hf Hnf.
  destruct (decide (st_pool s = ∅)) as [Hempty|Hne].
  - (* a slot is free *)
    destruct (decide (st_admitted s < length items)) as [Hlt|Hge].
    + destruct (lookup_lt_is_Some_2 items _ Hlt) as [item Hitem].
      eexists Admit, _. apply step_transition. constructor; eauto.
      rewrite Hempty, map_size_empty. done.
    + destruct Hnf. split; [done|]. split; [done|lia].
  - apply map_choose in Hne as (i & d & Hd).
    pose proof (wf_sibs s Hwf i d Hd) as Hlen.
    destruct (forallb (λ sb, negb (is_running sb)) (d_sibs d)) eqn:Hrun.
    + destruct (settled siblings_proceed d) eqn:Hse.
      * (* the item moves on or leaves *)
        destruct (has_failed d) eqn:Hh.
        -- eexists (Advance i), _. apply step_transition.
           by eapply T_drop.
        -- destruct (decide (S (d_pos d) < length pipeline)).
           ++ eexists (Advance i), _. apply step_transition.
              by eapply T_next.
           ++ eexists (Advance i), _. apply step_transition.
              eapply T_complete; eauto. lia.
      * (* a member remains to be begun *)
        unfold settled in Hse. rewrite Hrun in Hse. simpl in Hse.
        apply orb_false_iff in Hse as [Hpend Hpol].
        apply forallb_false_lookup in Hpend as (j & sb & Hj & Hsb).
        destruct sb; try done.
        destruct (stage_at_is_Some (d_pos d) j) as [stg Hstg].
        { rewrite <- Hlen. by eapply lookup_lt_Some. }
        eexists (Begin i j), _. apply step_transition.
        eapply T_begin; eauto. unfold may_begin.
        destruct (has_failed d), siblings_proceed; done.
    + (* a member is running *)
      apply forallb_false_lookup in Hrun as (j & sb & Hj & Hsb).
      destruct sb as [|x| |]; try done.
      destruct (stage_at_is_Some (d_pos d) j) as [stg Hstg].
      { rewrite <- Hlen. by eapply lookup_lt_Some. }
      eexists (Finish i j), _. apply step_transition.
      by eapply T_finish.
Qed.

(** Every run can be carried on until it is finished or aborted. *)
Lemma run_to_end s :
  inv s → 0 < N →
  ∃ sched s', xexec sched s = Some s' ∧
              (is_Some (st_fatal s') ∨ run_finished items s').
Proof.
  intros Hinv HN.
  remember (measure s) as n eqn:Hn. revert s Hinv Hn.
  induction (lt_wf n) as [n _ IH]. intros s Hinv ->.
  destruct (st_fatal s) as [e|] eqn:Hf.
  { exists [], s. split; [done|]. left. rewrite Hf. eauto. }
  destruct (classic_finished s) as [Hfin|Hnf].
  { exists [], s. split; [done|]. by right. }
  destruct (progress s (proj1 Hinv) HN Hf Hnf) as (a & s1 & Hs).
  pose proof (step_inv _ _ _ Hinv Hs) as Hinv1.
  pose proof Hs as Ht. apply step_transition in Ht.
  pose proof (transition_measure _ _ _ (proj1 Hinv) Ht) as Hlt.
  destruct (IH _ Hlt s1 Hinv1 eq_refl) as (sched & s' & He & Hend).
  exists (a :: sched), s'. split; [|done]. simpl. by rewrite Hs.
Qed.

End executor_invariants.

(** ** The hooks of the script *)

Section hooks.
Context `{!Collaborators} (args : Args).

Lemma bind_ok {A B} (m : M A) (k : A → M B) w b w' t :
  bind m k w = (Ok b, w', t) →
  ∃ a w1 t1 t2,
    m w = (Ok a, w1, t1) ∧ k a w1 = (Ok b, w', t2) ∧ t = t1 ++ t2.
Proof.
  unfold bind. destruct (m w) as [[[a|e] w1] t1]; [|done].
  destruct (k a w1) as [[r w2] t2] eqn:Hk. intros [= -> -> <-].
  by exists a, w1, t1, t2.
Qed.

Lemma explainer_postprocess_returns result w x :
  outcome (explainer_postprocess args result w) = Ok x → x = result.
Proof.
  unfold outcome, explainer_postprocess.
  destruct (bind _ _ w) as [[r w'] t] eqn:Hb. simpl. intros ->.
  apply bind_ok in Hb as (record & w1 & t1 & t2 & _ & Hb & _).
  apply bind_ok in Hb as (feature & w2 & t3 & t4 & _ & Hb & _).
  apply bind_ok in Hb as ([] & w3 & t5 & t6 & _ & Hb & _).
  apply bind_ok in Hb as (explanation & w4 & t7 & t8 & _ & Hb & _).
  apply bind_ok in Hb as (h & w5 & t9 & t10 & _ & Hb & _).
  destruct (orjson_dumps h explanation); [|done].
  apply bind_ok in Hb as ([] & w6 & t11 & t12 & _ & Hb & _).
  by injection Hb.
Qed.

Lemma scorer_postprocess_returns score_dir result w x :
  outcome (scorer_postprocess args score_dir result w) = Ok x → x = VNone.
Proof.
  unfold outcome, scorer_postprocess.
  destruct (bind _ _ w) as [[r w'] t] eqn:Hb. simpl. intros ->.
  apply bind_ok in Hb as (record & w1 & t1 & t2 & _ & Hb & _).
  apply bind_ok in Hb as (feature & w2 & t3 & t4 & _ & Hb & _).
  apply bind_ok in Hb as ([] & w3 & t5 & t6 & _ & Hb & _).
  apply bind_ok in Hb as (score & w4 & t7 & t8 & _ & Hb & _).
  apply bind_ok in Hb as (h & w5 & t9 & t10 & _ & Hb & _).
  destruct (orjson_dumps h score); [|done].
  apply bind_ok in Hb as ([] & w6 & t11 & t12 & _ & Hb & _).
  by injection Hb.
Qed.

End hooks.

Section preprocess.
Context `{!Collaborators} (args : Args).

(** Pure reading of an attribute. *)
Definition read_attr (h : heap) (v : value) (name : string) : option value :=
  match v with
  | VRef l => h !! l ≫= (.!! name)
  | VResult r f o =>
      if bool_decide (name = "record") then Some r
      else if bool_decide (name = f) then Some o
      else None
  | _ => None
  end.

Lemma getattr_read v name w :
  getattr v name w =
    match read_attr (w_heap w) v name with
    | Some x => (Ok x, w, [])
    | None => (Raise (AttributeError name), w, [])
    end.
Proof.
  destruct v; simpl; try done.
  - unfold bind, get_heap. by destruct (w_heap w !! l ≫= _).
  - by repeat case_bool_decide.
Qed.

Lemma setattr_spec v name x w :
  setattr v name x w =
    match v with
    | VRef l =>
        match w_heap w !! l with
        | Some o => (Ok tt, World (<[l := <[name := x]> o]> (w_heap w)) (w_fs w), [])
        | None => (Raise (AttributeError name), w, [])
        end
    | _ => (Raise (AttributeError name), w, [])
    end.
Proof.
  destruct v; simpl; try done.
  unfold bind, get_heap. by destruct (w_heap w !! l).
Qed.

(** What [scorer_preprocess] computes, as a function of the heap. *)
Definition preprocessed (h : heap) (res : value)
    : result value * heap :=
  match read_attr h res "record" with
  | None => (Raise (AttributeError "record"), h)
  | Some record =>
      match read_attr h res "explanation" with
      | None => (Raise (AttributeError "explanation"), h)
      | Some explanation =>
          match record with
          | VRef l =>
              match h !! l with
              | None => (Raise (AttributeError "explanation"), h)
              | Some o =>
                  let h1 := <[l := <["explanation" := explanation]> o]> h in
                  match o !! "random_examples" with
                  | None => (Raise (AttributeError "random_examples"), h1)
                  | Some random_examples =>
                      (Ok record,
                       <[l := <["extra_examples" := random_examples]>
                                (<["explanation" := explanation]> o)]> h)
                  end
              end
          | _ => (Raise (AttributeError "explanation"), h)
          end
      end
  end.

Lemma scorer_preprocess_spec result w :
  scorer_preprocess result w =
    ((preprocessed (w_heap w) result).1,
     World (preprocessed (w_heap w) result).2 (w_fs w), []).
Proof.
  unfold scorer_preprocess, preprocessed. destruct w as [h fs].
  cbn [w_heap w_fs].
  unfold bind at 1. rewrite getattr_read. cbn [w_heap].
  destruct (read_attr h result "record") as [record|]; [|done].
  lazy beta iota. unfold bind at 1. rewrite getattr_read. cbn [w_heap].
  destruct (read_attr h result "explanation") as [explanation|]; [|done].
  lazy beta iota. unfold bind at 1. rewrite setattr_spec. cbn [w_heap w_fs].
  destruct record as [| | |l| |]; try done.
  destruct (h !! l) as [o|] eqn:Hl; [|done].
  lazy beta iota. unfold bind at 1. rewrite getattr_read.
  cbn [w_heap read_attr].
  rewrite lookup_insert_eq. cbn [mbind option_bind].
  rewrite lookup_insert_ne by done.
  destruct (o !! "random_examples") as [x|]; [|done].
  lazy beta iota. unfold bind at 1. rewrite setattr_spec. cbn [w_heap w_fs].
  rewrite lookup_insert_eq. unfold ret. cbn.
  by rewrite insert_insert_eq.
Qed.

(** Applying the hook a second time changes nothing. *)
Lemma preprocessed_idempotent h result :
  preprocessed (preprocessed h result).2 result = preprocessed h result.
Proof.
  unfold preprocessed at 2 3.
  destruct (read_attr h result "record") as [record|] eqn:Hrec; cbn [snd];
    [|by unfold preprocessed; rewrite Hrec].
  destruct (read_attr h result "explanation") as [explanation|] eqn:Hex;
    cbn [snd]; [|by unfold preprocessed; rewrite Hrec, Hex].
  destruct record as [| | |l| |];
    try (by cbn [snd]; unfold preprocessed; rewrite Hrec, Hex).
  destruct (h !! l) as [o|] eqn:Hl;
    [|by cbn [snd]; unfold preprocessed; rewrite Hrec, Hex, Hl].
  (* the attributes of the result as the second application reads them *)
  assert (∀ o', (∀ name, name ≠ "explanation" → name ≠ "extra_examples" →
                         o' !! name = o !! name) →
                o' !! "explanation" = Some explanation →
                read_attr (<[l := o']> h) result "record" = Some (VRef l) ∧
                read_attr (<[l := o']> h) result "explanation"
                  = Some explanation) as Hread.
  { intros o' Hsame Hexp. destruct result as [| | |l'| |]; try done.
    simpl in *. destruct (decide (l = l')) as [<-|Hne].
    - rewrite lookup_insert_eq. simpl. rewrite Hl in Hrec, Hex. simpl in *.
      rewrite Hsame by done. done.
    - by rewrite lookup_insert_ne. }
  destruct (o !! "random_examples") as [x|] eqn:Hx; cbn [snd].
  - destruct (Hread (<["extra_examples" := x]>
                       (<["explanation" := explanation]> o)))
      as [Hr1 Hr2].
    { intros name ? ?. by rewrite !lookup_insert_ne. }
    { rewrite lookup_insert_ne by done. by rewrite lookup_insert_eq. }
    unfold preprocessed. rewrite Hr1, Hr2, lookup_insert_eq.
    rewrite !lookup_insert_ne by done. rewrite Hx.
    rewrite !insert_insert_eq. f_equal. f_equal.
    rewrite (insert_insert_ne _ "explanation" "extra_examples") by done.
    by rewrite !insert_insert_eq.
  - destruct (Hread (<["explanation" := explanation]> o)) as [Hr1 Hr2].
    { intros name ? ?. by rewrite !lookup_insert_ne. }
    { by rewrite lookup_insert_eq. }
    unfold preprocessed. rewrite Hr1, Hr2, lookup_insert_eq.
    rewrite !lookup_insert_ne by done. rewrite Hx.
    by rewrite !insert_insert_eq.
Qed.

End preprocess.

(** ** Paths *)

Lemma str_app_cons (x : ascii) (a b : string) :
  String x a +:+ b = String x (a +:+ b).
Proof. reflexivity. Qed.

Lemma str_app_nil_l (b : string) : "" +:+ b = b.
Proof. reflexivity. Qed.

Lemma str_app_assoc (a b c : string) : (a +:+ b) +:+ c = a +:+ (b +:+ c).
Proof.
  induction a as [|x a IH]; [done|]. rewrite !str_app_cons. by f_equal.
Qed.

Lemma str_app_length (a b : string) :
  String.length (a +:+ b) = String.length a + String.length b.
Proof.
  induction a as [|x a IH]; [done|]. rewrite str_app_cons. simpl.
  by f_equal.
Qed.

Lemma str_app_nil_r (a : string) : a +:+ "" = a.
Proof.
  induction a as [|x a IH]; [done|]. rewrite str_app_cons. by f_equal.
Qed.

Lemma str_app_eq_self (a k : string) : a = a +:+ k → k = "".
Proof.
  intros H. apply (f_equal String.length) in H.
  rewrite str_app_length in H. destruct k; [done|]. simpl in H. lia.
Qed.

(** An ancestor of a path is a proper prefix of it. *)
Lemma ancestors_from_prefix acc p a :
  a ∈ ancestors_from acc p → ∃ k, k ≠ "" ∧ acc +:+ p = a +:+ k.
Proof.
  revert acc. induction p as [|c p IH]; intros acc; simpl.
  - intros H. by apply elem_of_nil in H.
  - intros [H|H]%elem_of_app.
    + destruct (_ && _); [|by apply elem_of_nil in H].
      apply list_elem_of_singleton in H as ->. by exists (String c p).
    + apply IH in H as (k & Hk & H). exists k. split; [done|].
      rewrite <- H, str_app_assoc. done.
Qed.

Lemma last_elem {A} (l : list A) (d : A) : l ≠ [] → List.last l d ∈ l.
Proof.
  induction l as [|x l IH]; [done|]. intros _.
  destruct l as [|y l]; [by left|].
  right. by apply IH.
Qed.

Lemma last_default_or_elem {A} (l : list A) (d : A) :
  List.last l d = d ∨ List.last l d ∈ l.
Proof. destruct l; [by left|right; by apply last_elem]. Qed.

Lemma dirname_prefix p :
  dirname p = "" ∨ ∃ k, k ≠ "" ∧ p = dirname p +:+ k.
Proof.
  unfold dirname.
  destruct (last_default_or_elem (ancestors p) "") as [->|H]; [by left|].
  right. apply ancestors_from_prefix in H as (k & Hk & H). by exists k.
Qed.

Lemma dirname_ne p : p ≠ "" → dirname p ≠ p.
Proof.
  intros Hp Heq. destruct (dirname_prefix p) as [H|(k & Hk & H)].
  - congruence.
  - rewrite Heq in H. by apply str_app_eq_self in H.
Qed.

(** ** Properties of effects that compose *)

(** The file-system effects in a log. *)
Definition sys_of (log : list event) : list fs_event :=
  omap (λ e, match e with Sys x => Some x | _ => None end) log.

Lemma sys_of_app l1 l2 : sys_of (l1 ++ l2) = sys_of l1 ++ sys_of l2.
Proof. apply omap_app. Qed.

Lemma sys_of_sys (t : list fs_event) : sys_of (Sys <$> t) = t.
Proof. induction t as [|x t IH]; [done|]. simpl. by f_equal. Qed.

Lemma elem_of_sys_of x log : x ∈ sys_of log ↔ Sys x ∈ log.
Proof.
  unfold sys_of. rewrite list_elem_of_omap. split.
  - intros (e & He & Hx). destruct e; simplify_eq. done.
  - intros He. by exists (Sys x).
Qed.

(** A relation between the world before a computation, the effects it
    performs and the world after it, that holds of doing nothing and of
    doing one thing after another. *)
Record composes (R : world → list fs_event → world → Prop) : Prop := {
  composes_refl : ∀ w, R w [] w;
  composes_trans : ∀ w t1 w1 t2 w2,
    R w t1 w1 → R w1 t2 w2 → R w (t1 ++ t2) w2
}.

Definition respects {A} (R : world → list fs_event → world → Prop)
    (m : M A) : Prop :=
  ∀ w, R w (effects (m w)) (after (m w)).

Section respects.
Context (R : world → list fs_event → world → Prop) (HR : composes R).

Lemma respects_ret {A} (a : A) : respects R (ret a).
Proof. intros w. apply (composes_refl R HR). Qed.

Lemma respects_raise {A} (e : exn) : respects R (@raise A e).
Proof. intros w. apply (composes_refl R HR). Qed.

Lemma respects_get_heap : respects R get_heap.
Proof. intros w. apply (composes_refl R HR). Qed.

Lemma respects_get_fs : respects R get_fs.
Proof. intros w. apply (composes_refl R HR). Qed.

Lemma respects_bind {A B} (m : M A) (k : A → M B) :
  respects R m → (∀ a, respects R (k a)) → respects R (bind m k).
Proof.
  intros Hm Hk w. specialize (Hm w). unfold bind, effects, after in *.
  destruct (m w) as [[[a|e] w1] t1]; simpl in *; [|done].
  specialize (Hk a w1). unfold effects, after in Hk.
  destruct (k a w1) as [[r w2] t2]; simpl in *.
  by eapply (composes_trans R HR).
Qed.

Lemma respects_getattr v name : respects R (getattr v name).
Proof.
  intros w. rewrite getattr_read.
  destruct (read_attr _ _ _); apply (composes_refl R HR).
Qed.

Lemma respects_hook h :
  (∀ f, h = Some f → ∀ x, respects R (f x)) → ∀ x, respects R (hook h x).
Proof.
  intros Hh x. destruct h as [f|]; simpl; [by apply Hh|].
  apply respects_ret.
Qed.

End respects.

(** What holds of every phase of every stage holds of every run of the
    executor. *)
Section executor_effects.
Context (N : nat) (pipeline : list position) (items : list value)
  (siblings_proceed : bool).
Context (R : world → list fs_event → world → Prop) (HR : composes R).
Context (Hstages : ∀ k j stg x,
  stage_at pipeline k j = Some stg →
  respects R (begin_stage stg x) ∧ respects R (finish_stage stg x)).

Lemma settle_respects s i d j pre r ok post :
  R (st_world s) (effects r) (after r) →
  sys_of pre = [] → sys_of post = [] →
  ∃ new, st_log (settle s i d j pre r ok post) = st_log s ++ new ∧
         R (st_world s) (sys_of new)
           (st_world (settle s i d j pre r ok post)).
Proof.
  intros Hr Hpre Hpost. destruct r as [[[x|e] w] t]; simpl in *.
  - eexists. split; [done|].
    by rewrite !sys_of_app, sys_of_sys, Hpre, Hpost, app_nil_r.
  - eexists. split; [done|].
    rewrite !sys_of_app, sys_of_sys, Hpre. simpl.
    destruct (is_os_error e); simpl; by rewrite app_nil_r.
Qed.

Lemma transition_respects s a s' :
  transition N pipeline items siblings_proceed s a s' →
  ∃ new, st_log s' = st_log s ++ new ∧
         R (st_world s) (sys_of new) (st_world s').
Proof.
  intros Ht.
  destruct Ht as [item Hf Hsz Hi|i j d stg Hf Hd Hsb Hst Hm
                 |i j d stg x Hf Hd Hsb Hst|i d Hf Hd Hse Hh
                 |i d Hf Hd Hse Hh Hlt|i d Hf Hd Hse Hh Hge].
  - eexists. split; [done|]. apply (composes_refl R HR).
  - apply settle_respects; [|done..]. by apply (Hstages _ _ _ _ Hst).
  - apply settle_respects; [|done..]. by apply (Hstages _ _ _ _ Hst).
  - eexists. split; [done|]. apply (composes_refl R HR).
  - exists []. split; [by rewrite app_nil_r|]. apply (composes_refl R HR).
  - eexists. split; [done|]. apply (composes_refl R HR).
Qed.

Lemma exec_respects sched s s' :
  exec N pipeline items siblings_proceed sched s = Some s' →
  ∃ new, st_log s' = st_log s ++ new ∧
         R (st_world s) (sys_of new) (st_world s').
Proof.
  revert s. induction sched as [|a sched IH]; intros s; simpl.
  - intros [= <-]. exists []. split; [by rewrite app_nil_r|].
    apply (composes_refl R HR).
  - destruct (step _ _ _ _ a s) as [s1|] eqn:Hs; [|done]. simpl. intros He.
    apply step_transition, transition_respects in Hs as (n1 & Hl1 & H1).
    apply IH in He as (n2 & Hl2 & H2).
    exists (n1 ++ n2). split.
    + by rewrite Hl2, Hl1, app_assoc.
    + rewrite sys_of_app. by eapply (composes_trans R HR).
Qed.

End executor_effects.

(** ** File-system operations *)

(** The directories created and the files written by a sequence of
    effects. *)
Definition mkdirs (t : list fs_event) : list string :=
  omap (λ e, match e with Mkdir d => Some d | _ => None end) t.

Definition writes (t : list fs_event) : list (string * string) :=
  omap (λ e, match e with Write p data => Some (p, data) | _ => None end) t.

Lemma mkdirs_app t1 t2 : mkdirs (t1 ++ t2) = mkdirs t1 ++ mkdirs t2.
Proof. apply omap_app. Qed.

Lemma writes_app t1 t2 : writes (t1 ++ t2) = writes t1 ++ writes t2.
Proof. apply omap_app. Qed.

Lemma elem_of_mkdirs d t : d ∈ mkdirs t ↔ Mkdir d ∈ t.
Proof.
  unfold mkdirs. rewrite list_elem_of_omap. split.
  - intros (e & He & Hx). destruct e; simplify_eq. done.
  - intros He. by exists (Mkdir d).
Qed.

Lemma elem_of_writes p data t : (p, data) ∈ writes t ↔ Write p data ∈ t.
Proof.
  unfold writes. rewrite list_elem_of_omap. split.
  - intros (e & He & Hx). destruct e; simplify_eq. done.
  - intros He. by exists (Write p data).
Qed.

(** Why [open_w] would refuse a path. *)
Definition open_error (fs : filesystem) (p : string) : option exn :=
  if isdir fs p then Some (IsADirectoryError p)
  else if isfile fs (dirname p) then Some (NotADirectoryError p)
  else if negb (isdir fs (dirname p)) then Some (FileNotFoundError p)
  else None.

Lemma open_w_spec p w :
  open_w p w =
    match open_error (w_fs w) p with
    | Some e => (Raise e, w, [])
    | None =>
        (Ok tt,
         World (w_heap w) (Fs (dirs (w_fs w)) (<[p := ""]> (files (w_fs w)))),
         [Open p])
    end.
Proof.
  unfold open_w, open_error, bind, get_fs. simpl.
  destruct (isdir _ p); [done|].
  destruct (isfile _ _); [done|].
  by destruct (isdir _ _).
Qed.

Lemma write_spec p data w :
  write p data w =
    (Ok tt,
     World (w_heap w) (Fs (dirs (w_fs w)) (<[p := data]> (files (w_fs w)))),
     [Write p data]).
Proof. done. Qed.

Lemma open_error_os fs p e : open_error fs p = Some e → is_os_error e = true.
Proof.
  unfold open_error. repeat case_match; by intros [= <-].
Qed.

Lemma open_error_not_dir fs p : open_error fs p = None → isdir fs p = false.
Proof. unfold open_error. by destruct (isdir fs p). Qed.

(** Writing a file does not change whether another path can be opened. *)
Lemma open_error_insert fs p q data :
  dirname p ≠ q →
  open_error (Fs (dirs fs) (<[q := data]> (files fs))) p = open_error fs p.
Proof.
  intros Hne. unfold open_error, isdir, isfile. simpl.
  by rewrite lookup_insert_ne.
Qed.

Lemma isdir_empty fs : isdir fs "" = true.
Proof. done. Qed.

(** Directories only grow, and each is created once: [fs_rel]. *)
Definition fs_rel (w : world) (t : list fs_event) (w' : world) : Prop :=
  dirs (w_fs w') = dirs (w_fs w) ∪ list_to_set (mkdirs t) ∧
  NoDup (mkdirs t) ∧
  ∀ d, d ∈ mkdirs t → d ∉ dirs (w_fs w).

(** No directory is created: [quiet_rel]. *)
Definition quiet_rel (w : world) (t : list fs_event) (w' : world) : Prop :=
  dirs (w_fs w') = dirs (w_fs w) ∧ mkdirs t = [].

Lemma fs_rel_composes : composes fs_rel.
Proof.
  split.
  - intros w. split; [|split].
    + simpl. by rewrite union_empty_r_L.
    + constructor.
    + intros d H. by apply elem_of_nil in H.
  - intros w t1 w1 t2 w2 (Hd1 & Hn1 & Hf1) (Hd2 & Hn2 & Hf2).
    unfold fs_rel. rewrite mkdirs_app. split; [|split].
    + rewrite Hd2, Hd1, list_to_set_app_L. by rewrite (assoc_L (∪)).
    + apply NoDup_app. split; [done|]. split; [|done].
      intros d H1 H2. apply Hf2 in H2. apply H2. rewrite Hd1.
      apply elem_of_union. right. by apply elem_of_list_to_set.
    + intros d [H|H]%elem_of_app; [by apply Hf1|].
      apply Hf2 in H. intros Hin. apply H. rewrite Hd1.
      apply elem_of_union. by left.
Qed.

Lemma quiet_rel_composes : composes quiet_rel.
Proof.
  split.
  - by intros w.
  - intros w t1 w1 t2 w2 [Hd1 Hm1] [Hd2 Hm2]. split.
    + by rewrite Hd2.
    + by rewrite mkdirs_app, Hm1, Hm2.
Qed.

Lemma quiet_fs_rel w t w' : quiet_rel w t w' → fs_rel w t w'.
Proof.
  intros [Hd Hm]. unfold fs_rel. rewrite Hm, Hd. simpl.
  split; [by rewrite union_empty_r_L|]. split; [constructor|].
  intros d H. by apply elem_of_nil in H.
Qed.

Lemma respects_weaken {A}
    (R R' : world → list fs_event → world → Prop) (m : M A) :
  (∀ w t w', R w t w' → R' w t w') → respects R m → respects R' m.
Proof. intros HRR Hm w. apply HRR, Hm. Qed.

Lemma open_w_quiet p : respects quiet_rel (open_w p).
Proof.
  intros w. rewrite open_w_spec. by destruct (open_error _ _).
Qed.

Lemma write_quiet p data : respects quiet_rel (write p data).
Proof. by intros w. Qed.

(** Why [mkdir] would refuse a path. *)
Definition mkdir_error (fs : filesystem) (d : string) : option exn :=
  if isdir fs d || isfile fs d then Some (FileExistsError d)
  else if isfile fs (dirname d) then Some (NotADirectoryError d)
  else if negb (isdir fs (dirname d)) then Some (FileNotFoundError d)
  else None.

Lemma mkdir_spec d w :
  mkdir d w =
    match mkdir_error (w_fs w) d with
    | Some e => (Raise e, w, [])
    | None =>
        (Ok tt, World (w_heap w) (Fs ({[d]} ∪ dirs (w_fs w)) (files (w_fs w))),
         [Mkdir d])
    end.
Proof.
  unfold mkdir, mkdir_error, bind, get_fs. simpl.
  destruct (isdir _ d || isfile _ d); [done|].
  destruct (isfile _ _); [done|].
  by destruct (isdir _ _).
Qed.

Lemma mkdir_error_not_dir fs d : mkdir_error fs d = None → d ∉ dirs fs.
Proof.
  unfold mkdir_error, isdir.
  destruct (bool_decide (d ∈ dirs fs)) eqn:Hd.
  - by rewrite orb_true_r.
  - intros _. by apply bool_decide_eq_false in Hd.
Qed.

Lemma mkdir_fs_rel d : respects fs_rel (mkdir d).
Proof.
  intros w. rewrite mkdir_spec.
  destruct (mkdir_error (w_fs w) d) eqn:He; [apply fs_rel_composes|].
  apply mkdir_error_not_dir in He.
  unfold fs_rel, effects, after. simpl. split; [|split].
  - rewrite union_empty_r_L. apply (comm_L (∪)).
  - apply NoDup_singleton.
  - intros d' ->%list_elem_of_singleton. done.
Qed.

Lemma mkdir_missing_fs_rel ds : respects fs_rel (mkdir_missing ds).
Proof.
  induction ds as [|d ds IH]; simpl.
  - apply respects_ret, fs_rel_composes.
  - apply respects_bind; [apply fs_rel_composes| |].
    + apply respects_get_fs, fs_rel_composes.
    + intros fs. apply respects_bind; [apply fs_rel_composes| |done].
      destruct (isdir fs d);
        [apply respects_ret, fs_rel_composes|apply mkdir_fs_rel].
Qed.

Lemma makedirs_fs_rel name exist_ok : respects fs_rel (makedirs name exist_ok).
Proof.
  unfold makedirs.
  apply respects_bind; [apply fs_rel_composes|apply mkdir_missing_fs_rel|].
  intros _. apply respects_bind; [apply fs_rel_composes| |].
  - apply respects_get_fs, fs_rel_composes.
  - intros fs. destruct (isdir fs name); [|apply mkdir_fs_rel].
    destruct exist_ok;
      [apply respects_ret|apply respects_raise]; apply fs_rel_composes.
Qed.

(** ** The effects of the hooks *)

Definition feature_at (h : heap) (l : loc) : option value :=
  h !! l ≫= (.!! "feature").

Section script_effects.
Context `{!Collaborators} (args : Args).

(** The destinations of the results of the items. *)
Definition item_path (p : string) : Prop :=
  ∃ f, p = explanation_path args f ∨
       p = score_path args "detection" f ∨
       p = score_path args "fuzz" f.

Definition item_event (e : fs_event) : Prop :=
  match e with
  | Mkdir _ => False
  | Open p | Write p _ => item_path p
  end.

(** What the stages of the script do to the world: they create no
    directory, leave the feature of every record alone and write to
    destinations of items only. *)
Definition item_rel (w : world) (t : list fs_event) (w' : world) : Prop :=
  dirs (w_fs w') = dirs (w_fs w) ∧
  (∀ l, feature_at (w_heap w') l = feature_at (w_heap w) l) ∧
  Forall item_event t.

Lemma item_rel_composes : composes item_rel.
Proof.
  split.
  - by intros w.
  - intros w t1 w1 t2 w2 (Hd1 & Hf1 & He1) (Hd2 & Hf2 & He2).
    split; [by rewrite Hd2|]. split.
    + intros l. by rewrite Hf2.
    + by apply Forall_app.
Qed.

Lemma item_quiet_rel w t w' : item_rel w t w' → quiet_rel w t w'.
Proof.
  intros (Hd & _ & He). split; [done|].
  induction He as [|e t He _ IH]; [done|]. by destruct e.
Qed.

Lemma open_w_item p : item_path p → respects item_rel (open_w p).
Proof.
  intros Hp w. rewrite open_w_spec.
  destruct (open_error _ _); [apply item_rel_composes|].
  split; [done|]. split; [done|]. by repeat constructor.
Qed.

Lemma write_item p data : item_path p → respects item_rel (write p data).
Proof.
  intros Hp w. split; [done|]. split; [done|]. by repeat constructor.
Qed.

Lemma setattr_item v name x :
  name ≠ "feature" → respects item_rel (setattr v name x).
Proof.
  intros Hn w. rewrite setattr_spec.
  destruct v as [| | |l| |]; try apply item_rel_composes.
  destruct (w_heap w !! l) as [o|] eqn:Hl; [|apply item_rel_composes].
  split; [done|]. split; [|done].
  intros l'. unfold feature_at, after. simpl.
  destruct (decide (l = l')) as [<-|Hne].
  - rewrite lookup_insert_eq, Hl. simpl. by rewrite lookup_insert_ne.
  - by rewrite lookup_insert_ne.
Qed.

Local Ltac respects_step :=
  first
    [ apply open_w_item
    | apply write_item
    | apply setattr_item
    | apply respects_getattr, item_rel_composes
    | apply respects_get_heap, item_rel_composes
    | apply respects_ret, item_rel_composes
    | apply respects_raise, item_rel_composes
    | apply respects_bind; [apply item_rel_composes| |intros ?] ].

Lemma explainer_postprocess_item res :
  respects item_rel (explainer_postprocess args res).
Proof.
  unfold explainer_postprocess. repeat respects_step.
  - eexists. by left.
  - destruct (orjson_dumps _ _); repeat respects_step.
    eexists. by left.
Qed.

Lemma scorer_postprocess_item score_dir res :
  score_dir = "detection" ∨ score_dir = "fuzz" →
  respects item_rel (scorer_postprocess args score_dir res).
Proof.
  intros Hdir.
  assert (∀ f, item_path (score_path args score_dir f)) as Hp.
  { intros f. exists f. destruct Hdir as [->| ->]; auto. }
  unfold scorer_postprocess. repeat respects_step; [done|].
  destruct (orjson_dumps _ _); repeat respects_step. done.
Qed.

Lemma scorer_preprocess_item res : respects item_rel (scorer_preprocess res).
Proof. unfold scorer_preprocess. repeat respects_step; done. Qed.

Lemma core_item backend field x : respects item_rel (core backend field x).
Proof.
  unfold core. repeat respects_step.
  destruct (backend _ _); repeat respects_step.
Qed.

(** Every phase of every stage of the script's pipeline. *)
Lemma pipeline_item c k j stg x :
  stage_at (pipeline args c) k j = Some stg →
  respects item_rel (begin_stage stg x) ∧
  respects item_rel (finish_stage stg x).
Proof.
  unfold stage_at, pipeline.
  destruct k as [|[|k]]; simpl; [| |done].
  - destruct j as [|j]; simpl; [|done]. intros [= <-].
    split; unfold begin_stage, finish_stage; simpl.
    + apply respects_ret, item_rel_composes.
    + respects_step; [apply core_item|apply explainer_postprocess_item].
  - destruct j as [|[|j]]; simpl; [| |done]; intros [= <-];
      (split; unfold begin_stage, finish_stage; simpl;
       [apply scorer_preprocess_item|]);
      (respects_step; [apply core_item|apply scorer_postprocess_item; auto]).
Qed.

End script_effects.

(** ** The set-up of a run *)

Lemma bind_effects {A B} (m : M A) (k : A → M B) w :
  effects (bind m k w) =
    effects (m w) ++
    match outcome (m w) with
    | Ok a => effects (k a (after (m w)))
    | Raise _ => []
    end.
Proof.
  unfold bind, effects, outcome, after.
  destruct (m w) as [[[a|e] w1] t1]; simpl; [|by rewrite app_nil_r].
  by destruct (k a w1) as [[? ?] ?].
Qed.

Lemma bind_outcome {A B} (m : M A) (k : A → M B) w :
  outcome (bind m k w) =
    match outcome (m w) with
    | Ok a => outcome (k a (after (m w)))
    | Raise e => Raise e
    end.
Proof.
  unfold bind, effects, outcome, after.
  destruct (m w) as [[[a|e] w1] t1]; simpl; [|done].
  by destruct (k a w1) as [[? ?] ?].
Qed.

Lemma bind_after {A B} (m : M A) (k : A → M B) w :
  after (bind m k w) =
    match outcome (m w) with
    | Ok a => after (k a (after (m w)))
    | Raise _ => after (m w)
    end.
Proof.
  unfold bind, effects, outcome, after.
  destruct (m w) as [[[a|e] w1] t1]; simpl; [|done].
  by destruct (k a w1) as [[? ?] ?].
Qed.

Lemma bind_ok_inv {A B} (m : M A) (k : A → M B) w b :
  outcome (bind m k w) = Ok b →
  ∃ a, outcome (m w) = Ok a ∧
       outcome (k a (after (m w))) = Ok b ∧
       after (bind m k w) = after (k a (after (m w))).
Proof.
  rewrite bind_outcome, bind_after.
  destruct (outcome (m w)) as [a|e]; [|done]. intros Hk. by exists a.
Qed.

Lemma after_ret {A} (a : A) w : after (ret a w) = w.
Proof. reflexivity. Qed.

Lemma outcome_ret {A} (a : A) w : outcome (ret a w) = Ok a.
Proof. reflexivity. Qed.

Definition is_mkdir (e : fs_event) : Prop :=
  match e with Mkdir _ => True | _ => False end.

(** Creating directories touches neither the heap nor the files. *)
Definition dir_rel (w : world) (t : list fs_event) (w' : world) : Prop :=
  w_heap w' = w_heap w ∧ files (w_fs w') = files (w_fs w) ∧
  Forall is_mkdir t.

Lemma dir_rel_composes : composes dir_rel.
Proof.
  split.
  - by intros w.
  - intros w t1 w1 t2 w2 (Hh1 & Hf1 & He1) (Hh2 & Hf2 & He2).
    split; [by rewrite Hh2|]. split; [by rewrite Hf2|]. by apply Forall_app.
Qed.

Lemma mkdir_dir_rel d : respects dir_rel (mkdir d).
Proof.
  intros w. rewrite mkdir_spec.
  destruct (mkdir_error _ _); [apply dir_rel_composes|].
  split; [done|]. split; [done|]. by repeat constructor.
Qed.

Lemma makedirs_dir_rel name exist_ok :
  respects dir_rel (makedirs name exist_ok).
Proof.
  unfold makedirs.
  apply respects_bind; [apply dir_rel_composes| |].
  - induction (ancestors name) as [|d ds IH]; simpl.
    + apply respects_ret, dir_rel_composes.
    + apply respects_bind; [apply dir_rel_composes| |].
      * apply respects_get_fs, dir_rel_composes.
      * intros fs. apply respects_bind; [apply dir_rel_composes| |done].
        destruct (isdir fs d);
          [apply respects_ret, dir_rel_composes|apply mkdir_dir_rel].
  - intros _. apply respects_bind; [apply dir_rel_composes| |].
    + apply respects_get_fs, dir_rel_composes.
    + intros fs. destruct (isdir fs name); [|apply mkdir_dir_rel].
      destruct exist_ok;
        [apply respects_ret|apply respects_raise]; apply dir_rel_composes.
Qed.

Lemma dir_rel_writes w t w' : dir_rel w t w' → writes t = [].
Proof.
  intros (_ & _ & He). induction He as [|e t He _ IH]; [done|].
  by destruct e.
Qed.

Section setup.
Context `{!Collaborators} (args : Args).

Definition config_path (dir : string) : string :=
  dir +:+ "/experiment_config.json".

(** The three copies of the configuration, in the order they are
    written. *)
Definition config_writes : list (string * string) :=
  [ (config_path (explanations_dir args), config_json);
    (config_path (scores_dir args "detection"), config_json);
    (config_path (scores_dir args "fuzz"), config_json) ].

Lemma write_config_spec dir w :
  write_config dir w =
    match open_error (w_fs w) (config_path dir) with
    | Some e => (Raise e, w, [])
    | None =>
        (Ok tt,
         World (w_heap w)
           (Fs (dirs (w_fs w))
              (<[config_path dir := config_json]> (files (w_fs w)))),
         [Open (config_path dir); Write (config_path dir) config_json])
    end.
Proof.
  unfold write_config, bind. rewrite open_w_spec. fold (config_path dir).
  destruct (open_error _ _); [done|]. rewrite write_spec. simpl.
  by rewrite insert_insert_eq.
Qed.

Lemma write_config_quiet dir : respects quiet_rel (write_config dir).
Proof.
  intros w. rewrite write_config_spec. by destruct (open_error _ _).
Qed.

Lemma use_client_spec w :
  use_client args w =
    match load_client args with
    | Some c => (Ok c, w, [])
    | None => (Raise (UnboundLocalError "client"), w, [])
    end.
Proof. unfold use_client. by destruct (load_client args). Qed.

Lemma after_use_client w : after (use_client args w) = w.
Proof. rewrite use_client_spec. by destruct (load_client args). Qed.

(** Directories are created once each, also by the set-up. *)
Lemma setup_fs_rel : respects fs_rel (setup args).
Proof.
  pose proof fs_rel_composes as HR.
  assert (∀ dir, respects fs_rel (write_config dir)) as Hcfg.
  { intros dir. eapply respects_weaken; [apply quiet_fs_rel|].
    apply write_config_quiet. }
  unfold setup.
  apply respects_bind; [done|apply makedirs_fs_rel|intros _].
  apply respects_bind; [done| |intros c].
  { intros w. rewrite use_client_spec. destruct (load_client args); apply HR. }
  apply respects_bind; [done|apply Hcfg|intros _].
  apply respects_bind; [done|apply makedirs_fs_rel|intros _].
  apply respects_bind; [done|apply makedirs_fs_rel|intros _].
  apply respects_bind; [done|apply Hcfg|intros _].
  apply respects_bind; [done|apply Hcfg|intros _].
  by apply respects_ret.
Qed.

(** The set-up writes the three copies of the configuration, in this
    order, as far as it gets, and nothing else. *)
Lemma setup_writes w :
  writes (effects (setup args w)) `prefix_of` config_writes ∧
  (∀ c, outcome (setup args w) = Ok c →
        writes (effects (setup args w)) = config_writes).
Proof.
  assert (∀ name w, writes (effects (makedirs name true w)) = []) as Hmk.
  { intros name w'. eapply dir_rel_writes, makedirs_dir_rel. }
  assert (∀ dir w,
    (writes (effects (write_config dir w)) = [] ∧
     ∃ e, outcome (write_config dir w) = Raise e) ∨
    (writes (effects (write_config dir w)) = [(config_path dir, config_json)] ∧
     outcome (write_config dir w) = Ok tt)) as Hcfg.
  { intros dir w'. rewrite write_config_spec.
    destruct (open_error _ _); [left|right]; eauto. }
  unfold setup.
  rewrite bind_effects, bind_outcome, writes_app, Hmk.
  destruct (outcome (makedirs _ _ w)) as [[]|e1];
    [|split; [apply prefix_nil|done]].
  set (w1 := after (makedirs _ _ w)).
  rewrite bind_effects, bind_outcome, writes_app, use_client_spec.
  destruct (load_client args) as [c|];
    cbn [outcome effects after fst snd writes omap app];
    [|split; [apply prefix_nil|done]].
  rewrite bind_effects, bind_outcome, writes_app.
  destruct (Hcfg (explanations_dir args) w1) as [[-> [e ->]]|[-> ->]];
    [split; [apply prefix_nil|done]|].
  set (w2 := after (write_config _ w1)).
  rewrite bind_effects, bind_outcome, writes_app, Hmk.
  destruct (outcome (makedirs _ _ w2)) as [[]|e1];
    [|split; [by apply prefix_cons, prefix_nil|done]].
  set (w3 := after (makedirs _ _ w2)).
  rewrite bind_effects, bind_outcome, writes_app, Hmk.
  destruct (outcome (makedirs _ _ w3)) as [[]|e1];
    [|split; [by apply prefix_cons, prefix_nil|done]].
  set (w4 := after (makedirs _ _ w3)).
  rewrite bind_effects, bind_outcome, writes_app.
  destruct (Hcfg (scores_dir args "detection") w4) as [[-> [e ->]]|[-> ->]];
    [split; [by apply prefix_cons, prefix_nil|done]|].
  set (w5 := after (write_config _ w4)).
  rewrite bind_effects, bind_outcome, writes_app.
  destruct (Hcfg (scores_dir args "fuzz") w5) as [[-> [e ->]]|[-> ->]];
    [split; [by do 2 apply prefix_cons; apply prefix_nil|done]|].
  simpl. split; [done|]. by intros c' _.
Qed.

End setup.

(** ** A whole run *)

Section main_run.
Context `{!Collaborators} (args : Args) (items : list value)
  (siblings_proceed : bool).

(** The log of a run is the log of the set-up followed by what the
    executor adds, and the executor adds effects of the stages only. *)
Lemma main_log sched w o :
  main args items siblings_proceed sched w = Some o →
  ∃ new,
    run_log o = (Sys <$> effects (setup args w)) ++ new ∧
    item_rel args (after (setup args w)) (sys_of new) (run_world o) ∧
    (∀ e, outcome (setup args w) = Raise e → new = []).
Proof.
  unfold main, effects, after, outcome.
  destruct (setup args w) as [[[c|e] w1] t] eqn:Hs; simpl.
  - destruct (exec _ _ _ _ sched _) as [s|] eqn:He; [|done].
    intros [= <-]. simpl.
    eapply (exec_respects _ _ _ _ (item_rel args)) in He
      as (new & Hlog & Hrel).
    + exists new. by split; [|split].
    + apply item_rel_composes.
    + intros k j stg x. apply pipeline_item.
  - intros [= <-]. exists []. simpl. rewrite app_nil_r.
    split; [done|]. split; [apply item_rel_composes|done].
Qed.

(** The invariants of the executor hold in every state of a run. *)
Lemma main_inv sched w s :
  main args items siblings_proceed sched w = Some (Ran s) →
  ∃ c, outcome (setup args w) = Ok c ∧
       exec max_concurrent (pipeline args c) items siblings_proceed sched
         (init_state (after (setup args w)) (Sys <$> effects (setup args w)))
       = Some s ∧
       inv max_concurrent (pipeline args c) items siblings_proceed s.
Proof.
  unfold main, effects, after, outcome.
  destruct (setup args w) as [[[c|e] w1] t] eqn:Hs; simpl; [|done].
  destruct (exec _ _ _ _ sched _) as [s'|] eqn:He; [|done].
  intros [= ->]. exists c. split; [done|]. split; [done|].
  eapply exec_inv; [|done]. apply inv_init.
Qed.

Lemma app_split_not_in {A} (l1 l2 t1 t2 : list A) (e : A) :
  l1 ++ l2 = t1 ++ e :: t2 → e ∉ l1 →
  ∃ n1, t1 = l1 ++ n1 ∧ l2 = n1 ++ e :: t2.
Proof.
  revert t1. induction l1 as [|x l1 IH]; intros t1 Heq Hni; simpl in *.
  - by exists t1.
  - destruct t1 as [|y t1]; injection Heq as -> Heq.
    + destruct Hni. by left.
    + apply not_elem_of_cons in Hni as [_ Hni].
      destruct (IH t1 Heq Hni) as (n1 & -> & ->). by exists n1.
Qed.

End main_run.

(** * The claims *)

(** ** Postprocess hooks (C3) *)

(** C3, as stated, fails for the scorer hooks: in the world the set-up
    leaves behind, [scorer_postprocess] writes the score of a detection
    result and returns [None], not the result it was given. *)
Lemma scorer_postprocess_returns_none :
  outcome
    (@scorer_postprocess steady default_args "detection"
       (VResult (VRef 1%positive) "score" (VStr "0.9"))
       (after (@setup steady default_args sample_world))) = Ok VNone ∧
  VNone ≠ VResult (VRef 1%positive) "score" (VStr "0.9").
Proof. split; [by vm_compute|done]. Qed.

(** C3, amended: [explainer_postprocess] returns the result it was given,
    so that it flows on to the scorers; [scorer_postprocess], for the
    detection and the fuzz stage alike, returns [None] whenever it
    returns. *)
Theorem postprocess_hooks_return `{!Collaborators} (args : Args) :
  (∀ res w x, outcome (explainer_postprocess args res w) = Ok x → x = res) ∧
  (∀ score_dir res w x,
     outcome (scorer_postprocess args score_dir res w) = Ok x → x = VNone).
Proof.
  split.
  - apply explainer_postprocess_returns.
  - apply scorer_postprocess_returns.
Qed.

(** ** The preprocess hook of the scorers (C10) *)

(** C10: applying [scorer_preprocess] to the same explainer result a second
    time returns the same record and leaves the world as the first
    application left it; it performs no file-system effect; when it
    returns, it returns the record of the result, whose [explanation] is
    then the explanation of the result and whose [extra_examples] are its
    [random_examples]; it does return, the first time and the second, on
    every result with an explanation whose record is an object with random
    examples, and the second application then leaves the world as it finds
    it; and both members of the scorer group use it as their preprocess
    hook. *)
Theorem scorer_preprocess_idempotent `{!Collaborators} (args : Args)
    (res : value) (w : world) :
  let r := scorer_preprocess res w in
  scorer_preprocess res (after r) = r ∧
  effects r = [] ∧
  (∀ record, outcome r = Ok record →
     read_attr (w_heap w) res "record" = Some record ∧
     ∃ explanation examples,
       read_attr (w_heap w) res "explanation" = Some explanation ∧
       read_attr (w_heap w) record "random_examples" = Some examples ∧
       read_attr (w_heap (after r)) record "explanation" = Some explanation ∧
       read_attr (w_heap (after r)) record "extra_examples" = Some examples) ∧
  (∀ l o explanation examples,
     read_attr (w_heap w) res "record" = Some (VRef l) →
     read_attr (w_heap w) res "explanation" = Some explanation →
     w_heap w !! l = Some o →
     o !! "random_examples" = Some examples →
     outcome r = Ok (VRef l) ∧
     outcome (scorer_preprocess res (after r)) = Ok (VRef l) ∧
     after (scorer_preprocess res (after r)) = after r) ∧
  (∀ c, st_pre <$> members (scorer_pipe args c)
        = [Some scorer_preprocess; Some scorer_preprocess]).
Proof.
  cbv zeta. rewrite !scorer_preprocess_spec. cbn [after effects fst snd w_heap w_fs].
  split; [|split; [done|split; [|split; [|done]]]].
  - by rewrite preprocessed_idempotent.
  - unfold outcome. cbn [fst snd]. unfold preprocessed.
    destruct (read_attr (w_heap w) res "record") as [record|]; [|done].
    destruct (read_attr (w_heap w) res "explanation") as [explanation|];
      [|done].
    destruct record as [| | |l| |]; try done.
    destruct (w_heap w !! l) as [o|] eqn:Hl; [|done].
    destruct (o !! "random_examples") as [x|] eqn:Hx; [|done].
    cbn [fst snd]. intros record [= <-]. split; [done|].
    exists explanation, x. split; [done|]. cbn [read_attr].
    rewrite Hl, lookup_insert_eq. cbn [mbind option_bind].
    rewrite Hx, lookup_insert_eq.
    rewrite lookup_insert_ne by done. by rewrite lookup_insert_eq.
  - unfold outcome. cbn [fst snd].
    intros l o explanation examples Hr Hx Hl Hn.
    rewrite preprocessed_idempotent.
    assert ((preprocessed (w_heap w) res).1 = Ok (VRef l)) as Hok.
    { unfold preprocessed. by rewrite Hr, Hx, Hl, Hn. }
    by rewrite Hok.
Qed.

Lemma scorer_preprocess_idempotent_witness :
  let res := VResult (VRef 1%positive) "explanation" (VStr "vowels") in
  let r := scorer_preprocess res sample_world in
  outcome r = Ok (VRef 1%positive) ∧
  outcome (scorer_preprocess res (after r)) = Ok (VRef 1%positive) ∧
  after (scorer_preprocess res (after r)) = after r.
Proof.
  intros res r.
  destruct (@scorer_preprocess_idempotent steady default_args res
              sample_world) as (_ & _ & _ & Hret & _).
  exact (Hret 1%positive (sample_record "f0") (VStr "vowels")
           (VList [VStr "text"]) eq_refl eq_refl eq_refl eq_refl).
Defined.

(** ** Directories (C7) *)

Lemma fs_rel_isdir w t w' d :
  fs_rel w t w' → isdir (w_fs w) d = true → isdir (w_fs w') d = true.
Proof.
  intros (Hd & _ & _). unfold isdir. rewrite Hd.
  intros [H|H]%orb_true_iff; apply orb_true_iff; [by left|right].
  apply bool_decide_eq_true in H. apply bool_decide_eq_true.
  apply elem_of_union. by left.
Qed.

Lemma makedirs_isdir name w :
  outcome (makedirs name true w) = Ok tt →
  isdir (w_fs (after (makedirs name true w))) name = true.
Proof.
  unfold makedirs. rewrite bind_outcome, bind_after.
  destruct (outcome (mkdir_missing _ w)) as [[]|e]; [|done].
  set (w1 := after (mkdir_missing _ w)).
  unfold bind at 1 2, get_fs. simpl.
  destruct (isdir (w_fs w1) name) eqn:Hd; [done|].
  rewrite mkdir_spec. destruct (mkdir_error _ _); [done|].
  intros _. unfold after, isdir. simpl.
  apply orb_true_iff. right. apply bool_decide_eq_true.
  apply elem_of_union. left. by apply elem_of_singleton.
Qed.

Section directories.
Context `{!Collaborators} (args : Args).

(** After a set-up that returns, the three directories exist. *)
Lemma setup_dirs w c :
  outcome (setup args w) = Ok c →
  isdir (w_fs (after (setup args w))) (explanations_dir args) = true ∧
  isdir (w_fs (after (setup args w))) (scores_dir args "detection") = true ∧
  isdir (w_fs (after (setup args w))) (scores_dir args "fuzz") = true.
Proof.
  assert (∀ dir w d, isdir (w_fs w) d = true →
            isdir (w_fs (after (write_config dir w))) d = true) as Hcfg.
  { intros dir w' d.
    apply fs_rel_isdir with (t := effects (write_config dir w')).
    apply quiet_fs_rel, write_config_quiet. }
  assert (∀ name w d, isdir (w_fs w) d = true →
            isdir (w_fs (after (makedirs name true w))) d = true) as Hmk.
  { intros name w' d.
    apply fs_rel_isdir with (t := effects (makedirs name true w')).
    apply makedirs_fs_rel. }
  unfold setup. intros Hs.
  apply bind_ok_inv in Hs as ([] & H1 & Ha & ->).
  apply makedirs_isdir in H1.
  apply bind_ok_inv in Ha as (c' & _ & Hb & ->).
  apply bind_ok_inv in Hb as ([] & _ & Hc & ->).
  apply bind_ok_inv in Hc as ([] & H2 & Hd & ->).
  apply makedirs_isdir in H2.
  apply bind_ok_inv in Hd as ([] & H3 & He & ->).
  apply makedirs_isdir in H3.
  apply bind_ok_inv in He as ([] & _ & Hf & ->).
  apply bind_ok_inv in Hf as ([] & _ & Hg & ->).
  rewrite after_ret.
  split; [|split].
  - apply Hcfg, Hcfg, Hmk, Hmk, Hcfg. rewrite after_use_client. exact H1.
  - apply Hcfg, Hcfg, Hmk. exact H2.
  - apply Hcfg, Hcfg. exact H3.
Qed.

(** C7: in every run, whatever the items and the schedule, no directory is
    created twice, every directory that is created is created by the
    set-up, that is, before the first item is admitted, and when the set-up
    has returned the three destination directories exist from the first
    admission to the end of the run. *)
Theorem directories_created_once_before_admission (items : list value)
    (siblings_proceed : bool) (sched : list action) (w : world)
    (o : run_outcome) :
  main args items siblings_proceed sched w = Some o →
  NoDup (mkdirs (sys_of (run_log o))) ∧
  mkdirs (sys_of (run_log o)) = mkdirs (effects (setup args w)) ∧
  (∀ d, d ∈ mkdirs (sys_of (run_log o)) →
        (d ∉ dirs (w_fs w)) ∧ d ∈ dirs (w_fs (run_world o))) ∧
  (∀ t1 i t2, run_log o = t1 ++ EvAdmit i :: t2 →
              ∀ d, Sys (Mkdir d) ∉ t2) ∧
  (∀ s, o = Ran s →
        isdir (w_fs (st_world s)) (explanations_dir args) = true ∧
        isdir (w_fs (st_world s)) (scores_dir args "detection") = true ∧
        isdir (w_fs (st_world s)) (scores_dir args "fuzz") = true).
Proof.
  intros Hmain.
  destruct (main_log args items siblings_proceed sched w o Hmain)
    as (new & Hlog & Hrel & Hraise).
  pose proof (item_quiet_rel args _ _ _ Hrel) as [Hdirs Hquiet].
  destruct (setup_fs_rel args w) as (Hd0 & Hnd & Hfresh).
  assert (mkdirs (sys_of (run_log o)) = mkdirs (effects (setup args w)))
    as Hmk.
  { by rewrite Hlog, sys_of_app, sys_of_sys, mkdirs_app, Hquiet, app_nil_r. }
  split; [by rewrite Hmk|]. split; [done|]. split; [|split].
  - intros d. rewrite Hmk. intros Hd. split; [by apply Hfresh|].
    rewrite Hdirs, Hd0. apply elem_of_union. right.
    by apply elem_of_list_to_set.
  - intros t1 i t2 Hsplit d Hin. rewrite Hlog in Hsplit.
    apply app_split_not_in in Hsplit as (n1 & _ & Hnew).
    + destruct Hrel as (_ & _ & Hev). rewrite Forall_forall in Hev.
      apply (Hev (Mkdir d)). apply elem_of_sys_of. rewrite Hnew.
      apply elem_of_app. right. by right.
    + intros H'. by apply elem_of_sys in H'.
  - intros s ->. apply main_inv in Hmain as (c & Hc & _).
    destruct (setup_dirs w c Hc) as (H1 & H2 & H3).
    cbn [run_world] in Hdirs. unfold isdir in *. rewrite Hdirs.
    split; [exact H1|]. split; [exact H2|exact H3].
Qed.

End directories.

(** C7 at the sample run. *)
Lemma directories_created_once_witness :
  ∃ o, @main steady default_args sample_items false sample_schedule
         sample_world = Some o ∧
       NoDup (mkdirs (sys_of (run_log o))) ∧
       ∀ t1 i t2, run_log o = t1 ++ EvAdmit i :: t2 →
                  ∀ d, Sys (Mkdir d) ∉ t2.
Proof.
  destruct (@main steady default_args sample_items false sample_schedule
              sample_world) as [o|] eqn:E; [|by vm_compute in E].
  exists o. split; [done|].
  pose proof (@directories_created_once_before_admission steady default_args
                sample_items false sample_schedule sample_world o E) as H.
  split; apply H.
Defined.

(** ** Destinations are distinct *)

Fixpoint last_char (s : string) : option ascii :=
  match s with
  | EmptyString => None
  | String c EmptyString => Some c
  | String _ s' => last_char s'
  end.

Lemma last_char_app (s t : string) :
  t ≠ "" → last_char (s +:+ t) = last_char t.
Proof.
  intros Ht. induction s as [|c s IH]; [done|].
  rewrite str_app_cons. simpl. rewrite IH.
  destruct (s +:+ t) eqn:E; [|done].
  destruct s; [by rewrite str_app_nil_l in E|by rewrite str_app_cons in E].
Qed.

(** A name that ends in [.txt] is not the name of the configuration. *)
Lemma txt_not_config (f : string) :
  f +:+ ".txt" ≠ "experiment_config.json".
Proof.
  intros H. apply (f_equal last_char) in H.
  rewrite last_char_app in H by done. done.
Qed.

(** Strips what two sides of an equation between paths have in common. *)
Ltac path_eq H :=
  repeat first
    [ rewrite !str_app_assoc in H
    | rewrite !str_app_cons in H
    | rewrite !str_app_nil_l in H
    | apply (inj (String.append _)) in H
    | progress simplify_eq ].

Lemma str_app_inj_r (a b s : string) : a +:+ s = b +:+ s → a = b.
Proof.
  revert b. induction a as [|x a IH]; intros [|y b] H; [done| | |].
  - apply (f_equal String.length) in H.
    rewrite !str_app_length in H. simpl in H. lia.
  - apply (f_equal String.length) in H.
    rewrite !str_app_length in H. simpl in H. lia.
  - rewrite !str_app_cons in H. injection H as -> H. f_equal. by apply IH.
Qed.

Section destinations.
Context (args : Args).

(** The destination of a result determines the feature it is keyed by. *)
Lemma explanation_path_inj f1 f2 :
  explanation_path args f1 = explanation_path args f2 → f1 = f2.
Proof.
  unfold explanation_path. intros H. path_eq H.
  by apply str_app_inj_r in H.
Qed.

Lemma score_path_inj score_dir f1 f2 :
  score_path args score_dir f1 = score_path args score_dir f2 → f1 = f2.
Proof.
  unfold score_path. intros H. path_eq H.
  by apply str_app_inj_r in H.
Qed.

(** Explanations and scores, and the scores of the two scorers, never
    share a destination. *)
Lemma explanation_score_path_ne score_dir f1 f2 :
  explanation_path args f1 ≠ score_path args score_dir f2.
Proof. unfold explanation_path, score_path. intros H. path_eq H. Qed.

Lemma detection_fuzz_path_ne f1 f2 :
  score_path args "detection" f1 ≠ score_path args "fuzz" f2.
Proof. unfold score_path. intros H. path_eq H. Qed.

(** The configuration files are three different files, and none is the
    destination of a result. *)
Lemma config_paths_distinct :
  config_path (explanations_dir args)
    ≠ config_path (scores_dir args "detection") ∧
  config_path (explanations_dir args) ≠ config_path (scores_dir args "fuzz") ∧
  config_path (scores_dir args "detection")
    ≠ config_path (scores_dir args "fuzz").
Proof.
  unfold config_path, explanations_dir, scores_dir.
  split; [|split]; intros H; path_eq H.
Qed.

Lemma item_path_not_config p dir :
  item_path args p →
  dir = explanations_dir args ∨ dir = scores_dir args "detection" ∨
  dir = scores_dir args "fuzz" →
  p ≠ config_path dir.
Proof.
  unfold item_path, config_path, explanations_dir, scores_dir,
    explanation_path, score_path.
  intros [f [->|[->| ->]]] [->|[->| ->]] H; path_eq H;
    by apply txt_not_config in H.
Qed.

End destinations.

(** ** The configuration of a run (C8) *)

Lemma filter_none {A} (P : A → Prop) `{!∀ x, Decision (P x)} (l : list A) :
  (∀ x, x ∈ l → ¬ P x) → filter P l = [].
Proof.
  induction l as [|x l IH]; intros Hl; [done|].
  rewrite filter_cons, decide_False by (apply Hl; by left).
  apply IH. intros y Hy. apply Hl. by right.
Qed.

Lemma filter_prefix_length {A} (P : A → Prop) `{!∀ x, Decision (P x)}
    (l1 l2 : list A) :
  l1 `prefix_of` l2 → length (filter P l1) ≤ length (filter P l2).
Proof.
  intros [k ->]. rewrite filter_app, length_app. lia.
Qed.

(** C8, as stated, fails: the sample run writes the configuration three
    times, once in each of the three destination directories. *)
Lemma configuration_written_three_times :
  (λ o, filter (λ pd, pd.2 = @config_json steady)
          (writes (sys_of (run_log o)))) <$>
    @main steady default_args sample_items false sample_schedule sample_world
  = Some
      [ ("results/explanations/128k/default/experiment_config.json", "{}");
        ("results/scores/128k/default/detection/experiment_config.json", "{}");
        ("results/scores/128k/default/fuzz/experiment_config.json", "{}") ].
Proof. vm_compute. reflexivity. Qed.

Section configuration.
Context `{!Collaborators} (args : Args).

Definition config_dirs : list string :=
  [explanations_dir args; scores_dir args "detection";
   scores_dir args "fuzz"].

Lemma item_writes_paths t p data :
  Forall (item_event args) t → (p, data) ∈ writes t → item_path args p.
Proof.
  intros Ht Hin%elem_of_writes. rewrite Forall_forall in Ht.
  by apply Ht in Hin.
Qed.

Lemma config_writes_filter dir :
  dir ∈ config_dirs →
  filter (λ pd, pd.1 = config_path dir) (config_writes args)
    = [(config_path dir, config_json)].
Proof.
  destruct (config_paths_distinct args) as (H12 & H13 & H23).
  unfold config_dirs, config_writes. intros Hin.
  rewrite !filter_cons, filter_nil. cbn [fst].
  apply elem_of_cons in Hin as [->|Hin];
    [|apply elem_of_cons in Hin as [->|Hin];
      [|apply list_elem_of_singleton in Hin as ->]];
    repeat case_decide; congruence.
Qed.

(** C8, amended: a run writes the configuration once to each of its three
    destinations, never more; when the set-up has returned, each of the
    three files has been written exactly once, with the serialised
    configuration, and all three before the first item is admitted; no
    result of an item is written to one of them. *)
Theorem configuration_written_once_per_destination (items : list value)
    (siblings_proceed : bool) (sched : list action) (w : world)
    (o : run_outcome) :
  main args items siblings_proceed sched w = Some o →
  (∀ dir, dir ∈ config_dirs →
     length (filter (λ pd, pd.1 = config_path dir)
               (writes (sys_of (run_log o)))) ≤ 1) ∧
  (∀ s dir, o = Ran s → dir ∈ config_dirs →
     filter (λ pd, pd.1 = config_path dir) (writes (sys_of (st_log s)))
       = [(config_path dir, config_json)]) ∧
  (∀ t1 i t2 dir data, run_log o = t1 ++ EvAdmit i :: t2 →
     dir ∈ config_dirs → Sys (Write (config_path dir) data) ∉ t2).
Proof.
  intros Hmain.
  destruct (main_log args items siblings_proceed sched w o Hmain)
    as (new & Hlog & (_ & _ & Hev) & Hraise).
  destruct (setup_writes args w) as [Hpre Hok].
  assert (∀ dir, dir ∈ config_dirs →
            filter (λ pd, pd.1 = config_path dir) (writes (sys_of new)) = [])
    as Hnone.
  { intros dir Hdir. apply filter_none. intros [p data] Hin Hp.
    simpl in Hp. subst p. apply item_writes_paths in Hin; [|done].
    eapply item_path_not_config; [done| |done].
    unfold config_dirs in Hdir.
    apply elem_of_cons in Hdir as [->|Hdir]; [auto|].
    apply elem_of_cons in Hdir as [->|Hdir]; [auto|].
    apply list_elem_of_singleton in Hdir as ->. auto. }
  assert (writes (sys_of (run_log o))
          = writes (effects (setup args w)) ++ writes (sys_of new)) as Hw.
  { by rewrite Hlog, sys_of_app, sys_of_sys, writes_app. }
  split; [|split].
  - intros dir Hdir. rewrite Hw, filter_app, (Hnone dir Hdir), app_nil_r.
    etrans; [by apply filter_prefix_length|].
    by rewrite config_writes_filter.
  - intros s dir -> Hdir. apply main_inv in Hmain as (c & Hc & _).
    cbn [run_log] in Hw.
    rewrite Hw, filter_app, (Hnone dir Hdir), app_nil_r, (Hok c Hc).
    by apply config_writes_filter.
  - intros t1 i t2 dir data Hsplit Hdir Hin. rewrite Hlog in Hsplit.
    apply app_split_not_in in Hsplit as (n1 & _ & Hnew);
      [|intros H'; by apply elem_of_sys in H'].
    rewrite Forall_forall in Hev.
    assert (item_path args (config_path dir)) as Hp.
    { apply (Hev (Write (config_path dir) data)), elem_of_sys_of.
      rewrite Hnew. apply elem_of_app. right. by right. }
    eapply item_path_not_config; [exact Hp| |done].
    unfold config_dirs in Hdir.
    apply elem_of_cons in Hdir as [->|Hdir]; [auto|].
    apply elem_of_cons in Hdir as [->|Hdir]; [auto|].
    apply list_elem_of_singleton in Hdir as ->. auto.
Qed.

End configuration.

(** C8, amended, at the sample run. *)
Lemma configuration_written_once_witness :
  ∃ o,
    @main steady default_args sample_items false sample_schedule sample_world
      = Some o ∧
    ∀ dir, dir ∈ config_dirs default_args →
      length (filter (λ pd, pd.1 = config_path dir)
                (writes (sys_of (run_log o)))) ≤ 1.
Proof.
  destruct (@main steady default_args sample_items false sample_schedule
              sample_world) as [o|] eqn:E; [|by vm_compute in E].
  exists o. split; [done|].
  apply (@configuration_written_once_per_destination steady default_args
           sample_items false sample_schedule sample_world o E).
Defined.

(** ** The empty source (C9) *)

(** C9, as stated, fails: over a source without items the run still writes
    the three copies of the configuration. *)
Lemma empty_source_writes_configuration :
  (λ o, writes (sys_of (run_log o))) <$>
    @main steady default_args [] false [] sample_world
  = Some
      [ ("results/explanations/128k/default/experiment_config.json", "{}");
        ("results/scores/128k/default/detection/experiment_config.json", "{}");
        ("results/scores/128k/default/fuzz/experiment_config.json", "{}") ].
Proof. vm_compute. reflexivity. Qed.

Lemma step_empty_source N pl siblings_proceed a w log :
  step N pl [] siblings_proceed a (init_state w log) = None.
Proof.
  destruct a as [|i j|i j|i]; unfold step; cbn [st_fatal init_state st_pool
    st_admitted].
  - by case_decide.
  - by rewrite lookup_empty.
  - by rewrite lookup_empty.
  - by rewrite lookup_empty.
Qed.

Section empty_source.
Context `{!Collaborators} (args : Args).

(** C9, amended: over a source without items the executor has nothing to
    do: no action is enabled, the run is finished at once with no item
    processed, and the executor adds nothing to the log.  What the run
    writes is what the set-up writes: the copies of the configuration. *)
Theorem empty_source_run (siblings_proceed : bool) (sched : list action)
    (w : world) (o : run_outcome) :
  main args [] siblings_proceed sched w = Some o →
  run_log o = Sys <$> effects (setup args w) ∧
  (∀ p data, Sys (Write p data) ∈ run_log o → (p, data) ∈ config_writes args) ∧
  (∀ s, o = Ran s →
     sched = [] ∧
     items_processed s = 0 ∧
     in_flight s = 0 ∧
     run_finished [] s ∧
     (∀ c a, step max_concurrent (pipeline args c) [] siblings_proceed a s
             = None) ∧
     writes (sys_of (st_log s)) = config_writes args).
Proof.
  intros Hmain.
  destruct (setup_writes args w) as [Hpre Hok].
  assert (run_log o = Sys <$> effects (setup args w) ∧
          ∀ s, o = Ran s →
               sched = [] ∧
               s = init_state (after (setup args w))
                     (Sys <$> effects (setup args w)) ∧
               ∃ c, outcome (setup args w) = Ok c) as (Hlog & Hran).
  { revert Hmain. unfold main, effects, after, outcome.
    destruct (setup args w) as [[[c|e] w1] t]; cbn [fst snd].
    - destruct sched as [|a sched]; cbn [exec].
      + intros [= <-]. split; [done|]. intros s [= <-]. eauto.
      + by rewrite step_empty_source.
    - intros [= <-]. split; [done|]. by intros s. }
  split; [done|]. split.
  - intros p data Hin. rewrite Hlog in Hin.
    apply elem_of_sys_of in Hin. rewrite sys_of_sys in Hin.
    apply elem_of_writes in Hin.
    destruct Hpre as [k ->]. apply elem_of_app. by left.
  - intros s Hs. destruct (Hran s Hs) as (-> & -> & c & Hc).
    split; [done|]. split; [done|]. split; [done|].
    split; [by split|]. split.
    + intros c' a. apply step_empty_source.
    + cbn [st_log init_state]. rewrite sys_of_sys. by apply (Hok c).
Qed.

End empty_source.

(** C9, amended, at the default arguments. *)
Lemma empty_source_run_witness :
  ∃ o,
    @main steady default_args [] false [] sample_world = Some o ∧
    run_log o = Sys <$> effects (@setup steady default_args sample_world).
Proof.
  destruct (@main steady default_args [] false [] sample_world)
    as [o|] eqn:E; [|by vm_compute in E].
  exists o. split; [done|].
  apply (@empty_source_run steady default_args false [] sample_world o E).
Defined.

(** ** Counting events *)

Global Instance exn_eq_dec : EqDecision exn.
Proof. solve_decision. Defined.
Global Instance fs_event_eq_dec : EqDecision fs_event.
Proof. solve_decision. Defined.
Global Instance event_eq_dec : EqDecision event.
Proof. solve_decision. Defined.

(** How often an event is in a log. *)
Definition occurrences (e : event) (log : list event) : nat :=
  length (filter (λ e', e' = e) log).

Lemma occurrences_absent e log : e ∉ log → occurrences e log = 0.
Proof.
  intros Hni. unfold occurrences. rewrite filter_none; [done|].
  intros e' Hin ->. done.
Qed.

Lemma occurrences_once e log :
  NoDup (exec_events log) → is_sys e = false → e ∈ log →
  occurrences e log = 1.
Proof.
  unfold occurrences. induction log as [|x log IH]; intros Hnd Hs Hin.
  - by apply elem_of_nil in Hin.
  - rewrite exec_events_cons in Hnd. rewrite filter_cons.
    destruct (decide (x = e)) as [->|Hne].
    + rewrite Hs in Hnd. apply NoDup_cons in Hnd as [Hni _].
      simpl. f_equal. apply occurrences_absent.
      intros Hin'. apply Hni. by apply elem_of_exec_events.
    + apply elem_of_cons in Hin as [->|Hin]; [done|].
      apply IH; [|done|done].
      destruct (is_sys x); [done|]. by apply NoDup_cons in Hnd as [_ ?].
Qed.

(** ** The executor: bound, exactly once, order, failures (C1, C2, C5) *)

Section executor_claims.
Context (N : nat) (pipeline : list position) (items : list value)
  (siblings_proceed : bool).

Local Abbreviation inv' := (inv N pipeline items siblings_proceed).
Local Abbreviation exec' := (exec N pipeline items siblings_proceed).
Local Abbreviation ordered' := (ordered pipeline siblings_proceed).
Local Abbreviation requires' := (requires pipeline siblings_proceed).

Lemma inv_ordered_split s t1 e t2 :
  inv' s → st_log s = t1 ++ e :: t2 → requires' t1 e.
Proof.
  intros [_ Hli] Hlog. eapply ordered_split; [|done].
  apply (li_ordered _ _ _ Hli).
Qed.

Lemma in_log_requires s e :
  inv' s → e ∈ st_log s → ∃ t1 t2, st_log s = t1 ++ e :: t2 ∧ requires' t1 e.
Proof.
  intros Hinv (t1 & t2 & Hlog)%list_elem_of_split.
  exists t1, t2. split; [done|]. by eapply inv_ordered_split.
Qed.

(** When the run is finished every item of the source has left the
    executor, each once. *)
Lemma finished_all_left s :
  inv' s → run_finished items s →
  st_admitted s = length items ∧
  st_completed s ++ st_failed s ≡ₚ seq 0 (length items).
Proof.
  intros [Hwf _] (_ & Hpool & Hge).
  pose proof (wf_admitted _ _ _ _ Hwf) as Hle.
  assert (st_admitted s = length items) as Ha by lia.
  split; [done|]. apply NoDup_Permutation.
  - apply (wf_left _ _ _ _ Hwf).
  - apply NoDup_seq.
  - intros i. rewrite elem_of_seq, <- Ha. split.
    + intros Hin%(wf_left_lt _ _ _ _ Hwf). lia.
    + intros [_ Hlt]. destruct (wf_cover _ _ _ _ Hwf i) as [[d Hd]|?];
        [lia| |done].
      by rewrite Hpool, lookup_empty in Hd.
Qed.

(** Every stage of the pipeline has begun and ended for an item that has
    completed. *)
Lemma completed_all_stages s i k j :
  inv' s → i ∈ st_completed s →
  k < length pipeline → j < width pipeline k →
  EvStart i k j ∈ st_log s ∧ EvEnd i k j ∈ st_log s.
Proof.
  intros Hinv Hi Hk Hj.
  assert (EvComplete i ∈ st_log s) as Hc.
  { apply elem_of_completions.
    by rewrite (li_completions _ _ _ (proj2 Hinv)). }
  apply (in_log_requires s _ Hinv) in Hc as (t1 & t2 & Hlog & Hreq).
  assert (EvEnd i k j ∈ st_log s) as He.
  { rewrite Hlog. apply elem_of_app. left. by apply Hreq. }
  split; [|done].
  apply (in_log_requires s _ Hinv) in He as (t3 & t4 & Hlog' & Hreq').
  rewrite Hlog'. apply elem_of_app. by left.
Qed.

(** The failure of an item that was dropped is in the log, with the
    position of the item in the source, the pipeline position and the
    member of the group that failed. *)
Lemma failed_reported s i :
  inv' s → i ∈ st_failed s → ∃ k j e, EvFail i k j e ∈ st_log s.
Proof.
  intros Hinv Hi.
  assert (EvDrop i ∈ st_log s) as Hd.
  { apply elem_of_drops. by rewrite (li_drops _ _ _ (proj2 Hinv)). }
  apply (in_log_requires s _ Hinv) in Hd as (t1 & t2 & Hlog & k & j & e & H).
  exists k, j, e. rewrite Hlog. apply elem_of_app. by left.
Qed.

(** C1: for every limit of at least one and every finite sequence of
    items, in every state the executor can reach at most [N] items are in
    flight; the items are admitted in the order of the source, each once; no
    event of the executor (admission, begin and end of a stage for an item,
    failure, completion) happens twice; every run can be carried on until
    it is finished or a persistence error aborts it, and no schedule is
    longer than the measure of the initial state; and in a finished run
    every item of the source was admitted exactly once and left exactly
    once, and for every item that completed each stage of the pipeline
    began exactly once and ended exactly once. *)
Theorem executor_bounded_exactly_once (w : world) (t : list fs_event)
    (sched : list action) (s : exec_state) :
  1 ≤ N →
  exec' sched (init_state w (Sys <$> t)) = Some s →
  in_flight s ≤ N ∧
  admissions (st_log s) = seq 0 (st_admitted s) ∧
  st_admitted s ≤ length items ∧
  NoDup (exec_events (st_log s)) ∧
  length sched ≤
    measure pipeline items (init_state w (Sys <$> t)) ∧
  (∃ sched' s', exec' sched' s = Some s' ∧
                (is_Some (st_fatal s') ∨ run_finished items s')) ∧
  (run_finished items s →
     st_completed s ++ st_failed s ≡ₚ seq 0 (length items) ∧
     ∀ i, i < length items →
       occurrences (EvAdmit i) (st_log s) = 1 ∧
       occurrences (EvComplete i) (st_log s)
         + occurrences (EvDrop i) (st_log s) = 1 ∧
       (i ∈ st_completed s →
        ∀ k j, k < length pipeline → j < width pipeline k →
          occurrences (EvStart i k j) (st_log s) = 1 ∧
          occurrences (EvEnd i k j) (st_log s) = 1)).
Proof.
  intros HN Hexec.
  assert (inv' s) as Hinv by (eapply exec_inv; [apply inv_init|done]).
  destruct Hinv as [Hwf Hli].
  pose proof (li_nodup _ _ _ Hli) as Hnd.
  split; [apply (wf_bound _ _ _ _ Hwf)|].
  split; [apply (li_admissions _ _ _ Hli)|].
  split; [apply (wf_admitted _ _ _ _ Hwf)|].
  split; [done|]. split.
  { pose proof (exec_bounded _ _ _ _ sched _ s (inv_init _ _ _ _ w t) Hexec).
    lia. }
  split; [by apply run_to_end|].
  intros Hfin.
  destruct (finished_all_left s (conj Hwf Hli) Hfin) as [Ha Hperm].
  split; [done|]. intros i Hi. split; [|split].
  - apply occurrences_once; [done|done|].
    apply (admitted_in_log _ _ s i Hli). lia.
  - assert (i ∈ st_completed s ++ st_failed s) as Hin.
    { rewrite Hperm. apply elem_of_seq. lia. }
    pose proof (wf_left _ _ _ _ Hwf) as Hleft.
    apply NoDup_app in Hleft as (_ & Hdisj & _).
    apply elem_of_app in Hin as [Hc|Hf].
    + rewrite occurrences_once, occurrences_absent; [done| |done|done|].
      * intros H%elem_of_drops. rewrite (li_drops _ _ _ Hli) in H.
        by eapply Hdisj.
      * apply elem_of_completions.
        by rewrite (li_completions _ _ _ Hli).
    + rewrite occurrences_absent, occurrences_once; [done|done|done| |].
      * apply elem_of_drops. by rewrite (li_drops _ _ _ Hli).
      * intros H%elem_of_completions.
        rewrite (li_completions _ _ _ Hli) in H. by eapply Hdisj.
  - intros Hc k j Hk Hj.
    destruct (completed_all_stages s i k j (conj Hwf Hli) Hc Hk Hj).
    split; by apply occurrences_once.
Qed.

End executor_claims.

(** *** After a failure *)

Section executor_failures.
Context (N : nat) (pipeline : list position) (items : list value)
  (siblings_proceed : bool).

Local Abbreviation finv := (inv N pipeline items siblings_proceed).
Local Abbreviation fexec := (exec N pipeline items siblings_proceed).
Local Abbreviation fstep := (step N pipeline items siblings_proceed).
Local Abbreviation ftrans :=
  (transition N pipeline items siblings_proceed).

Lemma settle_log_grows s i d j pre r ok post :
  ∃ new, st_log (settle s i d j pre r ok post) = st_log s ++ new.
Proof. settle_cases r; eauto. Qed.

Lemma transition_log_grows s a s' :
  ftrans s a s' → ∃ new, st_log s' = st_log s ++ new.
Proof.
  intros []; try apply settle_log_grows; simpl; eauto.
  exists []. by rewrite app_nil_r.
Qed.

Lemma exec_log_grows sched s s' :
  fexec sched s = Some s' → ∃ new, st_log s' = st_log s ++ new.
Proof.
  revert s. induction sched as [|a sched IH]; intros s; simpl.
  - intros [= <-]. exists []. by rewrite app_nil_r.
  - destruct (step _ _ _ _ a s) as [s1|] eqn:Hs; [|done]. simpl. intros He.
    apply step_transition, transition_log_grows in Hs as (n1 & Hl1).
    apply IH in He as (n2 & Hl2).
    exists (n1 ++ n2). by rewrite Hl2, Hl1, app_assoc.
Qed.

(** An item for which a failure was reported never completes. *)
Definition failed_stay (s : exec_state) : Prop :=
  ∀ i k j e, EvFail i k j e ∈ st_log s → i ∉ st_completed s.

Lemma failed_stay_init w (t : list fs_event) :
  failed_stay (init_state w (Sys <$> t)).
Proof. intros i k j e _. simpl. apply not_elem_of_nil. Qed.

Lemma settle_failed_stay s i d j pre r ok post :
  finv s → failed_stay s → st_pool s !! i = Some d →
  (∀ i' k' j' e', EvFail i' k' j' e' ∉ pre ++ post) →
  failed_stay (settle s i d j pre r ok post).
Proof.
  intros [Hwf _] Hfs Hd Hpp i' k' j' e'.
  assert (i ∉ st_completed s) as Hi.
  { destruct (wf_pool _ _ _ _ Hwf i (mk_is_Some _ _ Hd)) as [_ Hni].
    intros Hc. apply Hni, elem_of_app. by left. }
  settle_cases r; intros Hin.
  - apply elem_of_app in Hin as [Hin|Hin]; [by eapply Hfs|].
    apply elem_of_app in Hin as [Hin|Hin].
    { destruct (Hpp i' k' j' e'). apply elem_of_app. by left. }
    apply elem_of_app in Hin as [Hin|Hin].
    { by apply elem_of_sys in Hin. }
    destruct (Hpp i' k' j' e'). apply elem_of_app. by right.
  - apply elem_of_app in Hin as [Hin|Hin]; [by eapply Hfs|].
    apply elem_of_app in Hin as [Hin|Hin].
    { destruct (Hpp i' k' j' e'). apply elem_of_app. by left. }
    apply elem_of_app in Hin as [Hin|Hin].
    { by apply elem_of_sys in Hin. }
    apply elem_of_cons in Hin as [Hin|Hin]; [by simplify_eq|].
    destruct (is_os_error e); [|by apply elem_of_nil in Hin].
    apply elem_of_cons in Hin as [Hin|Hin]; [done|].
    by apply elem_of_nil in Hin.
Qed.

Lemma transition_failed_stay s a s' :
  finv s → failed_stay s → ftrans s a s' → failed_stay s'.
Proof.
  intros Hinv Hfs Ht.
  destruct Ht as [item Hf Hsz Hi|i j d stg Hf Hd Hsb Hst Hm
                 |i j d stg x Hf Hd Hsb Hst|i d Hf Hd Hse Hh
                 |i d Hf Hd Hse Hh Hlt|i d Hf Hd Hse Hh Hge].
  - intros i k j e Hin. simpl in *. in_log. by eapply Hfs.
  - apply settle_failed_stay; [done..|]. intros i' k' j' e' Hin. in_log.
  - apply settle_failed_stay; [done..|]. intros i' k' j' e' Hin. in_log.
  - intros i' k j e Hin. simpl in *. in_log. by eapply Hfs.
  - intros i' k j e Hin. simpl in *. by eapply Hfs.
  - intros i' k j e Hin. simpl in *. in_log.
    intros [Hc|Hc%list_elem_of_singleton]%elem_of_app.
    + by eapply Hfs.
    + subst i'. destruct Hinv as [_ Hli].
      destruct (ii_fail _ _ _ _ _ (li_item _ _ _ Hli i) k j e Hin)
        as [_ Hfl].
      destruct (Hfl d Hd) as [_ Hj].
      apply lookup_failed_has_failed in Hj. congruence.
Qed.

Lemma exec_failed_stay sched s s' :
  finv s → failed_stay s → fexec sched s = Some s' → failed_stay s'.
Proof.
  revert s. induction sched as [|a sched IH]; intros s Hinv Hfs; simpl.
  - by intros [= <-].
  - destruct (step _ _ _ _ a s) as [s1|] eqn:Hs; [|done]. simpl.
    apply IH.
    + by eapply step_inv.
    + eapply transition_failed_stay; [done..|]. by apply step_transition.
Qed.

(** What a failure of the core function of a running stage does to the
    state of the executor. *)
Lemma finish_core_raises s i j d x stg e :
  st_fatal s = None →
  st_pool s !! i = Some d →
  d_sibs d !! j = Some (Running x) →
  stage_at pipeline (d_pos d) j = Some stg →
  outcome (st_core stg x (st_world s)) = Raise e →
  ∃ s', fstep (Finish i j) s = Some s' ∧
    st_log s' = st_log s ++ (Sys <$> effects (st_core stg x (st_world s)))
                  ++ EvFail i (d_pos d) j e ::
                     (if is_os_error e then [EvAbort e] else []) ∧
    st_world s' = after (st_core stg x (st_world s)) ∧
    st_fatal s' = (if is_os_error e then Some e else None) ∧
    st_admitted s' = st_admitted s ∧
    st_completed s' = st_completed s ∧
    st_failed s' = st_failed s ∧
    st_pool s' = <[i := set_sibling d j (Failed e)]> (st_pool s).
Proof.
  intros Hf Hd Hsb Hst Hr. unfold step. rewrite Hf, Hd. simpl.
  rewrite Hsb. simpl. rewrite Hst. simpl.
  eexists. split; [done|].
  unfold finish_stage, bind, outcome, effects, after in *.
  destruct (st_core stg x (st_world s)) as [[[v|e'] w'] t']; simpl in *;
    [done|].
  injection Hr as ->. by rewrite Hf.
Qed.

End executor_failures.

Lemma nodup_not_before (l1 l2 : list event) (e : event) :
  NoDup (exec_events (l1 ++ e :: l2)) → is_sys e = false → e ∉ l1.
Proof.
  rewrite exec_events_app, exec_events_cons. intros Hnd Hs Hin.
  rewrite Hs in Hnd. apply NoDup_app in Hnd as (_ & Hd & _).
  apply (Hd e); [by apply elem_of_exec_events|]. by left.
Qed.

Lemma admit_enabled N pipeline items siblings_proceed s :
  st_fatal s = None → size (st_pool s) < N →
  st_admitted s < length items →
  is_Some (step N pipeline items siblings_proceed Admit s).
Proof.
  intros Hf Hsz Hlt. unfold step. rewrite Hf, decide_True by done.
  destruct (lookup_lt_is_Some_2 items _ Hlt) as [item ->]. by eexists.
Qed.

(** ** The run of the script: order of the stages, failures (C2, C5) *)

Section run_claims.
Context `{!Collaborators} (args : Args) (items : list value)
  (siblings_proceed : bool).

Lemma pipeline_width c k :
  width (pipeline args c) k = match k with 0 => 1 | 1 => 2 | _ => 0 end.
Proof. by destruct k as [|[|k]]. Qed.

Lemma core_raises backend field x w e :
  outcome (core backend field x w) = Raise e →
  e = BackendError ∧ effects (core backend field x w) = [] ∧
  after (core backend field x w) = w.
Proof.
  unfold core, bind, get_heap, outcome, effects, after. simpl.
  destruct (backend (w_heap w) x); simpl; [done|]. by intros [= <-].
Qed.

(** The core functions of the script fail in one way: the backend has
    failed for good. *)
Lemma pipeline_core_raises c k j stg x w e :
  stage_at (pipeline args c) k j = Some stg →
  outcome (st_core stg x w) = Raise e →
  e = BackendError ∧ effects (st_core stg x w) = [] ∧
  after (st_core stg x w) = w.
Proof.
  unfold stage_at, pipeline, scorer_pipe, explainer_pipe. intros Hst.
  destruct k as [|[|k]]; [destruct j as [|j]|destruct j as [|[|j]]|];
    simpl in Hst; simplify_eq; apply core_raises.
Qed.

(** C2: in every run of the script, when a stage begins for an item every
    member of every earlier pipeline position has ended for that item, the
    hooks of the stage included; the first position is the explainer and
    the second the group of the detection and the fuzzing scorer, so that
    neither scorer begins for an item before the explainer, with its
    postprocess hook, has ended for it. *)
Theorem scorers_begin_after_explainer (sched : list action) (w : world)
    (o : run_outcome) (t1 t2 : list event) (i k j : nat) :
  main args items siblings_proceed sched w = Some o →
  run_log o = t1 ++ EvStart i k j :: t2 →
  ∃ c, outcome (setup args w) = Ok c ∧
    stage_at (pipeline args c) 0 0 = Some (explainer_pipe args c) ∧
    st_core <$> stage_at (pipeline args c) 1 0 = Some (DetectionScorer c) ∧
    st_core <$> stage_at (pipeline args c) 1 1 = Some (FuzzingScorer c) ∧
    (∀ k' j', k' < k → j' < width (pipeline args c) k' →
       EvEnd i k' j' ∈ t1) ∧
    (0 < k → EvEnd i 0 0 ∈ t1) ∧
    EvStart i k j ∉ t1.
Proof.
  intros Hm Hlog. destruct o as [e w' l|s].
  - exfalso. unfold main in Hm.
    destruct (setup args w) as [[[c|e'] w1] t]; simpl in Hm.
    + by destruct (exec _ _ _ _ sched _).
    + injection Hm as <- <- <-. simpl in Hlog.
      assert (EvStart i k j ∈ Sys <$> t) as Hin.
      { rewrite Hlog. apply elem_of_app. right. by left. }
      by apply elem_of_sys in Hin.
  - destruct (main_inv _ _ _ _ _ _ Hm) as (c & Hc & He & Hinv).
    exists c. simpl in Hlog.
    pose proof (inv_ordered_split _ _ _ _ _ _ _ _ Hinv Hlog)
      as (_ & _ & _ & Hprev & _).
    do 4 (split; [done|]). split; [done|]. split.
    + intros Hk. apply Hprev; [done|]. rewrite pipeline_width. lia.
    + destruct Hinv as [_ Hli]. apply li_nodup in Hli.
      rewrite Hlog in Hli. by apply nodup_not_before in Hli.
Qed.

(** C5: in every state that the executor reaches in a run of the
    pipeline of the script, when the core function of a stage that is
    running for an item raises, the step that takes the answer of the
    backend is enabled and records the failure with the position of the
    item in the source, the pipeline position and the member that failed;
    the run is not aborted, nothing is written, no new item is admitted by
    that step and the drivers of the other items are as they were.  In every
    state reached afterwards the item has not completed, no stage of a
    later position has begun for it (a stage that begins for it after the
    failure is another member of the same group, and only when the members
    of a group proceed independently); the next item can be admitted when a
    slot is free; an action is enabled as long as the run is neither
    finished nor aborted by a persistence error, and the run can be carried
    on to its end, where every item of the source has been admitted and has
    left, the failed one among the dropped. *)
Theorem stage_failure_isolated (N : nat) (c : client) (w : world)
    (t : list fs_event) (sched : list action) (s : exec_state)
    (i j : nat) (d : driver) (x : value) (stg : stage) (e : exn) :
  1 ≤ N →
  exec N (pipeline args c) items siblings_proceed sched
    (init_state w (Sys <$> t)) = Some s →
  st_fatal s = None →
  st_pool s !! i = Some d →
  d_sibs d !! j = Some (Running x) →
  stage_at (pipeline args c) (d_pos d) j = Some stg →
  outcome (st_core stg x (st_world s)) = Raise e →
  ∃ s',
    step N (pipeline args c) items siblings_proceed (Finish i j) s
      = Some s' ∧
    st_log s' = st_log s ++ [EvFail i (d_pos d) j e] ∧
    st_world s' = st_world s ∧
    st_fatal s' = None ∧
    st_admitted s' = st_admitted s ∧
    (∀ i', i' ≠ i → st_pool s' !! i' = st_pool s !! i') ∧
    ∀ sched' s'',
      exec N (pipeline args c) items siblings_proceed sched' s'
        = Some s'' →
      EvFail i (d_pos d) j e ∈ st_log s'' ∧
      (i ∉ st_completed s'') ∧
      (∀ t1 k' j' t2,
         st_log s'' = t1 ++ EvStart i k' j' :: t2 →
         EvFail i (d_pos d) j e ∈ t1 →
         k' = d_pos d ∧ j' ≠ j ∧ siblings_proceed = true) ∧
      (st_fatal s'' = None → size (st_pool s'') < N →
       st_admitted s'' < length items →
       is_Some (step N (pipeline args c) items siblings_proceed Admit
                  s'')) ∧
      (st_fatal s'' = None → ¬ run_finished items s'' →
       ∃ a s3, step N (pipeline args c) items siblings_proceed a s''
                 = Some s3) ∧
      (∃ sched'' s3,
         exec N (pipeline args c) items siblings_proceed sched'' s''
           = Some s3 ∧
         (is_Some (st_fatal s3) ∨ run_finished items s3)) ∧
      (run_finished items s'' →
       i ∈ st_failed s'' ∧ st_admitted s'' = length items ∧
       st_completed s'' ++ st_failed s'' ≡ₚ seq 0 (length items)).
Proof.
  intros HN Hexec Hf Hd Hsb Hst Hr.
  destruct (pipeline_core_raises _ _ _ _ _ _ _ Hst Hr) as (-> & Ht & Hw).
  destruct (finish_core_raises N _ items siblings_proceed
              _ _ _ _ _ _ _ Hf Hd Hsb Hst Hr)
    as (s' & Hstep & Hlog & Hw' & Hf' & Ha & Hc & Hfl & Hpool).
  rewrite Ht in Hlog. rewrite Hw in Hw'. simpl in Hlog, Hf'.
  exists s'. do 5 (split; [done|]). split.
  { intros i' Hne. by rewrite Hpool, lookup_insert_ne. }
  intros sched' s'' Hexec'.
  assert (inv N (pipeline args c) items siblings_proceed s) as Hinv.
  { eapply exec_inv; [apply inv_init|done]. }
  assert (failed_stay s) as Hfs.
  { eapply exec_failed_stay; [apply inv_init|apply failed_stay_init|done]. }
  assert (exec N (pipeline args c) items siblings_proceed
            (Finish i j :: sched') s = Some s'') as Hexec2.
  { simpl. by rewrite Hstep. }
  assert (inv N (pipeline args c) items siblings_proceed s'') as Hinv''.
  { by eapply exec_inv. }
  assert (failed_stay s'') as Hfs''.
  { eapply exec_failed_stay; [exact Hinv|exact Hfs|exact Hexec2]. }
  destruct (exec_log_grows _ _ _ _ _ _ _ Hexec') as (new & Hnew).
  assert (EvFail i (d_pos d) j BackendError ∈ st_log s'') as Hin.
  { rewrite Hnew, Hlog. apply elem_of_app. left. apply elem_of_app.
    right. by left. }
  split; [done|]. split; [by eapply Hfs''|]. split.
  { intros t1 k' j' t2 Hl Hin1.
    pose proof (inv_ordered_split _ _ _ _ _ _ _ _ Hinv'' Hl)
      as (_ & _ & _ & _ & Hfail).
    destruct (Hfail _ _ _ Hin1) as [<- Hsp]. split; [done|].
    split; [|done]. intros ->.
    apply list_elem_of_split in Hin1 as (a & b & ->).
    rewrite <- app_assoc in Hl. simpl in Hl.
    pose proof (inv_ordered_split _ _ _ _ _ _ _ _ Hinv'' Hl) as Hst'.
    simpl in Hst'. destruct Hinv'' as [_ Hli]. apply li_nodup in Hli.
    rewrite Hl in Hli.
    change (a ++ EvFail i (d_pos d) j BackendError ::
              b ++ EvStart i (d_pos d) j :: t2)
      with (a ++ [EvFail i (d_pos d) j BackendError] ++
              b ++ EvStart i (d_pos d) j :: t2) in Hli.
    rewrite !app_assoc in Hli. apply nodup_not_before in Hli; [|done].
    apply Hli. rewrite <- app_assoc. apply elem_of_app. by left. }
  split; [by apply admit_enabled|]. split.
  { intros Hf'' Hnf. destruct Hinv'' as [Hwf _]. by eapply progress. }
  split; [by apply run_to_end|].
  intros Hfin.
  destruct (finished_all_left _ _ _ _ _ Hinv'' Hfin) as [Hall Hperm].
  split; [|done].
  destruct Hinv'' as [Hwf Hli].
  destruct (ii_fail _ _ _ _ _ (li_item _ _ _ Hli i) _ _ _ Hin) as [Hlt _].
  assert (i ∈ st_completed s'' ++ st_failed s'') as Hleft.
  { rewrite Hperm. apply elem_of_seq. lia. }
  apply elem_of_app in Hleft as [Hc'|Hf'']; [|done].
  by destruct (Hfs'' _ _ _ _ Hin).
Qed.

End run_claims.

Lemma executor_bounded_exactly_once_witness :
  ∃ s,
    exec max_concurrent (@pipeline steady default_args sample_client)
      sample_items false sample_schedule (@sample_start steady) = Some s ∧
    run_finished sample_items s ∧
    in_flight s ≤ max_concurrent ∧
    NoDup (exec_events (st_log s)) ∧
    st_completed s ++ st_failed s ≡ₚ seq 0 (length sample_items) ∧
    occurrences (EvAdmit 1) (st_log s) = 1.
Proof.
  destruct (exec max_concurrent (@pipeline steady default_args sample_client)
              sample_items false sample_schedule (@sample_start steady))
    as [s|] eqn:E; [|by vm_compute in E].
  assert ((λ s, (st_fatal s, bool_decide (st_pool s = ∅), st_admitted s)) <$>
            exec max_concurrent
              (@pipeline steady default_args sample_client) sample_items
              false sample_schedule (@sample_start steady)
          = Some (None, true, 3)) as F by (vm_compute; reflexivity).
  rewrite E in F. simpl in F. injection F as Hf Hp Ha.
  apply bool_decide_eq_true in Hp.
  assert (run_finished sample_items s) as Hfin.
  { split; [done|]. split; [done|]. rewrite Ha. simpl. lia. }
  exists s. split; [done|]. split; [done|].
  assert (1 ≤ max_concurrent) as HN by (unfold max_concurrent; lia).
  destruct (executor_bounded_exactly_once max_concurrent
              (@pipeline steady default_args sample_client) sample_items false
              (after (@setup steady default_args sample_world))
              (effects (@setup steady default_args sample_world))
              sample_schedule s HN E) as (H1 & _ & _ & H4 & _ & _ & H7).
  destruct (H7 Hfin) as [Hperm Hall].
  destruct (Hall 1) as [Hadm _]; [simpl; lia|].
  exact (conj H1 (conj H4 (conj Hperm Hadm))).
Defined.

Lemma scorers_begin_after_explainer_witness :
  ∃ o t2,
    @main steady default_args sample_items false sample_schedule
      sample_world = Some o ∧
    run_log o = take 22 (run_log o) ++ EvStart 0 1 1 :: t2 ∧
    EvEnd 0 0 0 ∈ take 22 (run_log o).
Proof.
  destruct (@main steady default_args sample_items false sample_schedule
              sample_world) as [o|] eqn:E; [|by vm_compute in E].
  assert ((λ o, drop 22 (run_log o)) <$>
            @main steady default_args sample_items false sample_schedule
              sample_world
          = Some (EvStart 0 1 1 :: drop 23 (run_log o))) as Hd.
  { rewrite E. simpl. f_equal.
    assert ((λ o, bool_decide (drop 22 (run_log o)
                               = EvStart 0 1 1 :: drop 23 (run_log o))) <$>
              @main steady default_args sample_items false sample_schedule
                sample_world = Some true) as Hb by (vm_compute; reflexivity).
    rewrite E in Hb. simpl in Hb. injection Hb as Hb.
    by apply bool_decide_eq_true in Hb. }
  rewrite E in Hd. simpl in Hd. injection Hd as Hd.
  assert (run_log o = take 22 (run_log o) ++ EvStart 0 1 1
                        :: drop 23 (run_log o)) as Hlog.
  { rewrite <- Hd. by rewrite take_drop. }
  exists o, (drop 23 (run_log o)). split; [done|]. split; [done|].
  destruct (@scorers_begin_after_explainer steady default_args sample_items
              false sample_schedule sample_world o _ _ 0 1 1 E Hlog)
    as (c & _ & _ & _ & _ & _ & H & _).
  apply H. lia.
Defined.

Lemma stage_failure_isolated_witness :
  ∃ s s',
    exec max_concurrent (@pipeline flaky default_args sample_client) sample_items
      false (take 8 flaky_schedule) (@sample_start flaky) = Some s ∧
    step max_concurrent (@pipeline flaky default_args sample_client) sample_items
      false (Finish 1 0) s = Some s' ∧
    st_log s' = st_log s ++ [EvFail 1 0 0 BackendError] ∧
    st_fatal s' = None.
Proof.
  destruct (exec max_concurrent (@pipeline flaky default_args sample_client)
              sample_items false (take 8 flaky_schedule)
              (@sample_start flaky)) as [s|] eqn:E; [|by vm_compute in E].
  assert ((λ s, (st_fatal s, st_pool s !! 1,
                 outcome (st_core (@explainer_pipe flaky default_args
                                    sample_client)
                            (VRef 2%positive) (st_world s)))) <$>
            exec max_concurrent (@pipeline flaky default_args sample_client)
              sample_items false (take 8 flaky_schedule)
              (@sample_start flaky)
          = Some (None, Some (Driver 0 (VRef 2%positive) [Running (VRef 2%positive)]),
                  Raise BackendError)) as F by (vm_compute; reflexivity).
  rewrite E in F. simpl in F. injection F as Hf Hd.
  assert (outcome (st_core (@explainer_pipe flaky default_args
                              sample_client)
                     (VRef 2%positive) (st_world s)) = Raise BackendError)
    as Hr by reflexivity.
  assert (1 ≤ max_concurrent) as HN by (unfold max_concurrent; lia).
  destruct (@stage_failure_isolated flaky default_args sample_items false
              max_concurrent sample_client
              (after (@setup flaky default_args sample_world))
              (effects (@setup flaky default_args sample_world))
              (take 8 flaky_schedule) s 1 0
              (Driver 0 (VRef 2%positive) [Running (VRef 2%positive)]) (VRef 2%positive)
              (@explainer_pipe flaky default_args sample_client) BackendError
              HN E Hf Hd eq_refl eq_refl Hr)
    as (s' & Hstep & Hlog & _ & Hf' & _).
  exists s, s'. by split; [|split; [|split]].
Defined.

(** * The code of the script beyond the claims *)

(** ** The postprocess hooks, case by case *)

(** What [explainer_postprocess] and [scorer_postprocess] do to the world,
    as a function of what they read: the two hooks differ in the
    destination, in the attribute they store and in what they return. *)
Definition persist `{!Collaborators} (path_of : string → string)
    (field : string) (answer : value) (res : value) (w : world)
    : result value * world * list fs_event :=
  match read_attr (w_heap w) res "record" with
  | None => (Raise (AttributeError "record"), w, [])
  | Some record =>
      match read_attr (w_heap w) record "feature" with
      | None => (Raise (AttributeError "feature"), w, [])
      | Some feature =>
          let p := path_of (py_str feature) in
          match open_error (w_fs w) p with
          | Some e => (Raise e, w, [])
          | None =>
              let opened :=
                World (w_heap w)
                  (Fs (dirs (w_fs w)) (<[p := ""]> (files (w_fs w)))) in
              match read_attr (w_heap w) res field with
              | None => (Raise (AttributeError field), opened, [Open p])
              | Some x =>
                  match orjson_dumps (w_heap w) x with
                  | None => (Raise JSONEncodeError, opened, [Open p])
                  | Some data =>
                      (Ok answer,
                       World (w_heap w)
                         (Fs (dirs (w_fs w))
                            (<[p := data]> (files (w_fs w)))),
                       [Open p; Write p data])
                  end
              end
          end
      end
  end.

Section persistence.
Context `{!Collaborators} (args : Args).

Lemma explainer_postprocess_spec res w :
  explainer_postprocess args res w
  = persist (explanation_path args) "explanation" res res w.
Proof.
  unfold explainer_postprocess, persist. destruct w as [h fs].
  cbn [w_heap w_fs].
  unfold bind at 1. rewrite getattr_read. cbn [w_heap].
  destruct (read_attr h res "record") as [record|]; [|done].
  lazy beta iota. unfold bind at 1. rewrite getattr_read. cbn [w_heap].
  destruct (read_attr h record "feature") as [feature|]; [|done].
  lazy beta iota. unfold bind at 1. rewrite open_w_spec. cbn [w_heap w_fs].
  destruct (open_error fs _) as [e|]; [done|].
  lazy beta iota. unfold bind at 1. rewrite getattr_read. cbn [w_heap].
  destruct (read_attr h res "explanation") as [x|]; [|done].
  lazy beta iota. unfold bind at 1, get_heap. cbn [w_heap].
  destruct (orjson_dumps h x) as [data|]; [|done].
  unfold bind, ret. rewrite write_spec. cbn [w_heap w_fs dirs files app].
  by rewrite insert_insert_eq.
Qed.

Lemma scorer_postprocess_spec score_dir res w :
  scorer_postprocess args score_dir res w
  = persist (score_path args score_dir) "score" VNone res w.
Proof.
  unfold scorer_postprocess, persist. destruct w as [h fs].
  cbn [w_heap w_fs].
  unfold bind at 1. rewrite getattr_read. cbn [w_heap].
  destruct (read_attr h res "record") as [record|]; [|done].
  lazy beta iota. unfold bind at 1. rewrite getattr_read. cbn [w_heap].
  destruct (read_attr h record "feature") as [feature|]; [|done].
  lazy beta iota. unfold bind at 1. rewrite open_w_spec. cbn [w_heap w_fs].
  destruct (open_error fs _) as [e|]; [done|].
  lazy beta iota. unfold bind at 1. rewrite getattr_read. cbn [w_heap].
  destruct (read_attr h res "score") as [x|]; [|done].
  lazy beta iota. unfold bind at 1, get_heap. cbn [w_heap].
  destruct (orjson_dumps h x) as [data|]; [|done].
  unfold bind, ret. rewrite write_spec. cbn [w_heap w_fs dirs files app].
  by rewrite insert_insert_eq.
Qed.

End persistence.


Section persist_cases.
Context `{!Collaborators} (path_of : string → string) (field : string)
  (answer : value).

Lemma persist_ok res w x :
  outcome (persist path_of field answer res w) = Ok x →
  ∃ record feature out data,
    read_attr (w_heap w) res "record" = Some record ∧
    read_attr (w_heap w) record "feature" = Some feature ∧
    open_error (w_fs w) (path_of (py_str feature)) = None ∧
    read_attr (w_heap w) res field = Some out ∧
    orjson_dumps (w_heap w) out = Some data ∧
    persist path_of field answer res w =
      (Ok answer,
       World (w_heap w)
         (Fs (dirs (w_fs w))
            (<[path_of (py_str feature) := data]> (files (w_fs w)))),
       [Open (path_of (py_str feature));
        Write (path_of (py_str feature)) data]).
Proof.
  unfold persist.
  destruct (read_attr (w_heap w) res "record") as [record|] eqn:Hr; [|done].
  destruct (read_attr (w_heap w) record "feature") as [feature|] eqn:Hf;
    [|done].
  destruct (open_error (w_fs w) _) as [e|] eqn:Ho; [done|].
  destruct (read_attr (w_heap w) res field) as [out|] eqn:Hx; [|done].
  destruct (orjson_dumps (w_heap w) out) as [data|] eqn:Hd; [|done].
  intros _. exists record, feature, out, data.
  rewrite Hf, Ho, Hd. by repeat split.
Qed.

Lemma persist_raise res w e :
  outcome (persist path_of field answer res w) = Raise e →
  (persist path_of field answer res w = (Raise e, w, []) ∧
   (e = AttributeError "record" ∨ e = AttributeError "feature" ∨
    is_os_error e = true)) ∨
  (∃ record feature,
     read_attr (w_heap w) res "record" = Some record ∧
     read_attr (w_heap w) record "feature" = Some feature ∧
     open_error (w_fs w) (path_of (py_str feature)) = None ∧
     (e = AttributeError field ∨ e = JSONEncodeError) ∧
     persist path_of field answer res w =
       (Raise e,
        World (w_heap w)
          (Fs (dirs (w_fs w))
             (<[path_of (py_str feature) := ""]> (files (w_fs w)))),
        [Open (path_of (py_str feature))])).
Proof.
  unfold persist.
  destruct (read_attr (w_heap w) res "record") as [record|] eqn:Hr;
    [|intros [= <-]; left; eauto].
  destruct (read_attr (w_heap w) record "feature") as [feature|] eqn:Hf;
    [|intros [= <-]; left; eauto].
  destruct (open_error (w_fs w) _) as [e'|] eqn:Ho.
  { intros [= <-]. left. split; [done|]. right. right.
    by eapply open_error_os. }
  destruct (read_attr (w_heap w) res field) as [out|] eqn:Hx.
  - destruct (orjson_dumps (w_heap w) out) as [data|] eqn:Hd; [done|].
    intros [= <-]. right. exists record, feature.
    rewrite Hf, Ho. repeat split; auto.
  - intros [= <-]. right. exists record, feature.
    rewrite Hf, Ho. repeat split; auto.
Qed.

Lemma persist_rerun res w x :
  (∀ f, path_of f ≠ "") →
  outcome (persist path_of field answer res w) = Ok x →
  persist path_of field answer res
    (after (persist path_of field answer res w))
  = persist path_of field answer res w.
Proof.
  intros Hne (record & feature & out & data & Hr & Hf & Ho & Hx & Hd & ->)
    %persist_ok.
  unfold after, persist. cbn [fst snd w_heap w_fs dirs files].
  rewrite Hr, Hf, Hx, Hd.
  rewrite open_error_insert by (apply dirname_ne, Hne).
  rewrite Ho. by rewrite insert_insert_eq.
Qed.

End persist_cases.

Section postprocess_properties.
Context `{!Collaborators} (args : Args).

Lemma explanation_path_ne_empty f : explanation_path args f ≠ "".
Proof. unfold explanation_path. by rewrite !str_app_cons. Qed.

Lemma score_path_ne_empty score_dir f : score_path args score_dir f ≠ "".
Proof. unfold score_path. by rewrite !str_app_cons. Qed.

(** X1. Lines 60-65: a call of [explainer_postprocess] that returns has opened
    the file named after the feature of the record of the result in the
    explanations directory and has written the serialised explanation to it,
    once; the file holds exactly that afterwards, every other file and every
    directory is as before, and no object has changed. *)
Theorem explainer_postprocess_persists (res : value) (w : world)
    (x : value) :
  outcome (explainer_postprocess args res w) = Ok x →
  ∃ record feature explanation data,
    read_attr (w_heap w) res "record" = Some record ∧
    read_attr (w_heap w) record "feature" = Some feature ∧
    read_attr (w_heap w) res "explanation" = Some explanation ∧
    orjson_dumps (w_heap w) explanation = Some data ∧
    effects (explainer_postprocess args res w)
      = [Open (explanation_path args (py_str feature));
         Write (explanation_path args (py_str feature)) data] ∧
    w_heap (after (explainer_postprocess args res w)) = w_heap w ∧
    dirs (w_fs (after (explainer_postprocess args res w))) = dirs (w_fs w) ∧
    files (w_fs (after (explainer_postprocess args res w)))
      = <[explanation_path args (py_str feature) := data]> (files (w_fs w)).
Proof.
  rewrite explainer_postprocess_spec.
  intros (record & feature & out & data & Hr & Hf & _ & Hx & Hd & ->)
    %persist_ok.
  exists record, feature, out, data. by repeat split.
Qed.

(** X2. Lines 94-97: a call of [scorer_postprocess] that returns has opened
    the file named after the feature of the record of the result in the
    directory of its scorer and has written the serialised score to it, once;
    the file holds exactly that afterwards, every other file and every
    directory is as before, and no object has changed. *)
Theorem scorer_postprocess_persists (score_dir : string) (res : value)
    (w : world) (x : value) :
  outcome (scorer_postprocess args score_dir res w) = Ok x →
  ∃ record feature score data,
    read_attr (w_heap w) res "record" = Some record ∧
    read_attr (w_heap w) record "feature" = Some feature ∧
    read_attr (w_heap w) res "score" = Some score ∧
    orjson_dumps (w_heap w) score = Some data ∧
    effects (scorer_postprocess args score_dir res w)
      = [Open (score_path args score_dir (py_str feature));
         Write (score_path args score_dir (py_str feature)) data] ∧
    w_heap (after (scorer_postprocess args score_dir res w)) = w_heap w ∧
    dirs (w_fs (after (scorer_postprocess args score_dir res w)))
      = dirs (w_fs w) ∧
    files (w_fs (after (scorer_postprocess args score_dir res w)))
      = <[score_path args score_dir (py_str feature) := data]>
          (files (w_fs w)).
Proof.
  rewrite scorer_postprocess_spec.
  intros (record & feature & out & data & Hr & Hf & _ & Hx & Hd & ->)
    %persist_ok.
  exists record, feature, out, data. by repeat split.
Qed.

(** X3. Lines 62-63 and 96-97: the destination is opened, and so emptied,
    before the value is read from the result and serialised. When the result
    lacks the attribute or [orjson.dumps] rejects the value, the hook raises
    and leaves the destination empty, whatever it held before; nothing else
    has changed. *)
Theorem postprocess_truncates_before_serialising (res : value) (w : world)
    (e : exn) :
  (outcome (explainer_postprocess args res w) = Raise e →
   e = JSONEncodeError ∨ e = AttributeError "explanation" →
   ∃ record feature,
     read_attr (w_heap w) res "record" = Some record ∧
     read_attr (w_heap w) record "feature" = Some feature ∧
     effects (explainer_postprocess args res w)
       = [Open (explanation_path args (py_str feature))] ∧
     after (explainer_postprocess args res w)
       = World (w_heap w)
           (Fs (dirs (w_fs w))
              (<[explanation_path args (py_str feature) := ""]>
                 (files (w_fs w))))) ∧
  (∀ score_dir,
     outcome (scorer_postprocess args score_dir res w) = Raise e →
     e = JSONEncodeError ∨ e = AttributeError "score" →
     ∃ record feature,
       read_attr (w_heap w) res "record" = Some record ∧
       read_attr (w_heap w) record "feature" = Some feature ∧
       effects (scorer_postprocess args score_dir res w)
         = [Open (score_path args score_dir (py_str feature))] ∧
       after (scorer_postprocess args score_dir res w)
         = World (w_heap w)
             (Fs (dirs (w_fs w))
                (<[score_path args score_dir (py_str feature) := ""]>
                   (files (w_fs w))))).
Proof.
  split; [|intros score_dir].
  - rewrite explainer_postprocess_spec.
    intros [[_ He]|(record & feature & Hr & Hf & _ & _ & ->)]%persist_raise
      Hcase.
    + destruct Hcase as [->| ->], He as [?|[?|?]]; done.
    + by exists record, feature.
  - rewrite scorer_postprocess_spec.
    intros [[_ He]|(record & feature & Hr & Hf & _ & _ & ->)]%persist_raise
      Hcase.
    + destruct Hcase as [->| ->], He as [?|[?|?]]; done.
    + by exists record, feature.
Qed.

(** X4. Lines 62 and 95-96: the record, its feature and the destination are
    needed before anything is written. A hook that is given a result without a
    record, or a record without a feature, or whose destination cannot be
    opened, raises and has done nothing: no effect, the world as it was. These
    are the only failures besides those of the serialisation. *)
Theorem postprocess_fails_before_opening (res : value) (w : world)
    (e : exn) :
  (outcome (explainer_postprocess args res w) = Raise e →
   (e = JSONEncodeError ∨ e = AttributeError "explanation") ∨
   ((e = AttributeError "record" ∨ e = AttributeError "feature" ∨
     is_os_error e = true) ∧
    explainer_postprocess args res w = (Raise e, w, []))) ∧
  (∀ score_dir,
     outcome (scorer_postprocess args score_dir res w) = Raise e →
     (e = JSONEncodeError ∨ e = AttributeError "score") ∨
     ((e = AttributeError "record" ∨ e = AttributeError "feature" ∨
       is_os_error e = true) ∧
      scorer_postprocess args score_dir res w = (Raise e, w, []))).
Proof.
  split; [|intros score_dir].
  - rewrite explainer_postprocess_spec.
    intros [[-> He]|(_ & _ & _ & _ & _ & [->| ->] & _)]%persist_raise;
      auto.
  - rewrite scorer_postprocess_spec.
    intros [[-> He]|(_ & _ & _ & _ & _ & [->| ->] & _)]%persist_raise;
      auto.
Qed.

(** X5. Lines 60-65 and 94-97: whatever the outcome, a postprocess hook
    changes no object and no directory, and the only file it can change is the
    destination of the item it was given. *)
Theorem postprocess_frame (res : value) (w : world) :
  (w_heap (after (explainer_postprocess args res w)) = w_heap w ∧
   dirs (w_fs (after (explainer_postprocess args res w))) = dirs (w_fs w) ∧
   mkdirs (effects (explainer_postprocess args res w)) = [] ∧
   ∀ q, files (w_fs (after (explainer_postprocess args res w))) !! q
          ≠ files (w_fs w) !! q →
        ∃ record feature,
          read_attr (w_heap w) res "record" = Some record ∧
          read_attr (w_heap w) record "feature" = Some feature ∧
          q = explanation_path args (py_str feature)) ∧
  (∀ score_dir,
     w_heap (after (scorer_postprocess args score_dir res w)) = w_heap w ∧
     dirs (w_fs (after (scorer_postprocess args score_dir res w)))
       = dirs (w_fs w) ∧
     mkdirs (effects (scorer_postprocess args score_dir res w)) = [] ∧
     ∀ q, files (w_fs (after (scorer_postprocess args score_dir res w))) !! q
            ≠ files (w_fs w) !! q →
          ∃ record feature,
            read_attr (w_heap w) res "record" = Some record ∧
            read_attr (w_heap w) record "feature" = Some feature ∧
            q = score_path args score_dir (py_str feature)).
Proof.
  assert (∀ path_of field answer,
    let r := persist path_of field answer res w in
    w_heap (after r) = w_heap w ∧ dirs (w_fs (after r)) = dirs (w_fs w) ∧
    mkdirs (effects r) = [] ∧
    ∀ q, files (w_fs (after r)) !! q ≠ files (w_fs w) !! q →
         ∃ record feature,
           read_attr (w_heap w) res "record" = Some record ∧
           read_attr (w_heap w) record "feature" = Some feature ∧
           q = path_of (py_str feature)) as Hp.
  { intros path_of field answer r.
    destruct (outcome r) as [x|e] eqn:Ho; subst r.
    - apply persist_ok in Ho
        as (record & feature & out & data & Hr & Hf & _ & _ & _ & ->).
      repeat split; try done. cbn. intros q Hq.
      exists record, feature. repeat split; try done.
      destruct (decide (q = path_of (py_str feature))) as [|Hne]; [done|].
      by rewrite lookup_insert_ne in Hq.
    - apply persist_raise in Ho
        as [[-> _]|(record & feature & Hr & Hf & _ & _ & ->)].
      + by repeat split.
      + repeat split; try done. cbn. intros q Hq.
        exists record, feature. repeat split; try done.
        destruct (decide (q = path_of (py_str feature))) as [|Hne]; [done|].
        by rewrite lookup_insert_ne in Hq. }
  split; [|intros score_dir].
  - rewrite explainer_postprocess_spec. apply Hp.
  - rewrite scorer_postprocess_spec. apply Hp.
Qed.

(** X6. Lines 62 and 96, mode [wb]: a postprocess hook that has returned can
    be run again on the same result in the world it left: it returns the same
    value, opens and writes the same destination with the same data, and
    leaves the world as it found it. *)
Theorem postprocess_rerun (res : value) (w : world) (x : value) :
  (outcome (explainer_postprocess args res w) = Ok x →
   explainer_postprocess args res (after (explainer_postprocess args res w))
   = (Ok x, after (explainer_postprocess args res w),
      effects (explainer_postprocess args res w))) ∧
  (∀ score_dir,
     outcome (scorer_postprocess args score_dir res w) = Ok x →
     scorer_postprocess args score_dir res
       (after (scorer_postprocess args score_dir res w))
     = (Ok x, after (scorer_postprocess args score_dir res w),
        effects (scorer_postprocess args score_dir res w))).
Proof.
  split; [|intros score_dir].
  - rewrite !explainer_postprocess_spec. intros Ho.
    rewrite persist_rerun with (x := x);
      [|apply explanation_path_ne_empty|done].
    revert Ho. destruct (persist _ _ _ res w) as [[r w'] t].
    unfold outcome, after, effects. simpl. by intros ->.
  - rewrite !scorer_postprocess_spec. intros Ho.
    rewrite persist_rerun with (x := x);
      [|apply score_path_ne_empty|done].
    revert Ho. destruct (persist _ _ _ res w) as [[r w'] t].
    unfold outcome, after, effects. simpl. by intros ->.
Qed.

End postprocess_properties.

(** A result of the explainer and a result of a scorer for the first
    sample record, and an explanation that [orjson] rejects. *)
Definition sample_explained : value :=
  VResult (VRef 1%positive) "explanation" (VStr "vowels").
Definition sample_scored : value :=
  VResult (VRef 1%positive) "score" (VStr "0.9").
Definition sample_unserialisable : value :=
  VResult (VRef 1%positive) "explanation" (VInt 3).

(** The world the set-up leaves when it starts from the sample world. *)
Definition sample_ready : world :=
  after (@setup steady default_args sample_world).

Lemma explainer_postprocess_persists_witness :
  ∃ p data,
    effects (@explainer_postprocess steady default_args sample_explained
               sample_ready) = [Open p; Write p data].
Proof.
  destruct (@explainer_postprocess_persists steady default_args
              sample_explained sample_ready sample_explained)
    as (record & feature & explanation & data & _ & _ & _ & _ & He & _).
  { vm_compute. reflexivity. }
  by eexists _, data.
Defined.

Lemma scorer_postprocess_persists_witness :
  ∃ p data,
    effects (@scorer_postprocess steady default_args "fuzz" sample_scored
               sample_ready) = [Open p; Write p data].
Proof.
  destruct (@scorer_postprocess_persists steady default_args "fuzz"
              sample_scored sample_ready VNone)
    as (record & feature & score & data & _ & _ & _ & _ & He & _).
  { vm_compute. reflexivity. }
  by eexists _, data.
Defined.

Lemma postprocess_truncates_witness :
  ∃ p,
    effects (@explainer_postprocess steady default_args
               sample_unserialisable sample_ready) = [Open p] ∧
    files (w_fs (after (@explainer_postprocess steady default_args
                          sample_unserialisable sample_ready))) !! p
    = Some "".
Proof.
  destruct (@postprocess_truncates_before_serialising steady default_args
              sample_unserialisable sample_ready JSONEncodeError)
    as [Hex _].
  destruct Hex as (record & feature & _ & _ & He & Ha).
  { vm_compute. reflexivity. }
  { by left. }
  eexists. split; [exact He|]. rewrite Ha. cbn [w_fs files].
  apply lookup_insert_eq.
Defined.

Lemma postprocess_fails_before_opening_witness :
  ∃ p,
    @explainer_postprocess steady default_args sample_explained sample_world
    = (Raise (FileNotFoundError p), sample_world, []).
Proof.
  destruct (@postprocess_fails_before_opening steady default_args
              sample_explained sample_world
              (FileNotFoundError
                 "results/explanations/128k/default/f0.txt"))
    as [Hex _].
  destruct Hex as [[Hc|Hc]|[_ Hq]].
  { vm_compute. reflexivity. }
  { discriminate Hc. }
  { discriminate Hc. }
  eexists. exact Hq.
Defined.

Lemma postprocess_rerun_witness :
  @explainer_postprocess steady default_args sample_explained
    (after (@explainer_postprocess steady default_args sample_explained
              sample_ready))
  = (Ok sample_explained,
     after (@explainer_postprocess steady default_args sample_explained
              sample_ready),
     effects (@explainer_postprocess steady default_args sample_explained
                sample_ready)).
Proof.
  destruct (@postprocess_rerun steady default_args sample_explained
              sample_ready sample_explained) as [Hex _].
  apply Hex. vm_compute. reflexivity.
Defined.

(** ** The preprocess hook of the scorers *)

Section preprocess_properties.

(** X7. Lines 89-90: the explanation is stored on the record before the random
    examples are read. On a record without [random_examples] the hook raises
    [AttributeError] and the record keeps the explanation it has just been
    given: the update is not undone. *)
Theorem scorer_preprocess_partial_update (res : value) (w : world)
    (l : loc) (o : object) (explanation : value) :
  read_attr (w_heap w) res "record" = Some (VRef l) →
  read_attr (w_heap w) res "explanation" = Some explanation →
  w_heap w !! l = Some o →
  o !! "random_examples" = None →
  scorer_preprocess res w =
    (Raise (AttributeError "random_examples"),
     World (<[l := <["explanation" := explanation]> o]> (w_heap w)) (w_fs w),
     []).
Proof.
  intros Hr Hx Hl Hn. rewrite scorer_preprocess_spec. unfold preprocessed.
  by rewrite Hr, Hx, Hl, Hn.
Qed.

(** X8. Lines 87-92: whatever the outcome, [scorer_preprocess] touches no file
    and no directory, creates and deletes no object, changes no object other
    than the record of the result it is given, and on that record no attribute
    other than [explanation] and [extra_examples]: the feature and the random
    examples of every record stay as they are. *)
Theorem scorer_preprocess_frame (res : value) (w : world) :
  w_fs (after (scorer_preprocess res w)) = w_fs w ∧
  effects (scorer_preprocess res w) = [] ∧
  dom (w_heap (after (scorer_preprocess res w))) = dom (w_heap w) ∧
  (∀ l, read_attr (w_heap w) res "record" ≠ Some (VRef l) →
        w_heap (after (scorer_preprocess res w)) !! l = w_heap w !! l) ∧
  (∀ l name, name ≠ "explanation" → name ≠ "extra_examples" →
     read_attr (w_heap (after (scorer_preprocess res w))) (VRef l) name
     = read_attr (w_heap w) (VRef l) name).
Proof.
  rewrite scorer_preprocess_spec. unfold after, effects. cbn [fst snd w_fs
    w_heap].
  split; [done|]. split; [done|].
  unfold preprocessed.
  destruct (read_attr (w_heap w) res "record") as [record|]; [|done].
  destruct (read_attr (w_heap w) res "explanation") as [x|]; [|done].
  destruct record as [| | |l| |]; try done.
  destruct (w_heap w !! l) as [o|] eqn:Hl; [|done].
  assert (∀ o', dom (<[l := o']> (w_heap w)) = dom (w_heap w)) as Hdom.
  { intros o'. rewrite dom_insert_L.
    apply (elem_of_dom_2 (D := gset loc)) in Hl.
    apply subseteq_union_1_L. by apply singleton_subseteq_l. }
  assert (∀ o', (∀ name, name ≠ "explanation" → name ≠ "extra_examples" →
                         o' !! name = o !! name) →
            (∀ l', Some (VRef l) ≠ Some (VRef l') →
                   <[l := o']> (w_heap w) !! l' = w_heap w !! l') ∧
            (∀ l' name, name ≠ "explanation" → name ≠ "extra_examples" →
               read_attr (<[l := o']> (w_heap w)) (VRef l') name
               = read_attr (w_heap w) (VRef l') name)) as Hframe.
  { intros o' Ho'. split.
    - intros l' Hne. rewrite lookup_insert_ne; [done|]. by intros ->.
    - intros l' name H1 H2. simpl.
      destruct (decide (l = l')) as [<-|Hne].
      + rewrite lookup_insert_eq, Hl. simpl. by apply Ho'.
      + by rewrite lookup_insert_ne. }
  destruct (o !! "random_examples") as [y|]; cbn [snd].
  - split; [apply Hdom|]. apply Hframe.
    intros name H1 H2. by rewrite !lookup_insert_ne.
  - split; [apply Hdom|]. apply Hframe.
    intros name H1 H2. by rewrite !lookup_insert_ne.
Qed.

(** X9. Lines 87-92: given a result with an explanation whose record is an
    object with random examples, [scorer_preprocess] returns the record
    itself, not a copy, after it has stored the explanation of the result and
    the random examples of the record on it, as [explanation] and as
    [extra_examples]. *)
Theorem scorer_preprocess_returns_record (res : value) (w : world)
    (l : loc) (o : object) (explanation examples : value) :
  read_attr (w_heap w) res "record" = Some (VRef l) →
  read_attr (w_heap w) res "explanation" = Some explanation →
  w_heap w !! l = Some o →
  o !! "random_examples" = Some examples →
  scorer_preprocess res w =
    (Ok (VRef l),
     World (<[l := <["extra_examples" := examples]>
                     (<["explanation" := explanation]> o)]> (w_heap w))
       (w_fs w),
     []).
Proof.
  intros Hr Hx Hl Hn. rewrite scorer_preprocess_spec. unfold preprocessed.
  by rewrite Hr, Hx, Hl, Hn.
Qed.

End preprocess_properties.

(** A record that has a feature and nothing else. *)
Definition bare_world : world :=
  World {[ 1%positive := {[ "feature" := VStr "f0" ]} ]} empty_fs.

Lemma scorer_preprocess_returns_record_witness :
  outcome (scorer_preprocess sample_explained sample_world)
  = Ok (VRef 1%positive).
Proof.
  rewrite (scorer_preprocess_returns_record sample_explained sample_world
             1%positive (sample_record "f0") (VStr "vowels")
             (VList [VStr "text"]));
    [reflexivity|vm_compute; reflexivity..].
Defined.

Lemma scorer_preprocess_partial_update_witness :
  @scorer_preprocess sample_explained bare_world =
    (Raise (AttributeError "random_examples"),
     World (<[1%positive := <["explanation" := VStr "vowels"]>
                              {[ "feature" := VStr "f0" ]}]>
              (w_heap bare_world)) (w_fs bare_world),
     []).
Proof.
  apply (scorer_preprocess_partial_update sample_explained bare_world
           1%positive {[ "feature" := VStr "f0" ]} (VStr "vowels"));
    vm_compute; reflexivity.
Defined.

(** ** The set-up of [main] *)

(** Only the files that [allowed] names change; objects and existing
    directories stay. *)
Definition touch_rel (allowed : string → Prop) (w : world)
    (t : list fs_event) (w' : world) : Prop :=
  w_heap w' = w_heap w ∧
  dirs (w_fs w) ⊆ dirs (w_fs w') ∧
  ∀ p, ¬ allowed p → files (w_fs w') !! p = files (w_fs w) !! p.

Lemma touch_rel_composes allowed : composes (touch_rel allowed).
Proof.
  split.
  - by intros w.
  - intros w t1 w1 t2 w2 (Hh1 & Hd1 & Hf1) (Hh2 & Hd2 & Hf2).
    split; [congruence|]. split; [by etrans|].
    intros p Hp. by rewrite Hf2, Hf1.
Qed.

Lemma makedirs_touch allowed name exist_ok :
  respects (touch_rel allowed) (makedirs name exist_ok).
Proof.
  intros w.
  destruct (makedirs_dir_rel name exist_ok w) as (Hh & Hf & _).
  destruct (makedirs_fs_rel name exist_ok w) as (Hd & _).
  split; [done|]. split.
  - rewrite Hd. apply union_subseteq_l.
  - intros p _. by rewrite Hf.
Qed.

Section setup_properties.
Context `{!Collaborators} (args : Args).

Lemma write_config_ok dir w :
  outcome (write_config dir w) = Ok tt →
  open_error (w_fs w) (config_path dir) = None ∧
  write_config dir w =
    (Ok tt,
     World (w_heap w)
       (Fs (dirs (w_fs w))
          (<[config_path dir := config_json]> (files (w_fs w)))),
     [Open (config_path dir); Write (config_path dir) config_json]).
Proof.
  rewrite write_config_spec. by destruct (open_error _ _).
Qed.

Lemma write_config_touch (allowed : string → Prop) dir :
  allowed (config_path dir) →
  respects (touch_rel allowed) (write_config dir).
Proof.
  intros Ha w. rewrite write_config_spec.
  destruct (open_error _ _); [by apply touch_rel_composes|].
  split; [done|]. split; [done|]. cbn. intros p Hp.
  apply lookup_insert_ne. by intros <-.
Qed.

Lemma makedirs_keeps name exist_ok w :
  w_heap (after (makedirs name exist_ok w)) = w_heap w ∧
  files (w_fs (after (makedirs name exist_ok w))) = files (w_fs w).
Proof. by destruct (makedirs_dir_rel name exist_ok w) as (? & ? & _). Qed.

(** The destinations of the three copies of the configuration. *)
Definition config_paths : list string :=
  [ config_path (explanations_dir args);
    config_path (scores_dir args "detection");
    config_path (scores_dir args "fuzz") ].

(** X10. Lines 67-108: whatever the outcome, the set-up changes no object,
    removes no directory and changes no file other than the three copies of
    the configuration; files that were there, results of an earlier run among
    them, are left as they are. *)
Theorem setup_frame (w : world) :
  w_heap (after (setup args w)) = w_heap w ∧
  dirs (w_fs w) ⊆ dirs (w_fs (after (setup args w))) ∧
  ∀ p, p ∉ config_paths →
       files (w_fs (after (setup args w))) !! p = files (w_fs w) !! p.
Proof.
  pose proof (touch_rel_composes (.∈ config_paths)) as HR.
  assert (∀ dir, config_path dir ∈ config_paths →
                 respects (touch_rel (.∈ config_paths)) (write_config dir))
    as Hcfg.
  { intros dir Hin. by apply write_config_touch. }
  assert (respects (touch_rel (.∈ config_paths)) (setup args)) as Hs.
  { unfold setup.
    apply respects_bind; [done|apply makedirs_touch|intros _].
    apply respects_bind; [done| |intros c].
    { intros w'. rewrite use_client_spec.
      destruct (load_client args); apply HR. }
    apply respects_bind; [done|apply Hcfg|intros _].
    { unfold config_paths. by left. }
    apply respects_bind; [done|apply makedirs_touch|intros _].
    apply respects_bind; [done|apply makedirs_touch|intros _].
    apply respects_bind; [done|apply Hcfg|intros _].
    { unfold config_paths. right. by left. }
    apply respects_bind; [done|apply Hcfg|intros _].
    { unfold config_paths. right. right. by left. }
    by apply respects_ret. }
  apply Hs.
Qed.

(** X11. Lines 54-57 and 67-108: a set-up that returns was given one of the
    two known quantisations and hands on the client chosen for it; the three
    result directories exist, each holds a file [experiment_config.json] with
    the serialised configuration, and the files are otherwise those that were
    there before. *)
Theorem setup_result (w : world) (c : client) :
  outcome (setup args w) = Ok c →
  ((quantization args = "awq" ∧
    c = Offline "hugging-quants/Meta-Llama-3.1-70B-Instruct-AWQ-INT4" None) ∨
   (quantization args = "none" ∧
    c = Offline "meta-llama/Meta-Llama-3.1-70B-Instruct" (Some 2))) ∧
  (∀ d, d ∈ [explanations_dir args; scores_dir args "detection";
             scores_dir args "fuzz"] →
        isdir (w_fs (after (setup args w))) d = true ∧
        files (w_fs (after (setup args w))) !! config_path d
        = Some config_json) ∧
  files (w_fs (after (setup args w)))
  = <[config_path (scores_dir args "fuzz") := config_json]>
      (<[config_path (scores_dir args "detection") := config_json]>
         (<[config_path (explanations_dir args) := config_json]>
            (files (w_fs w)))).
Proof.
  intros Hs.
  destruct (setup_dirs args w c Hs) as (Hd1 & Hd2 & Hd3).
  assert (load_client args = Some c ∧
          files (w_fs (after (setup args w)))
          = <[config_path (scores_dir args "fuzz") := config_json]>
              (<[config_path (scores_dir args "detection") := config_json]>
                 (<[config_path (explanations_dir args) := config_json]>
                    (files (w_fs w))))) as [Hc Hfiles].
  { clear Hd1 Hd2 Hd3. revert Hs. unfold setup. intros Hs.
    apply bind_ok_inv in Hs as ([] & _ & Ha & ->).
    apply bind_ok_inv in Ha as (c' & Hc & Hb & ->).
    apply bind_ok_inv in Hb as ([] & H1 & Hb & ->).
    apply bind_ok_inv in Hb as ([] & _ & Hb & ->).
    apply bind_ok_inv in Hb as ([] & _ & Hb & ->).
    apply bind_ok_inv in Hb as ([] & H2 & Hb & ->).
    apply bind_ok_inv in Hb as ([] & H3 & Hb & ->).
    rewrite outcome_ret in Hb. injection Hb as ->.
    apply write_config_ok in H1 as [_ E1].
    apply write_config_ok in H2 as [_ E2].
    apply write_config_ok in H3 as [_ E3].
    rewrite after_ret. split.
    - rewrite use_client_spec in Hc. destruct (load_client args); [|done].
      by injection Hc as ->.
    - rewrite E3. cbn [after fst snd w_fs files]. f_equal.
      rewrite E2. cbn [after fst snd w_fs files]. f_equal.
      rewrite !(proj2 (makedirs_keeps _ _ _)).
      rewrite E1. cbn [after fst snd w_fs files]. f_equal.
      rewrite after_use_client.
      by rewrite (proj2 (makedirs_keeps _ _ _)). }
  destruct (config_paths_distinct args) as (N12 & N13 & N23).
  split; [|split; [|done]].
  - unfold load_client in Hc. repeat case_bool_decide; simplify_eq; auto.
  - intros d Hd. rewrite Hfiles.
    apply elem_of_cons in Hd as [->|Hd]; [|apply elem_of_cons in Hd
      as [->|Hd]; [|apply list_elem_of_singleton in Hd as ->]].
    + split; [done|]. rewrite !lookup_insert_ne by done.
      apply lookup_insert_eq.
    + split; [done|]. rewrite lookup_insert_ne by done.
      apply lookup_insert_eq.
    + split; [done|]. apply lookup_insert_eq.
Qed.

End setup_properties.

(** *** Running the set-up again *)

(** [p] is a regular file in a directory, and neither is at the same time
    a file and a directory. *)
Definition settled_file (fs : filesystem) (p : string) : Prop :=
  isfile fs p = true ∧ isdir fs p = false ∧
  isdir fs (dirname p) = true ∧ isfile fs (dirname p) = false.

(** Directories stay directories, and what is a file only, or a directory
    only, stays so. *)
Definition kind_rel (w : world) (t : list fs_event) (w' : world) : Prop :=
  (∀ d, isdir (w_fs w) d = true → isdir (w_fs w') d = true) ∧
  (∀ p, isfile (w_fs w) p = true → isdir (w_fs w) p = false →
        isfile (w_fs w') p = true ∧ isdir (w_fs w') p = false) ∧
  (∀ d, isdir (w_fs w) d = true → isfile (w_fs w) d = false →
        isfile (w_fs w') d = false).

Lemma kind_rel_composes : composes kind_rel.
Proof.
  split.
  - intros w. by repeat split.
  - intros w t1 w1 t2 w2 (Hd1 & Hf1 & Hn1) (Hd2 & Hf2 & Hn2).
    split; [|split].
    + intros d Hd. by apply Hd2, Hd1.
    + intros p Hp Hnd. destruct (Hf1 p Hp Hnd) as [Hp1 Hnd1].
      by apply Hf2.
    + intros d Hd Hnf. apply Hn2; [by apply Hd1|by apply Hn1].
Qed.

Lemma kind_rel_settled w t w' p :
  kind_rel w t w' → settled_file (w_fs w) p → settled_file (w_fs w') p.
Proof.
  intros (Hd & Hf & Hn) (H1 & H2 & H3 & H4).
  destruct (Hf p H1 H2) as [H1' H2'].
  split; [done|]. split; [done|]. split; [by apply Hd|by apply Hn].
Qed.

Lemma settled_file_open fs p : settled_file fs p → open_error fs p = None.
Proof.
  intros (_ & H2 & H3 & H4). unfold open_error. by rewrite H2, H4, H3.
Qed.

Lemma isdir_add fs d d' :
  isdir (Fs ({[d']} ∪ dirs fs) (files fs)) d
  = isdir fs d || bool_decide (d = d').
Proof.
  unfold isdir. simpl. rewrite <- orb_assoc. f_equal.
  rewrite <- bool_decide_or. apply bool_decide_ext.
  rewrite elem_of_union, elem_of_singleton. tauto.
Qed.

Lemma mkdir_kind_rel d : respects kind_rel (mkdir d).
Proof.
  intros w. rewrite mkdir_spec.
  destruct (mkdir_error (w_fs w) d) eqn:He; [apply kind_rel_composes|].
  unfold mkdir_error in He.
  destruct (isdir (w_fs w) d || isfile (w_fs w) d) eqn:Hex; [done|].
  apply orb_false_iff in Hex as [Hnd Hnf].
  unfold kind_rel, after. cbn [fst snd w_fs]. split; [|split].
  - intros d' Hd'. rewrite isdir_add. by rewrite Hd'.
  - intros p Hp Hpd. split; [done|]. rewrite isdir_add, Hpd. simpl.
    apply bool_decide_eq_false_2. intros ->. congruence.
  - intros d' _ Hd'. done.
Qed.

Lemma mkdir_missing_kind_rel ds : respects kind_rel (mkdir_missing ds).
Proof.
  induction ds as [|d ds IH]; simpl.
  - apply respects_ret, kind_rel_composes.
  - apply respects_bind; [apply kind_rel_composes| |].
    + apply respects_get_fs, kind_rel_composes.
    + intros fs. apply respects_bind; [apply kind_rel_composes| |done].
      destruct (isdir fs d);
        [apply respects_ret, kind_rel_composes|apply mkdir_kind_rel].
Qed.

Lemma makedirs_kind_rel name exist_ok :
  respects kind_rel (makedirs name exist_ok).
Proof.
  unfold makedirs.
  apply respects_bind;
    [apply kind_rel_composes|apply mkdir_missing_kind_rel|].
  intros _. apply respects_bind; [apply kind_rel_composes| |].
  - apply respects_get_fs, kind_rel_composes.
  - intros fs. destruct (isdir fs name); [|apply mkdir_kind_rel].
    destruct exist_ok;
      [apply respects_ret|apply respects_raise]; apply kind_rel_composes.
Qed.

Lemma isfile_insert fs p q data :
  isfile (Fs (dirs fs) (<[q := data]> (files fs))) p
  = isfile fs p || bool_decide (p = q).
Proof.
  unfold isfile. simpl. destruct (decide (p = q)) as [->|Hne].
  - rewrite lookup_insert_eq, (bool_decide_eq_true_2 (q = q)) by done.
    rewrite orb_true_r. by apply bool_decide_eq_true_2.
  - rewrite lookup_insert_ne by done.
    rewrite (bool_decide_eq_false_2 (p = q)) by done.
    by rewrite orb_false_r.
Qed.

Lemma mkdir_missing_noop ds w :
  (∀ d, d ∈ ds → isdir (w_fs w) d = true) →
  mkdir_missing ds w = (Ok tt, w, []).
Proof.
  induction ds as [|d ds IH]; intros Hds; [done|]. simpl.
  unfold bind at 1, get_fs. lazy beta iota.
  rewrite (Hds d) by by left.
  unfold bind at 1, ret. lazy beta iota.
  rewrite IH; [done|]. intros d' Hd'. apply Hds. by right.
Qed.

Lemma makedirs_noop name w :
  (∀ d, d ∈ ancestors name → isdir (w_fs w) d = true) →
  isdir (w_fs w) name = true →
  makedirs name true w = (Ok tt, w, []).
Proof.
  intros Hds Hn. unfold makedirs.
  unfold bind at 1. rewrite mkdir_missing_noop by done. lazy beta iota.
  unfold bind, get_fs. lazy beta iota. by rewrite Hn.
Qed.

Lemma mkdir_missing_isdir ds w :
  outcome (mkdir_missing ds w) = Ok tt →
  ∀ d, d ∈ ds → isdir (w_fs (after (mkdir_missing ds w))) d = true.
Proof.
  revert w. induction ds as [|d ds IH]; intros w Hs d' Hd'.
  { by apply elem_of_nil in Hd'. }
  simpl in Hs |- *.
  apply bind_ok_inv in Hs as (fs & Hfs & Hs & ->).
  unfold get_fs, outcome, after in Hfs. simpl in Hfs. injection Hfs as <-.
  change (after (get_fs w)) with w in *.
  apply bind_ok_inv in Hs as ([] & H1 & Hs & ->).
  apply elem_of_cons in Hd' as [->|Hd']; [|by apply IH].
  eapply fs_rel_isdir; [apply mkdir_missing_fs_rel|].
  destruct (isdir (w_fs w) d) eqn:Hd; [done|].
  rewrite mkdir_spec in H1 |- *.
  destruct (mkdir_error (w_fs w) d); [done|].
  unfold after. cbn [fst snd w_fs]. rewrite isdir_add.
  rewrite (bool_decide_eq_true_2 (d = d)) by done. apply orb_true_r.
Qed.

Lemma makedirs_chain name w :
  outcome (makedirs name true w) = Ok tt →
  (∀ d, d ∈ ancestors name →
        isdir (w_fs (after (makedirs name true w))) d = true) ∧
  isdir (w_fs (after (makedirs name true w))) name = true.
Proof.
  intros Hs. split; [|by apply makedirs_isdir].
  revert Hs. unfold makedirs. intros Hs.
  apply bind_ok_inv in Hs as ([] & H1 & Hs & ->).
  intros d Hd. pose proof (mkdir_missing_isdir _ _ H1 d Hd) as Hdir.
  set (w1 := after (mkdir_missing (ancestors name) w)) in *.
  apply fs_rel_isdir with (w := w1)
    (t := effects ((let* fs := get_fs in
                    if isdir fs name then ret tt else mkdir name) w1));
    [|done].
  apply respects_bind; [apply fs_rel_composes| |].
  - apply respects_get_fs, fs_rel_composes.
  - intros fs. destruct (isdir fs name); [|apply mkdir_fs_rel].
    apply respects_ret, fs_rel_composes.
Qed.

Lemma kind_rel_step {A} (m : M A) (w : world) :
  respects kind_rel m →
  (∀ d, isdir (w_fs w) d = true → isdir (w_fs (after (m w))) d = true) ∧
  (∀ p, settled_file (w_fs w) p → settled_file (w_fs (after (m w))) p).
Proof.
  intros Hm. split.
  - apply (Hm w).
  - intros p. apply kind_rel_settled with (t := effects (m w)), Hm.
Qed.

Section setup_again.
Context `{!Collaborators} (args : Args).

Lemma config_path_ne_empty dir : config_path dir ≠ "".
Proof.
  intros Heq. apply (f_equal String.length) in Heq.
  unfold config_path in Heq. rewrite str_app_length in Heq. simpl in Heq.
  lia.
Qed.

Lemma write_config_kind_rel dir : respects kind_rel (write_config dir).
Proof.
  intros w. rewrite write_config_spec.
  destruct (open_error (w_fs w) (config_path dir)) eqn:Ho;
    [apply kind_rel_composes|].
  apply open_error_not_dir in Ho.
  unfold kind_rel, after. cbn [fst snd w_fs]. split; [|split].
  - done.
  - intros p Hp Hnd. split; [|done]. rewrite isfile_insert. by rewrite Hp.
  - intros d Hd Hnf. rewrite isfile_insert, Hnf. simpl.
    apply bool_decide_eq_false_2. intros ->. congruence.
Qed.

Lemma write_config_settled dir w :
  outcome (write_config dir w) = Ok tt →
  settled_file (w_fs (after (write_config dir w))) (config_path dir) ∧
  files (w_fs (after (write_config dir w))) !! config_path dir
  = Some config_json.
Proof.
  intros [Ho ->]%write_config_ok. unfold after. cbn [fst snd w_fs].
  split; [|apply lookup_insert_eq].
  pose proof (open_error_not_dir _ _ Ho) as Hnd.
  unfold open_error in Ho. rewrite Hnd in Ho.
  destruct (isfile (w_fs w) (dirname (config_path dir))) eqn:Hf; [done|].
  destruct (isdir (w_fs w) (dirname (config_path dir))) eqn:Hd; [|done].
  split; [|split; [done|split; [done|]]].
  - rewrite isfile_insert. rewrite (bool_decide_eq_true_2 _ eq_refl).
    apply orb_true_r.
  - rewrite isfile_insert, Hf. simpl. apply bool_decide_eq_false_2.
    apply dirname_ne, config_path_ne_empty.
Qed.

Lemma write_config_again dir w :
  settled_file (w_fs w) (config_path dir) →
  files (w_fs w) !! config_path dir = Some config_json →
  write_config dir w =
    (Ok tt, w,
     [Open (config_path dir); Write (config_path dir) config_json]).
Proof.
  intros Hs Hf. rewrite write_config_spec, (settled_file_open _ _ Hs).
  rewrite insert_id by done. by destruct w as [h [ds fs]].
Qed.

(** X12. Lines 67-108: the set-up can be run again over the results of a
    set-up that has returned: [exist_ok=True] makes the three calls of
    [os.makedirs] do nothing and mode [w] makes the three writes replace the
    configuration by itself. The second run returns the same client, creates
    no directory, and leaves the objects, the directories and every file as
    they were. *)
Theorem setup_rerun (w : world) (c : client) :
  outcome (setup args w) = Ok c →
  setup args (after (setup args w)) =
    (Ok c, after (setup args w),
     [Open (config_path (explanations_dir args));
      Write (config_path (explanations_dir args)) config_json;
      Open (config_path (scores_dir args "detection"));
      Write (config_path (scores_dir args "detection")) config_json;
      Open (config_path (scores_dir args "fuzz"));
      Write (config_path (scores_dir args "fuzz")) config_json]).
Proof.
  intros Hs.
  assert (load_client args = Some c) as Hc.
  { revert Hs. unfold setup. intros Hs.
    apply bind_ok_inv in Hs as ([] & _ & Ha & _).
    apply bind_ok_inv in Ha as (c' & Hc & Hb & _).
    rewrite after_use_client in Hb.
    apply bind_ok_inv in Hb as ([] & _ & Hb & _).
    apply bind_ok_inv in Hb as ([] & _ & Hb & _).
    apply bind_ok_inv in Hb as ([] & _ & Hb & _).
    apply bind_ok_inv in Hb as ([] & _ & Hb & _).
    apply bind_ok_inv in Hb as ([] & _ & Hb & _).
    rewrite outcome_ret in Hb. injection Hb as ->.
    rewrite use_client_spec in Hc. destruct (load_client args); [|done].
    by injection Hc as ->. }
  pose proof (λ name w', kind_rel_step (makedirs name true) w'
                           (makedirs_kind_rel name true)) as Kmk.
  pose proof (λ dir w', kind_rel_step (write_config dir) w'
                          (write_config_kind_rel dir)) as Kcfg.
  revert Hs. unfold setup at 1 3 4. intros Hs.
  apply bind_ok_inv in Hs as ([] & H1 & Hs & ->).
  apply bind_ok_inv in Hs as (c' & _ & Hs & ->).
  rewrite after_use_client in Hs |- *.
  apply bind_ok_inv in Hs as ([] & H2 & Hs & ->).
  apply bind_ok_inv in Hs as ([] & H3 & Hs & ->).
  apply bind_ok_inv in Hs as ([] & H4 & Hs & ->).
  apply bind_ok_inv in Hs as ([] & H5 & Hs & ->).
  apply bind_ok_inv in Hs as ([] & H6 & _ & ->).
  rewrite after_ret.
  apply makedirs_chain in H1 as [A1 D1].
  apply makedirs_chain in H3 as [A3 D3].
  apply makedirs_chain in H4 as [A4 D4].
  apply write_config_settled in H2 as [S2 F2].
  apply write_config_settled in H5 as [S5 F5].
  apply write_config_settled in H6 as [S6 F6].
  set (w1 := after (makedirs (explanations_dir args) true w)) in *.
  set (w2 := after (write_config (explanations_dir args) w1)) in *.
  set (w3 := after (makedirs (scores_dir args "detection") true w2)) in *.
  set (w4 := after (makedirs (scores_dir args "fuzz") true w3)) in *.
  set (w5 := after (write_config (scores_dir args "detection") w4)) in *.
  set (w6 := after (write_config (scores_dir args "fuzz") w5)) in *.
  destruct (config_paths_distinct args) as (N12 & N13 & N23).
  (* what the first run established still holds at its end *)
  assert (∀ d, isdir (w_fs w1) d = true → isdir (w_fs w6) d = true) as M1.
  { intros d Hd. apply Kcfg, Kcfg, Kmk, Kmk, Kcfg, Hd. }
  assert (∀ d, isdir (w_fs w3) d = true → isdir (w_fs w6) d = true) as M3.
  { intros d Hd. apply Kcfg, Kcfg, Kmk, Hd. }
  assert (∀ d, isdir (w_fs w4) d = true → isdir (w_fs w6) d = true) as M4.
  { intros d Hd. apply Kcfg, Kcfg, Hd. }
  assert (settled_file (w_fs w6) (config_path (explanations_dir args)))
    as S2'.
  { apply Kcfg, Kcfg, Kmk, Kmk, S2. }
  assert (settled_file (w_fs w6)
            (config_path (scores_dir args "detection"))) as S5'.
  { apply Kcfg, S5. }
  assert (∀ dir w' p, p ≠ config_path dir →
            files (w_fs (after (write_config dir w'))) !! p
            = files (w_fs w') !! p) as Ocfg.
  { intros dir w' p Hne.
    by apply (write_config_touch (λ q, q = config_path dir) dir eq_refl w'). }
  assert (∀ name w', files (w_fs (after (makedirs name true w')))
                     = files (w_fs w')) as Omk.
  { intros name w'. apply makedirs_keeps. }
  assert (files (w_fs w6) !! config_path (explanations_dir args)
          = Some config_json) as F2'.
  { subst w6 w5 w4 w3. by rewrite !Ocfg, !Omk. }
  assert (files (w_fs w6) !! config_path (scores_dir args "detection")
          = Some config_json) as F5'.
  { subst w6. by rewrite Ocfg. }
  clearbody w6. clear - Hc A1 D1 A3 D3 A4 D4 M1 M3 M4 S2' S5' S6 F2' F5' F6.
  unfold setup.
  unfold bind at 1. rewrite makedirs_noop by auto. lazy beta iota.
  unfold bind at 1. rewrite use_client_spec, Hc. lazy beta iota.
  unfold bind at 1. rewrite write_config_again by done. lazy beta iota.
  unfold bind at 1. rewrite makedirs_noop by auto. lazy beta iota.
  unfold bind at 1. rewrite makedirs_noop by auto. lazy beta iota.
  unfold bind at 1. rewrite write_config_again by done. lazy beta iota.
  unfold bind at 1. rewrite write_config_again by done. lazy beta iota.
  reflexivity.
Qed.
End setup_again.

(** ** The client *)

Section unknown_quantization.
Context `{!Collaborators} (args : Args) (items : list value)
  (siblings_proceed : bool).

(** X13. Lines 54-57, 67 and 69-71: with a quantisation other than [awq] and
    [none] neither branch binds [client]. [main] then creates the explanations
    directory and stops at the first use of [client] with [UnboundLocalError]
    (or earlier, when the directory cannot be created): no file is opened or
    written, and the pipeline is not run, whatever the loader holds. *)
Theorem unknown_quantization_crashes (sched : list action) (w : world) :
  quantization args ≠ "awq" →
  quantization args ≠ "none" →
  main args items siblings_proceed sched w =
    Some (Crashed
            (match outcome (makedirs (explanations_dir args) true w) with
             | Ok _ => UnboundLocalError "client"
             | Raise e => e
             end)
            (after (makedirs (explanations_dir args) true w))
            (Sys <$> effects (makedirs (explanations_dir args) true w))) ∧
  w_heap (after (makedirs (explanations_dir args) true w)) = w_heap w ∧
  files (w_fs (after (makedirs (explanations_dir args) true w)))
  = files (w_fs w) ∧
  Forall is_mkdir (effects (makedirs (explanations_dir args) true w)).
Proof.
  intros Hawq Hnone. split; [|apply makedirs_dir_rel].
  assert (load_client args = None) as Hc.
  { unfold load_client. by rewrite !bool_decide_eq_false_2. }
  unfold main, setup. unfold bind at 1.
  unfold outcome, after, effects.
  destruct (makedirs (explanations_dir args) true w) as [[[[]|e] w1] t1];
    [|done].
  unfold bind at 1. rewrite use_client_spec, Hc. cbn [fst snd].
  by rewrite app_nil_r.
Qed.

End unknown_quantization.

(** A command line that asks for a quantisation the script does not
    know. *)
Definition unknown_args : Args :=
  {| model := "128k"; experiment_name := "default"; quantization := "int8" |}.

Lemma unknown_quantization_crashes_witness :
  ∃ w' log,
    @main steady unknown_args sample_items false sample_schedule sample_world
    = Some (Crashed (UnboundLocalError "client") w' log).
Proof.
  destruct (@unknown_quantization_crashes steady unknown_args sample_items
              false sample_schedule sample_world) as [Hm _];
    [done|done|].
  assert (outcome (makedirs (explanations_dir unknown_args) true
                     sample_world) = Ok tt) as Hmk
    by (vm_compute; reflexivity).
  rewrite Hmk in Hm. eexists _, _. exact Hm.
Defined.

Lemma setup_result_witness :
  files (w_fs (after (@setup steady default_args sample_world)))
    !! "results/scores/128k/default/fuzz/experiment_config.json"
  = Some "{}".
Proof.
  destruct (@setup_result steady default_args sample_world sample_client)
    as (_ & Hd & _).
  { vm_compute. reflexivity. }
  apply (Hd (scores_dir default_args "fuzz")).
  right. right. by left.
Defined.

Lemma setup_rerun_witness :
  ∃ t, @setup steady default_args
         (after (@setup steady default_args sample_world))
       = (Ok sample_client, after (@setup steady default_args sample_world),
          t) ∧
       mkdirs t = [].
Proof.
  eexists. split.
  - apply (@setup_rerun steady default_args sample_world sample_client).
    vm_compute. reflexivity.
  - reflexivity.
Defined.

(** ** Destinations *)

Section destination_properties.
Context `{!Collaborators} (args : Args).

(** X14. The f-strings of lines 62, 81, 96, 104 and 107: for one command line,
    the explanation file and the two score files of a feature are three
    different paths, two features share a destination of a kind only when they
    render as the same text, and no destination of an item is one of the three
    configuration files. *)
Theorem destinations_distinct (f1 f2 : string) :
  (explanation_path args f1 = explanation_path args f2 ↔ f1 = f2) ∧
  (∀ score_dir,
     score_path args score_dir f1 = score_path args score_dir f2 ↔ f1 = f2) ∧
  (∀ score_dir, explanation_path args f1 ≠ score_path args score_dir f2) ∧
  score_path args "detection" f1 ≠ score_path args "fuzz" f2 ∧
  (∀ p, p ∈ [explanation_path args f1; score_path args "detection" f1;
             score_path args "fuzz" f1] →
        p ∉ config_paths args).
Proof.
  split; [|split; [|split; [|split]]].
  - split; [apply explanation_path_inj|by intros ->].
  - intros score_dir. split; [apply score_path_inj|by intros ->].
  - intros score_dir. apply explanation_score_path_ne.
  - apply detection_fuzz_path_ne.
  - intros p Hp Hc.
    assert (item_path args p) as Hitem.
    { exists f1. apply elem_of_cons in Hp as [->|Hp]; [by left|].
      apply elem_of_cons in Hp as [->|Hp]; [by right; left|].
      apply list_elem_of_singleton in Hp as ->. by right; right. }
    unfold config_paths in Hc.
    apply elem_of_cons in Hc as [->|Hc].
    { by eapply item_path_not_config; [done|left|]. }
    apply elem_of_cons in Hc as [->|Hc].
    { by eapply item_path_not_config; [done|right; left|]. }
    apply list_elem_of_singleton in Hc as ->.
    by eapply item_path_not_config; [done|right; right|].
Qed.

End destination_properties.

(** ** From the set-up to the hooks *)

(** A name without a separator: a plain file name. *)
Fixpoint no_slash (s : string) : bool :=
  match s with
  | EmptyString => true
  | String c s' => negb (is_slash c) && no_slash s'
  end.

Lemma no_slash_app a b : no_slash (a +:+ b) = no_slash a && no_slash b.
Proof.
  induction a as [|c a IH]; [done|].
  rewrite str_app_cons. simpl. by rewrite IH, andb_assoc.
Qed.

Lemma str_app_ne_empty_r (a b : string) : b ≠ "" → a +:+ b ≠ "".
Proof.
  intros Hb Heq. apply (f_equal String.length) in Heq.
  rewrite str_app_length in Heq. destruct b; [done|]. simpl in Heq. lia.
Qed.

Lemma last_is_slash_app a b :
  b ≠ "" → last_is_slash (a +:+ b) = last_is_slash b.
Proof.
  intros Hb. induction a as [|c a IH]; [done|].
  rewrite str_app_cons. simpl.
  destruct (a +:+ b) as [|c' ab] eqn:Hab; [|done].
  destruct a; [|by rewrite str_app_cons in Hab].
  by rewrite str_app_nil_l in Hab.
Qed.

Lemma ancestors_from_app acc p q :
  ancestors_from acc (p +:+ q)
  = ancestors_from acc p ++ ancestors_from (acc +:+ p) q.
Proof.
  revert acc. induction p as [|c p IH]; intros acc.
  - by rewrite str_app_nil_l, str_app_nil_r.
  - rewrite str_app_cons. simpl. rewrite IH, <- app_assoc.
    do 3 f_equal. rewrite str_app_assoc. by rewrite str_app_cons.
Qed.

Lemma ancestors_from_plain acc name :
  no_slash name = true → ancestors_from acc name = [].
Proof.
  revert acc. induction name as [|c name IH]; intros acc Hn; [done|].
  simpl in Hn |- *. apply andb_true_iff in Hn as [Hc Hn].
  apply negb_true_iff in Hc. rewrite Hc. simpl. by apply IH.
Qed.

(** [os.path.dirname] of a plain name joined to a directory. *)
Lemma dirname_join (d name : string) :
  d ≠ "" → last_is_slash d = false → no_slash name = true →
  dirname (d +:+ "/" +:+ name) = d.
Proof.
  intros Hd Hl Hn. unfold dirname, ancestors.
  rewrite ancestors_from_app, str_app_nil_l, str_app_cons. simpl.
  rewrite Hl. rewrite (bool_decide_eq_false_2 (d = "") Hd). simpl.
  rewrite str_app_nil_l. rewrite (ancestors_from_plain _ _ Hn).
  apply last_last.
Qed.

(** No path is a file and a directory at the same time; the working
    directory (the empty path) is a directory. *)
Definition wf_fs (fs : filesystem) : Prop :=
  ∀ p, isdir fs p = true → isfile fs p = false.

Definition wf_rel (w : world) (t : list fs_event) (w' : world) : Prop :=
  wf_fs (w_fs w) → wf_fs (w_fs w').

Lemma wf_rel_composes : composes wf_rel.
Proof.
  split.
  - by intros w Hw.
  - intros w t1 w1 t2 w2 H1 H2 Hw. by apply H2, H1.
Qed.

Lemma mkdir_wf_rel d : respects wf_rel (mkdir d).
Proof.
  intros w. rewrite mkdir_spec.
  destruct (mkdir_error (w_fs w) d) eqn:He; [apply wf_rel_composes|].
  unfold mkdir_error in He.
  destruct (isdir (w_fs w) d || isfile (w_fs w) d) eqn:Hex; [done|].
  apply orb_false_iff in Hex as [Hnd Hnf].
  unfold wf_rel, after. cbn [fst snd w_fs]. intros Hwf p.
  rewrite isdir_add. intros [Hp|Hp%bool_decide_eq_true]%orb_true_iff.
  - by apply Hwf.
  - by subst p.
Qed.

Lemma mkdir_missing_wf_rel ds : respects wf_rel (mkdir_missing ds).
Proof.
  induction ds as [|d ds IH]; simpl.
  - apply respects_ret, wf_rel_composes.
  - apply respects_bind; [apply wf_rel_composes| |].
    + apply respects_get_fs, wf_rel_composes.
    + intros fs. apply respects_bind; [apply wf_rel_composes| |done].
      destruct (isdir fs d);
        [apply respects_ret, wf_rel_composes|apply mkdir_wf_rel].
Qed.

Lemma makedirs_wf_rel name exist_ok :
  respects wf_rel (makedirs name exist_ok).
Proof.
  unfold makedirs.
  apply respects_bind; [apply wf_rel_composes|apply mkdir_missing_wf_rel|].
  intros _. apply respects_bind; [apply wf_rel_composes| |].
  - apply respects_get_fs, wf_rel_composes.
  - intros fs. destruct (isdir fs name); [|apply mkdir_wf_rel].
    destruct exist_ok;
      [apply respects_ret|apply respects_raise]; apply wf_rel_composes.
Qed.

(** Opening a file that is not a directory keeps the file system well
    formed. *)
Lemma wf_fs_insert fs p data :
  wf_fs fs → isdir fs p = false →
  wf_fs (Fs (dirs fs) (<[p := data]> (files fs))).
Proof.
  intros Hwf Hp q Hq. rewrite isfile_insert.
  change (isdir (Fs (dirs fs) (<[p := data]> (files fs))) q)
    with (isdir fs q) in Hq.
  rewrite (Hwf q Hq). simpl. apply bool_decide_eq_false_2.
  intros ->. congruence.
Qed.

Section readiness.
Context `{!Collaborators} (args : Args).

Lemma write_config_wf_rel dir : respects wf_rel (write_config dir).
Proof.
  intros w. rewrite write_config_spec.
  destruct (open_error (w_fs w) (config_path dir)) eqn:Ho;
    [apply wf_rel_composes|].
  apply open_error_not_dir in Ho.
  unfold wf_rel, after. cbn [fst snd w_fs]. intros Hwf.
  by apply wf_fs_insert.
Qed.

Lemma setup_wf_rel : respects wf_rel (setup args).
Proof.
  pose proof wf_rel_composes as HR.
  unfold setup.
  apply respects_bind; [done|apply makedirs_wf_rel|intros _].
  apply respects_bind; [done| |intros c].
  { intros w. rewrite use_client_spec. destruct (load_client args); apply HR. }
  apply respects_bind; [done|apply write_config_wf_rel|intros _].
  apply respects_bind; [done|apply makedirs_wf_rel|intros _].
  apply respects_bind; [done|apply makedirs_wf_rel|intros _].
  apply respects_bind; [done|apply write_config_wf_rel|intros _].
  apply respects_bind; [done|apply write_config_wf_rel|intros _].
  by apply respects_ret.
Qed.

(** The result directories are in place and nothing is in the way of the
    files that go into them. *)
Definition ready (fs : filesystem) : Prop :=
  wf_fs fs ∧
  isdir fs (explanations_dir args) = true ∧
  isdir fs (scores_dir args "detection") = true ∧
  isdir fs (scores_dir args "fuzz") = true.

Lemma persist_ready path_of field answer res w :
  ready (w_fs w) → ready (w_fs (after (persist path_of field answer res w))).
Proof.
  intros Hr.
  assert (∀ p data, open_error (w_fs w) p = None →
            ready (Fs (dirs (w_fs w)) (<[p := data]> (files (w_fs w)))))
    as Hins.
  { intros p data Ho%open_error_not_dir.
    destruct Hr as (Hwf & H1 & H2 & H3).
    split; [by apply wf_fs_insert|done]. }
  destruct (outcome (persist path_of field answer res w)) as [x|e] eqn:Ho.
  - apply persist_ok in Ho
      as (record & feature & out & data & _ & _ & Hop & _ & _ & ->).
    by apply Hins.
  - apply persist_raise in Ho
      as [[-> _]|(record & feature & _ & _ & Hop & _ & ->)]; [done|].
    by apply Hins.
Qed.

(** The destination of an item lies directly in its result directory when
    the feature renders as a plain name. *)
Lemma explanation_path_dirname f :
  last_is_slash (explanations_dir args) = false →
  no_slash f = true →
  dirname (explanation_path args f) = explanations_dir args.
Proof.
  intros Hl Hf.
  replace (explanation_path args f)
    with (explanations_dir args +:+ "/" +:+ (f +:+ ".txt")).
  - apply dirname_join; [|done|].
    + unfold explanations_dir. by rewrite !str_app_cons.
    + rewrite no_slash_app. by rewrite Hf.
  - unfold explanation_path, explanations_dir.
    by rewrite !str_app_assoc.
Qed.

Lemma score_path_dirname score_dir f :
  score_dir ≠ "" → last_is_slash score_dir = false →
  no_slash f = true →
  dirname (score_path args score_dir f) = scores_dir args score_dir.
Proof.
  intros Hne Hl Hf.
  replace (score_path args score_dir f)
    with (scores_dir args score_dir +:+ "/" +:+ (f +:+ ".txt")).
  - apply dirname_join.
    + unfold scores_dir. by rewrite !str_app_cons.
    + unfold scores_dir.
      rewrite !last_is_slash_app; auto using str_app_ne_empty_r.
    + rewrite no_slash_app. by rewrite Hf.
  - unfold score_path, scores_dir.
    by rewrite !str_app_assoc.
Qed.

Lemma setup_ready w c :
  wf_fs (w_fs w) → outcome (setup args w) = Ok c →
  ready (w_fs (after (setup args w))).
Proof.
  intros Hwf Hs. split; [by apply setup_wf_rel|].
  by apply setup_dirs with (c := c).
Qed.

Lemma makedirs_ready name exist_ok w :
  ready (w_fs w) → ready (w_fs (after (makedirs name exist_ok w))).
Proof.
  intros (Hwf & H1 & H2 & H3).
  pose proof (makedirs_fs_rel name exist_ok w) as Hrel.
  split; [by apply makedirs_wf_rel|].
  repeat split; by eapply fs_rel_isdir.
Qed.

(** When the result directories are in place, the destination of a
    feature that renders as a plain name can be opened unless it is a
    directory. *)
Lemma ready_open_explanation fs f :
  ready fs → last_is_slash (explanations_dir args) = false →
  no_slash f = true →
  open_error fs (explanation_path args f)
  = if isdir fs (explanation_path args f)
    then Some (IsADirectoryError (explanation_path args f)) else None.
Proof.
  intros (Hwf & H1 & _) Hl Hf. unfold open_error.
  destruct (isdir fs (explanation_path args f)); [done|].
  rewrite explanation_path_dirname by done.
  by rewrite (Hwf _ H1), H1.
Qed.

Lemma ready_open_score fs score_dir f :
  ready fs → score_dir = "detection" ∨ score_dir = "fuzz" →
  no_slash f = true →
  open_error fs (score_path args score_dir f)
  = if isdir fs (score_path args score_dir f)
    then Some (IsADirectoryError (score_path args score_dir f)) else None.
Proof.
  intros (Hwf & _ & H2 & H3) Hsd Hf. unfold open_error.
  destruct (isdir fs (score_path args score_dir f)); [done|].
  assert (isdir fs (scores_dir args score_dir) = true) as Hd
    by (by destruct Hsd as [-> | ->]).
  rewrite score_path_dirname; [|by destruct Hsd as [-> | ->]..|done].
  by rewrite (Hwf _ Hd), Hd.
Qed.

(** X15. Lines 67, 100-101 and the hooks: on a file system in which no path is
    a file and a directory at once, a set-up that returns leaves the three
    result directories in place, with no file standing where a directory is;
    the three hooks, whatever their outcome, keep it so. *)
Theorem result_directories_stay_ready :
  (∀ w c, wf_fs (w_fs w) → outcome (setup args w) = Ok c →
          ready (w_fs (after (setup args w)))) ∧
  (∀ res w, ready (w_fs w) →
     ready (w_fs (after (explainer_postprocess args res w))) ∧
     (∀ score_dir,
        ready (w_fs (after (scorer_postprocess args score_dir res w)))) ∧
     ready (w_fs (after (scorer_preprocess res w)))).
Proof.
  split; [apply setup_ready|]. intros res w Hr. split; [|split].
  - rewrite explainer_postprocess_spec. by apply persist_ready.
  - intros score_dir. rewrite scorer_postprocess_spec.
    by apply persist_ready.
  - by rewrite scorer_preprocess_spec.
Qed.

(** X16. Lines 62 and 96 after lines 67 and 100-101: once the result
    directories are in place, a postprocess hook whose feature renders as a
    plain name cannot fail for want of a directory. The only error of the
    persistence layer it can raise is [IsADirectoryError], when a directory
    stands at its destination. *)
Theorem postprocess_finds_its_directory (res : value) (w : world)
    (record feature : value) :
  ready (w_fs w) →
  read_attr (w_heap w) res "record" = Some record →
  read_attr (w_heap w) record "feature" = Some feature →
  no_slash (py_str feature) = true →
  (last_is_slash (explanations_dir args) = false →
   ∀ e, outcome (explainer_postprocess args res w) = Raise e →
        is_os_error e = true →
        e = IsADirectoryError (explanation_path args (py_str feature)) ∧
        isdir (w_fs w) (explanation_path args (py_str feature)) = true) ∧
  (∀ score_dir e,
     score_dir = "detection" ∨ score_dir = "fuzz" →
     outcome (scorer_postprocess args score_dir res w) = Raise e →
     is_os_error e = true →
     e = IsADirectoryError (score_path args score_dir (py_str feature)) ∧
     isdir (w_fs w) (score_path args score_dir (py_str feature)) = true).
Proof.
  intros Hr Hrec Hfeat Hplain.
  assert (∀ path_of field answer e,
    outcome (persist path_of field answer res w) = Raise e →
    is_os_error e = true →
    open_error (w_fs w) (path_of (py_str feature)) = Some e) as Hp.
  { intros path_of field answer e. unfold persist. rewrite Hrec, Hfeat.
    destruct (open_error (w_fs w) _) as [e'|]; [by intros [= ->]|].
    destruct (read_attr (w_heap w) res field) as [x|]; [|by intros [= <-]].
    destruct (orjson_dumps (w_heap w) x); [done|by intros [= <-]]. }
  split.
  - intros Hl e. rewrite explainer_postprocess_spec. intros Ho He.
    pose proof (Hp _ _ _ _ Ho He) as Hopen.
    rewrite ready_open_explanation in Hopen by done.
    destruct (isdir (w_fs w) _); [|done]. by injection Hopen as <-.
  - intros score_dir e Hsd. rewrite scorer_postprocess_spec. intros Ho He.
    pose proof (Hp _ _ _ _ Ho He) as Hopen.
    rewrite ready_open_score in Hopen by done.
    destruct (isdir (w_fs w) _); [|done]. by injection Hopen as <-.
Qed.

(** X17. Lines 60-65 and 94-97 after the set-up: once the result directories
    are in place, a postprocess hook returns whenever it can read the record,
    the feature and the value it stores, the feature renders as a plain name,
    the value can be serialised and no directory stands at the destination;
    for [explainer_postprocess] moreover the path of the explanations
    directory must not end in a separator, that is, the experiment name is
    not empty and does not end in one.  The scorer hook is the one of the
    detection or of the fuzz scorer. *)
Theorem postprocess_returns_when_ready (res : value) (w : world)
    (record feature : value) :
  ready (w_fs w) →
  read_attr (w_heap w) res "record" = Some record →
  read_attr (w_heap w) record "feature" = Some feature →
  no_slash (py_str feature) = true →
  (∀ explanation data,
     last_is_slash (explanations_dir args) = false →
     isdir (w_fs w) (explanation_path args (py_str feature)) = false →
     read_attr (w_heap w) res "explanation" = Some explanation →
     orjson_dumps (w_heap w) explanation = Some data →
     outcome (explainer_postprocess args res w) = Ok res ∧
     files (w_fs (after (explainer_postprocess args res w)))
       !! explanation_path args (py_str feature) = Some data) ∧
  (∀ score_dir score data,
     score_dir = "detection" ∨ score_dir = "fuzz" →
     isdir (w_fs w) (score_path args score_dir (py_str feature)) = false →
     read_attr (w_heap w) res "score" = Some score →
     orjson_dumps (w_heap w) score = Some data →
     outcome (scorer_postprocess args score_dir res w) = Ok VNone ∧
     files (w_fs (after (scorer_postprocess args score_dir res w)))
       !! score_path args score_dir (py_str feature) = Some data).
Proof.
  intros Hr Hrec Hfeat Hplain. split.
  - intros x data Hl Hnd Hx Hd. rewrite explainer_postprocess_spec.
    unfold persist. rewrite Hrec, Hfeat, ready_open_explanation by done.
    rewrite Hnd, Hx, Hd. split; [done|]. apply lookup_insert_eq.
  - intros score_dir x data Hsd Hnd Hx Hd. rewrite scorer_postprocess_spec.
    unfold persist. rewrite Hrec, Hfeat, ready_open_score by done.
    rewrite Hnd, Hx, Hd. split; [done|]. apply lookup_insert_eq.
Qed.

End readiness.

Lemma wf_fs_empty : wf_fs empty_fs.
Proof. intros p _. unfold isfile. simpl. by rewrite lookup_empty. Qed.

Lemma sample_ready_ready : ready default_args (w_fs sample_ready).
Proof.
  apply (@setup_ready steady default_args sample_world sample_client).
  - apply wf_fs_empty.
  - vm_compute. reflexivity.
Qed.

Lemma result_directories_stay_ready_witness :
  ready default_args (w_fs sample_ready) ∧
  ready default_args
    (w_fs (after (@explainer_postprocess steady default_args
                    sample_explained sample_ready))).
Proof.
  destruct (@result_directories_stay_ready steady default_args)
    as [Hsetup Hhooks].
  assert (ready default_args (w_fs sample_ready)) as Hr.
  { apply (Hsetup sample_world sample_client).
    - apply wf_fs_empty.
    - vm_compute. reflexivity. }
  destruct (Hhooks sample_explained sample_ready Hr) as [He _].
  exact (conj Hr He).
Defined.

(** The world after the set-up, with a directory where the explanation of
    the first sample record belongs. *)
Definition sample_blocked : world :=
  after (makedirs "results/explanations/128k/default/f0.txt" true
           sample_ready).

Lemma postprocess_finds_its_directory_witness :
  isdir (w_fs sample_blocked) "results/explanations/128k/default/f0.txt"
  = true.
Proof.
  destruct (@postprocess_finds_its_directory steady default_args
              sample_explained sample_blocked (VRef 1%positive) (VStr "f0"))
    as [Hex _].
  - apply makedirs_ready, sample_ready_ready.
  - vm_compute. reflexivity.
  - vm_compute. reflexivity.
  - vm_compute. reflexivity.
  - destruct (Hex eq_refl
               (IsADirectoryError "results/explanations/128k/default/f0.txt"))
      as [_ Hd]; [vm_compute; reflexivity..|].
    exact Hd.
Defined.

Lemma postprocess_returns_when_ready_witness :
  files (w_fs (after (@scorer_postprocess steady default_args "detection"
                        sample_scored sample_ready)))
    !! "results/scores/128k/default/detection/f0.txt" = Some "0.9".
Proof.
  destruct (@postprocess_returns_when_ready steady default_args
              sample_scored sample_ready (VRef 1%positive) (VStr "f0"))
    as [_ Hsc].
  - apply sample_ready_ready.
  - vm_compute. reflexivity.
  - vm_compute. reflexivity.
  - vm_compute. reflexivity.
  - destruct (Hsc "detection" (VStr "0.9") "0.9") as [_ Hf];
      [by left|vm_compute; reflexivity..|].
    exact Hf.
Defined.

(** ** The order of the hooks *)

Lemma persist_commute `{!Collaborators} (path1 path2 : string → string)
    (field1 field2 : string) (answer1 answer2 res1 res2 : value)
    (w : world) (r1 f1 r2 f2 x1 x2 : value) :
  read_attr (w_heap w) res1 "record" = Some r1 →
  read_attr (w_heap w) r1 "feature" = Some f1 →
  read_attr (w_heap w) res2 "record" = Some r2 →
  read_attr (w_heap w) r2 "feature" = Some f2 →
  path1 (py_str f1) ≠ path2 (py_str f2) →
  dirname (path1 (py_str f1)) ≠ path2 (py_str f2) →
  dirname (path2 (py_str f2)) ≠ path1 (py_str f1) →
  outcome (persist path1 field1 answer1 res1 w) = Ok x1 →
  outcome (persist path2 field2 answer2 res2
             (after (persist path1 field1 answer1 res1 w))) = Ok x2 →
  outcome (persist path2 field2 answer2 res2 w) = Ok x2 ∧
  outcome (persist path1 field1 answer1 res1
             (after (persist path2 field2 answer2 res2 w))) = Ok x1 ∧
  after (persist path1 field1 answer1 res1
           (after (persist path2 field2 answer2 res2 w)))
  = after (persist path2 field2 answer2 res2
             (after (persist path1 field1 answer1 res1 w))).
Proof.
  intros Hr1 Hf1 Hr2 Hf2 Hne Hd12 Hd21 Ha Hb.
  pose proof (persist_ok _ _ _ _ _ _ Ha)
    as (r1' & f1' & o1 & d1 & Hr1' & Hf1' & Ho1 & Hx1 & Hd1 & Ea).
  rewrite Hr1 in Hr1'. injection Hr1' as <-.
  rewrite Hf1 in Hf1'. injection Hf1' as <-.
  rewrite Ea in Ha, Hb |- *. injection Ha as <-.
  unfold after in Hb |- *. cbn [fst snd] in Hb |- *.
  pose proof (persist_ok _ _ _ _ _ _ Hb)
    as (r2' & f2' & o2 & d2 & Hr2' & Hf2' & Ho2 & Hx2 & Hd2 & Eb).
  cbn [w_heap w_fs dirs files] in Hr2', Hf2', Ho2, Hx2, Hd2, Eb.
  rewrite Hr2 in Hr2'. injection Hr2' as <-.
  rewrite Hf2 in Hf2'. injection Hf2' as <-.
  rewrite Eb in Hb |- *. injection Hb as <-.
  rewrite open_error_insert in Ho2 by done.
  assert (persist path2 field2 answer2 res2 w =
            (Ok answer2,
             World (w_heap w)
               (Fs (dirs (w_fs w))
                  (<[path2 (py_str f2) := d2]> (files (w_fs w)))),
             [Open (path2 (py_str f2)); Write (path2 (py_str f2)) d2]))
    as Eb'.
  { unfold persist. by rewrite Hr2, Hf2, Ho2, Hx2, Hd2. }
  rewrite Eb'. cbn [fst snd].
  assert (persist path1 field1 answer1 res1
            (World (w_heap w)
               (Fs (dirs (w_fs w))
                  (<[path2 (py_str f2) := d2]> (files (w_fs w))))) =
            (Ok answer1,
             World (w_heap w)
               (Fs (dirs (w_fs w))
                  (<[path1 (py_str f1) := d1]>
                     (<[path2 (py_str f2) := d2]> (files (w_fs w))))),
             [Open (path1 (py_str f1)); Write (path1 (py_str f1)) d1]))
    as Ea'.
  { unfold persist. cbn [w_heap w_fs dirs files].
    rewrite Hr1, Hf1, open_error_insert by done.
    by rewrite Ho1, Hx1, Hd1. }
  rewrite Ea'. cbn [fst snd]. split; [done|]. split; [done|].
  f_equal. f_equal. by apply insert_insert_ne.
Qed.

(** The three hooks that persist a result: [explainer_postprocess] and
    the two instances of [scorer_postprocess] that lines 114 and 119 build
    with [partial]. *)
Inductive persisting_hook : Type :=
| ExplainerPost
| DetectionPost
| FuzzPost.

Section hooks_order.
Context `{!Collaborators} (args : Args).

Definition postprocess_of (k : persisting_hook) : value → M value :=
  match k with
  | ExplainerPost => explainer_postprocess args
  | DetectionPost => scorer_postprocess args "detection"
  | FuzzPost => scorer_postprocess args "fuzz"
  end.

Definition destination (k : persisting_hook) (f : string) : string :=
  match k with
  | ExplainerPost => explanation_path args f
  | DetectionPost => score_path args "detection" f
  | FuzzPost => score_path args "fuzz" f
  end.

Definition result_dir (k : persisting_hook) : string :=
  match k with
  | ExplainerPost => explanations_dir args
  | DetectionPost => scores_dir args "detection"
  | FuzzPost => scores_dir args "fuzz"
  end.

Lemma postprocess_of_spec k res w :
  postprocess_of k res w =
    match k with
    | ExplainerPost => persist (destination k) "explanation" res res w
    | _ => persist (destination k) "score" VNone res w
    end.
Proof.
  destruct k; simpl.
  - apply explainer_postprocess_spec.
  - apply scorer_postprocess_spec.
  - apply scorer_postprocess_spec.
Qed.

Lemma destination_inj k1 k2 f1 f2 :
  destination k1 f1 = destination k2 f2 → k1 = k2 ∧ f1 = f2.
Proof.
  destruct k1, k2; simpl; intros Heq.
  - split; [done|]. by eapply explanation_path_inj.
  - by apply explanation_score_path_ne in Heq.
  - by apply explanation_score_path_ne in Heq.
  - symmetry in Heq. by apply explanation_score_path_ne in Heq.
  - split; [done|]. by eapply score_path_inj.
  - by apply detection_fuzz_path_ne in Heq.
  - symmetry in Heq. by apply explanation_score_path_ne in Heq.
  - symmetry in Heq. by apply detection_fuzz_path_ne in Heq.
  - split; [done|]. by eapply score_path_inj.
Qed.

Lemma result_dir_not_destination k1 k2 f :
  result_dir k1 ≠ destination k2 f.
Proof.
  destruct k1, k2; simpl;
    unfold explanations_dir, scores_dir, explanation_path, score_path;
    intros Heq; path_eq Heq.
  by apply str_app_eq_self in Heq.
Qed.

Lemma destination_dirname k f :
  last_is_slash (explanations_dir args) = false →
  no_slash f = true →
  dirname (destination k f) = result_dir k.
Proof.
  intros Hl Hf. destruct k; simpl.
  - by apply explanation_path_dirname.
  - by apply score_path_dirname.
  - by apply score_path_dirname.
Qed.

(** X18. Lines 60-65 and 94-97, for any two calls of the hooks that persist
    results, on results whose records have features that render as plain
    names, and when the path of the explanations directory does not end in
    a separator (the experiment name is not empty and does not end in
    one): two different hooks, or one hook on two features that render
    differently, write to different files and do not see each other. When one
    call returns and the other returns after it, the same holds in the
    opposite order, and the world is the same at the end: the order in which
    the executor runs the postprocess hooks of different items, or of the two
    scorers of one item, does not show in the results. *)
Theorem postprocess_hooks_commute (k1 k2 : persisting_hook)
    (res1 res2 : value) (w : world) (r1 f1 r2 f2 x1 x2 : value) :
  read_attr (w_heap w) res1 "record" = Some r1 →
  read_attr (w_heap w) r1 "feature" = Some f1 →
  read_attr (w_heap w) res2 "record" = Some r2 →
  read_attr (w_heap w) r2 "feature" = Some f2 →
  no_slash (py_str f1) = true →
  no_slash (py_str f2) = true →
  last_is_slash (explanations_dir args) = false →
  k1 ≠ k2 ∨ py_str f1 ≠ py_str f2 →
  outcome (postprocess_of k1 res1 w) = Ok x1 →
  outcome (postprocess_of k2 res2 (after (postprocess_of k1 res1 w)))
    = Ok x2 →
  outcome (postprocess_of k2 res2 w) = Ok x2 ∧
  outcome (postprocess_of k1 res1 (after (postprocess_of k2 res2 w)))
    = Ok x1 ∧
  after (postprocess_of k1 res1 (after (postprocess_of k2 res2 w)))
  = after (postprocess_of k2 res2 (after (postprocess_of k1 res1 w))).
Proof.
  intros Hr1 Hf1 Hr2 Hf2 Hp1 Hp2 Hl Hdiff.
  assert (destination k1 (py_str f1) ≠ destination k2 (py_str f2)) as Hne.
  { intros [-> Hf]%destination_inj. by destruct Hdiff. }
  assert (dirname (destination k1 (py_str f1)) ≠ destination k2 (py_str f2))
    as Hd12.
  { rewrite destination_dirname by done. apply result_dir_not_destination. }
  assert (dirname (destination k2 (py_str f2)) ≠ destination k1 (py_str f1))
    as Hd21.
  { rewrite destination_dirname by done. apply result_dir_not_destination. }
  rewrite !postprocess_of_spec.
  destruct k1, k2;
    by apply persist_commute with (r1 := r1) (f1 := f1) (r2 := r2) (f2 := f2).
Qed.

End hooks_order.

Lemma postprocess_hooks_commute_witness :
  after (@postprocess_of steady default_args ExplainerPost sample_explained
           (after (@postprocess_of steady default_args FuzzPost
                     sample_scored sample_ready)))
  = after (@postprocess_of steady default_args FuzzPost sample_scored
             (after (@postprocess_of steady default_args ExplainerPost
                       sample_explained sample_ready))).
Proof.
  destruct (@postprocess_hooks_commute steady default_args ExplainerPost
              FuzzPost sample_explained sample_scored sample_ready
              (VRef 1%positive) (VStr "f0") (VRef 1%positive) (VStr "f0")
              sample_explained VNone) as (_ & _ & Heq);
    [vm_compute; reflexivity|vm_compute; reflexivity
    |vm_compute; reflexivity|vm_compute; reflexivity
    |vm_compute; reflexivity|vm_compute; reflexivity
    |vm_compute; reflexivity|by left
    |vm_compute; reflexivity|vm_compute; reflexivity|].
  exact Heq.
Defined.

(** ** From the explainer to the scorers *)

Section explanation_flow.
Context `{!Collaborators} (args : Args).

(** X19. Lines 65 and 88-89: [explainer_postprocess] hands on the result it
    was given, so the explanation that [scorer_preprocess] then stores on the
    record is the one whose serialisation is in the explanation file of the
    feature. *)
Theorem scored_explanation_is_persisted (res : value) (w : world)
    (x record : value) :
  outcome (explainer_postprocess args res w) = Ok x →
  outcome (scorer_preprocess x (after (explainer_postprocess args res w)))
    = Ok record →
  ∃ feature explanation data,
    read_attr (w_heap w) res "record" = Some record ∧
    read_attr (w_heap w) record "feature" = Some feature ∧
    orjson_dumps (w_heap w) explanation = Some data ∧
    read_attr
      (w_heap (after (scorer_preprocess x
                        (after (explainer_postprocess args res w)))))
      record "explanation" = Some explanation ∧
    read_attr
      (w_heap (after (scorer_preprocess x
                        (after (explainer_postprocess args res w)))))
      record "feature" = Some feature ∧
    files (w_fs (after (scorer_preprocess x
                          (after (explainer_postprocess args res w)))))
      !! explanation_path args (py_str feature) = Some data.
Proof.
  rewrite explainer_postprocess_spec. intros Ho Hs.
  pose proof (persist_ok _ _ _ _ _ _ Ho)
    as (r & feature & explanation & data & Hr & Hf & _ & Hx & Hd & E).
  rewrite E in Ho, Hs |- *. injection Ho as <-.
  cbn [after fst snd] in Hs |- *.
  rewrite scorer_preprocess_spec in Hs |- *.
  cbn [after outcome fst snd w_heap w_fs files] in Hs |- *.
  revert Hs. unfold preprocessed. rewrite Hr, Hx.
  destruct r as [| | |l| |]; try done.
  destruct (w_heap w !! l) as [o|] eqn:Hl; [|done].
  simpl in Hf. rewrite Hl in Hf. simpl in Hf.
  destruct (o !! "random_examples") as [examples|]; [|done].
  cbn [fst snd]. intros [= <-].
  exists feature, explanation, data.
  split; [done|]. split; [by simpl; rewrite Hl|]. split; [done|].
  simpl. rewrite lookup_insert_eq. simpl.
  rewrite lookup_insert_ne by done. rewrite lookup_insert_eq.
  rewrite !lookup_insert_ne by done.
  split; [done|]. split; [done|]. apply lookup_insert_eq.
Qed.

End explanation_flow.

Lemma scored_explanation_is_persisted_witness :
  ∃ record,
    outcome (scorer_preprocess sample_explained
               (after (@explainer_postprocess steady default_args
                         sample_explained sample_ready))) = Ok record ∧
    read_attr
      (w_heap (after (scorer_preprocess sample_explained
                        (after (@explainer_postprocess steady default_args
                                  sample_explained sample_ready)))))
      record "explanation" = Some (VStr "vowels").
Proof.
  exists (VRef 1%positive).
  assert (outcome (scorer_preprocess sample_explained
                     (after (@explainer_postprocess steady default_args
                               sample_explained sample_ready)))
          = Ok (VRef 1%positive)) as Hs by (vm_compute; reflexivity).
  split; [exact Hs|].
  destruct (@scored_explanation_is_persisted steady default_args
              sample_explained sample_ready sample_explained
              (VRef 1%positive)) as (feature & explanation & data & H);
    [vm_compute; reflexivity|exact Hs|].
  vm_compute. reflexivity.
Defined.


(** ** Where the set-up creates directories *)

(** Every directory that is created is one that [allowed] names. *)
Definition within_rel (allowed : string → Prop) (w : world)
    (t : list fs_event) (w' : world) : Prop :=
  ∀ d, d ∈ mkdirs t → allowed d.

Lemma within_rel_composes allowed : composes (within_rel allowed).
Proof.
  split.
  - intros w d Hd. by apply elem_of_nil in Hd.
  - intros w t1 w1 t2 w2 H1 H2 d. rewrite mkdirs_app.
    intros [Hd|Hd]%elem_of_app; [by apply H1|by apply H2].
Qed.

Lemma mkdir_within (allowed : string → Prop) d :
  allowed d → respects (within_rel allowed) (mkdir d).
Proof.
  intros Ha w. rewrite mkdir_spec.
  destruct (mkdir_error (w_fs w) d); [apply within_rel_composes|].
  intros d' Hd'. unfold effects in Hd'. simpl in Hd'.
  by apply list_elem_of_singleton in Hd' as ->.
Qed.

Lemma mkdir_missing_within (allowed : string → Prop) ds :
  (∀ d, d ∈ ds → allowed d) →
  respects (within_rel allowed) (mkdir_missing ds).
Proof.
  pose proof (within_rel_composes allowed) as HR.
  induction ds as [|d ds IH]; intros Hds; simpl.
  - by apply respects_ret.
  - apply respects_bind; [done|by apply respects_get_fs|].
    intros fs. apply respects_bind; [done| |].
    + destruct (isdir fs d); [by apply respects_ret|].
      apply mkdir_within, Hds. by left.
    + intros _. apply IH. intros d' Hd'. apply Hds. by right.
Qed.

Lemma makedirs_within (allowed : string → Prop) name exist_ok :
  (∀ d, d ∈ ancestors name → allowed d) → allowed name →
  respects (within_rel allowed) (makedirs name exist_ok).
Proof.
  pose proof (within_rel_composes allowed) as HR.
  intros Hds Hn. unfold makedirs.
  apply respects_bind; [done|by apply mkdir_missing_within|].
  intros _. apply respects_bind; [done|by apply respects_get_fs|].
  intros fs. destruct (isdir fs name); [|by apply mkdir_within].
  destruct exist_ok; [by apply respects_ret|by apply respects_raise].
Qed.

Lemma ancestors_from_acc acc p a :
  a ∈ ancestors_from acc p → ∃ k, a = acc +:+ k.
Proof.
  revert acc. induction p as [|c p IH]; intros acc; simpl.
  - intros Ha. by apply elem_of_nil in Ha.
  - intros [Ha|Ha]%elem_of_app.
    + destruct (_ && _); [|by apply elem_of_nil in Ha].
      apply list_elem_of_singleton in Ha as ->. exists "".
      by rewrite str_app_nil_r.
    + apply IH in Ha as [k ->]. exists (String c k).
      rewrite str_app_assoc. by rewrite str_app_cons, str_app_nil_l.
Qed.

(** The directories on the way to a path that starts with a plain name
    start with that name. *)
Lemma ancestors_below (top rest a : string) :
  no_slash top = true → a ∈ ancestors (top +:+ rest) →
  ∃ k, a = top +:+ k.
Proof.
  intros Ht. unfold ancestors.
  rewrite ancestors_from_app, ancestors_from_plain by done.
  rewrite str_app_nil_l. apply ancestors_from_acc.
Qed.

Section setup_directories.
Context `{!Collaborators} (args : Args).

(** The three result directories. *)
Definition result_dirs : list string :=
  [ explanations_dir args; scores_dir args "detection";
    scores_dir args "fuzz" ].

(** A result directory or a directory on the way to one. *)
Definition on_result_path (d : string) : Prop :=
  ∃ r, r ∈ result_dirs ∧ (d = r ∨ d ∈ ancestors r).

(** X20. Lines 67, 100 and 101, whatever the outcome: every directory the
    set-up creates is one of the three result directories or lies on the
    way to one, so that it is [results] or below it; each is created at
    most once, and none existed before. *)
Theorem setup_creates_result_directories_only (w : world) (d : string) :
  d ∈ mkdirs (effects (setup args w)) →
  on_result_path d ∧
  (∃ k, d = "results" +:+ k) ∧
  (d ∉ dirs (w_fs w)) ∧
  d ∈ dirs (w_fs (after (setup args w))).
Proof.
  intros Hd.
  assert (respects (within_rel on_result_path) (setup args)) as Hw.
  { pose proof (within_rel_composes on_result_path) as HR.
    assert (∀ r, r ∈ result_dirs →
              respects (within_rel on_result_path) (makedirs r true))
      as Hmk.
    { intros r Hr. apply makedirs_within.
      - intros a Ha. exists r. auto.
      - exists r. auto. }
    assert (∀ dir, respects (within_rel on_result_path) (write_config dir))
      as Hcfg.
    { intros dir w' d'. rewrite write_config_spec.
      destruct (open_error _ _); unfold effects; simpl;
        intros Hin; by apply elem_of_nil in Hin. }
    unfold setup.
    apply respects_bind; [done|apply Hmk; by left|intros _].
    apply respects_bind; [done| |intros c].
    { intros w'. rewrite use_client_spec.
      destruct (load_client args); apply HR. }
    apply respects_bind; [done|apply Hcfg|intros _].
    apply respects_bind; [done|apply Hmk; right; by left|intros _].
    apply respects_bind; [done|apply Hmk; right; right; by left|intros _].
    apply respects_bind; [done|apply Hcfg|intros _].
    apply respects_bind; [done|apply Hcfg|intros _].
    by apply respects_ret. }
  pose proof (Hw w d Hd) as Hon. split; [done|].
  destruct (setup_fs_rel args w) as (Hdirs & _ & Hnew).
  split; [|split; [by apply Hnew|]].
  - destruct Hon as (r & Hr & [->|Ha]).
    + unfold result_dirs in Hr.
      apply elem_of_cons in Hr as [->|Hr]; [by eexists|].
      apply elem_of_cons in Hr as [->|Hr]; [by eexists|].
      apply list_elem_of_singleton in Hr as ->. by eexists.
    + unfold result_dirs in Hr.
      apply elem_of_cons in Hr as [->|Hr];
        [by eapply (ancestors_below "results"); [|exact Ha]|].
      apply elem_of_cons in Hr as [->|Hr];
        [by eapply (ancestors_below "results"); [|exact Ha]|].
      apply list_elem_of_singleton in Hr as ->.
      by eapply (ancestors_below "results"); [|exact Ha].
  - rewrite Hdirs. apply elem_of_union. right.
    by apply elem_of_list_to_set.
Qed.

End setup_directories.

Lemma setup_creates_result_directories_only_witness :
  ("results/scores" ∉ dirs (w_fs sample_world)) ∧
  "results/scores" ∈ dirs (w_fs sample_ready).
Proof.
  destruct (@setup_creates_result_directories_only steady default_args
              sample_world "results/scores") as (_ & _ & Hn & Hin).
  { apply (bool_decide_unpack _). vm_compute. exact I. }
  exact (conj Hn Hin).
Defined.


(** ** Running again over earlier results (C6) *)

(** A second write to a destination replaces what the first left there. *)
Lemma persist_absorb `{!Collaborators} (path_of : string → string)
    (field : string) (answer1 answer2 res1 res2 : value) (w : world)
    (r1 f1 r2 f2 x1 x2 : value) :
  (∀ f, path_of f ≠ "") →
  read_attr (w_heap w) res1 "record" = Some r1 →
  read_attr (w_heap w) r1 "feature" = Some f1 →
  read_attr (w_heap w) res2 "record" = Some r2 →
  read_attr (w_heap w) r2 "feature" = Some f2 →
  py_str f1 = py_str f2 →
  outcome (persist path_of field answer1 res1 w) = Ok x1 →
  outcome (persist path_of field answer2 res2
             (after (persist path_of field answer1 res1 w))) = Ok x2 →
  persist path_of field answer2 res2
    (after (persist path_of field answer1 res1 w))
  = persist path_of field answer2 res2 w.
Proof.
  intros Hne Hr1 Hf1 Hr2 Hf2 Hkey Ha Hb.
  pose proof (persist_ok _ _ _ _ _ _ Ha)
    as (r1' & f1' & o1 & d1 & Hr1' & Hf1' & Ho1 & Hx1 & Hd1 & Ea).
  rewrite Hr1 in Hr1'. injection Hr1' as <-.
  rewrite Hf1 in Hf1'. injection Hf1' as <-.
  rewrite Ea in Hb |- *. cbn [after fst snd] in Hb |- *.
  pose proof (persist_ok _ _ _ _ _ _ Hb)
    as (r2' & f2' & o2 & d2 & Hr2' & Hf2' & Ho2 & Hx2 & Hd2 & Eb).
  cbn [w_heap w_fs dirs files] in Hr2', Hf2', Ho2, Hx2, Hd2, Eb.
  rewrite Hr2 in Hr2'. injection Hr2' as <-.
  rewrite Hf2 in Hf2'. injection Hf2' as <-.
  rewrite Eb. rewrite <- Hkey.
  unfold persist. rewrite Hr2, Hf2, <- Hkey, Ho1, Hx2, Hd2.
  by rewrite insert_insert_eq.
Qed.

Lemma makedirs_again name w :
  outcome (makedirs name true w) = Ok tt →
  makedirs name true (after (makedirs name true w))
  = (Ok tt, after (makedirs name true w), []).
Proof.
  intros [Hchain Hdir]%makedirs_chain. by apply makedirs_noop.
Qed.

Section rerun.
Context `{!Collaborators} (args : Args).

(** C6: a persisting hook that has returned for a result can be run again
    for it in the world it left: it returns the same value, opens and
    writes the same destination with the same data, and leaves the world
    as it found it.  When the second run stores another value under the
    same key, what is left is what the second run alone would have left:
    the destination is opened in a mode that replaces its content, so
    nothing of the first run remains and nothing is stored twice.  A call
    of [os.makedirs] with [exist_ok=True] that has returned can be repeated:
    it returns again and does nothing.  This holds for
    [explainer_postprocess], for [scorer_postprocess] with any score
    directory, and for any directory name. *)
Theorem rerun_is_safe_overwrite :
  (∀ res w x,
     outcome (explainer_postprocess args res w) = Ok x →
     explainer_postprocess args res
       (after (explainer_postprocess args res w))
     = (Ok x, after (explainer_postprocess args res w),
        effects (explainer_postprocess args res w))) ∧
  (∀ score_dir res w x,
     outcome (scorer_postprocess args score_dir res w) = Ok x →
     scorer_postprocess args score_dir res
       (after (scorer_postprocess args score_dir res w))
     = (Ok x, after (scorer_postprocess args score_dir res w),
        effects (scorer_postprocess args score_dir res w))) ∧
  (∀ res1 res2 w r1 f1 r2 f2 x1 x2,
     read_attr (w_heap w) res1 "record" = Some r1 →
     read_attr (w_heap w) r1 "feature" = Some f1 →
     read_attr (w_heap w) res2 "record" = Some r2 →
     read_attr (w_heap w) r2 "feature" = Some f2 →
     py_str f1 = py_str f2 →
     (outcome (explainer_postprocess args res1 w) = Ok x1 →
      outcome (explainer_postprocess args res2
                 (after (explainer_postprocess args res1 w))) = Ok x2 →
      explainer_postprocess args res2
        (after (explainer_postprocess args res1 w))
      = explainer_postprocess args res2 w) ∧
     (∀ score_dir,
        outcome (scorer_postprocess args score_dir res1 w) = Ok x1 →
        outcome (scorer_postprocess args score_dir res2
                   (after (scorer_postprocess args score_dir res1 w)))
          = Ok x2 →
        scorer_postprocess args score_dir res2
          (after (scorer_postprocess args score_dir res1 w))
        = scorer_postprocess args score_dir res2 w)) ∧
  (∀ name w,
     outcome (makedirs name true w) = Ok tt →
     makedirs name true (after (makedirs name true w))
     = (Ok tt, after (makedirs name true w), [])).
Proof.
  split; [|split; [|split]].
  - intros res w x. rewrite !explainer_postprocess_spec. intros Ho.
    rewrite persist_rerun with (x := x);
      [|apply explanation_path_ne_empty|done].
    revert Ho. destruct (persist _ _ _ res w) as [[r w'] t].
    unfold outcome, after, effects. simpl. by intros ->.
  - intros score_dir res w x. rewrite !scorer_postprocess_spec. intros Ho.
    rewrite persist_rerun with (x := x);
      [|apply score_path_ne_empty|done].
    revert Ho. destruct (persist _ _ _ res w) as [[r w'] t].
    unfold outcome, after, effects. simpl. by intros ->.
  - intros res1 res2 w r1 f1 r2 f2 x1 x2 Hr1 Hf1 Hr2 Hf2 Hkey. split.
    + rewrite !explainer_postprocess_spec. intros Ha Hb.
      by eapply persist_absorb;
        [apply explanation_path_ne_empty|exact Hr1|exact Hf1|exact Hr2
        |exact Hf2|exact Hkey|exact Ha|exact Hb].
    + intros score_dir. rewrite !scorer_postprocess_spec. intros Ha Hb.
      by eapply persist_absorb;
        [apply score_path_ne_empty|exact Hr1|exact Hf1|exact Hr2
        |exact Hf2|exact Hkey|exact Ha|exact Hb].
  - intros name w. apply makedirs_again.
Qed.

End rerun.

(** A second explanation for the first sample record. *)
Definition sample_explained_again : value :=
  VResult (VRef 1%positive) "explanation" (VStr "consonants").

Lemma rerun_is_safe_overwrite_witness :
  (@explainer_postprocess steady default_args sample_explained
     (after (@explainer_postprocess steady default_args sample_explained
               sample_ready))
   = (Ok sample_explained,
      after (@explainer_postprocess steady default_args sample_explained
               sample_ready),
      effects (@explainer_postprocess steady default_args sample_explained
                 sample_ready))) ∧
  (@explainer_postprocess steady default_args sample_explained_again
     (after (@explainer_postprocess steady default_args sample_explained
               sample_ready))
   = @explainer_postprocess steady default_args sample_explained_again
       sample_ready) ∧
  (makedirs "results/scores/128k/default/fuzz" true
     (after (makedirs "results/scores/128k/default/fuzz" true sample_world))
   = (Ok tt,
      after (makedirs "results/scores/128k/default/fuzz" true sample_world),
      [])).
Proof.
  destruct (@rerun_is_safe_overwrite steady default_args)
    as (Hsame & _ & Hover & Hmk).
  split; [|split].
  - apply Hsame. vm_compute. reflexivity.
  - destruct (Hover sample_explained sample_explained_again sample_ready
                (VRef 1%positive) (VStr "f0") (VRef 1%positive) (VStr "f0")
                sample_explained sample_explained_again)
      as [Hex _];
      [vm_compute; reflexivity|vm_compute; reflexivity
      |vm_compute; reflexivity|vm_compute; reflexivity
      |vm_compute; reflexivity|].
    apply Hex; vm_compute; reflexivity.
  - apply Hmk. vm_compute. reflexivity.
Defined.
